(** * SyncFromNotion: the reconciliation engine of the Figma plugin

    A shallow embedding of the plugin backend [code.ts]: the index of
    existing cards ([buildExistingMap]), the placement of new cards
    ([getNextAvailableY] and the four-column grid), the field applier
    ([parseBoolean], [parseAndApplyListStyle], [findChildByName],
    [fillInstanceData], [updateInstance]) and the [sync-mapped-data]
    message handler.

    Modelling conventions.
    - A scene node is a tree.  A reference to a node of the current page is
      the path of child positions leading to it: the handler only ever
      appends to the page, so a path keeps naming the same node for the
      whole pass, as the JavaScript reference does.
    - JavaScript numbers are idealised as integers ([Z]); strings are
      sequences of 8-bit characters, so [toLowerCase], [trim] and the
      character classes [\d] and [\s] are the ASCII ones.
    - Calls into the host that leave the document untouched (font loading,
      console logging, scrolling the viewport) are not part of the state
      and are taken to succeed; messages posted to the UI are kept, in
      order, in structured form.
    - The host copies a node with its sublayers and its plugin data
      ([clone], [createInstance]).  What the host derives from content on
      its own (auto layout, text boxes that resize) is outside the model:
      a node's position and size change only where the plugin assigns
      them. *)

From Stdlib Require Import ZArith Lia Bool Ascii String List.
From stdpp Require Import base option list gmap strings fin_maps pretty.

Open Scope string_scope.
Open Scope list_scope.

#[local] Set Warnings "-register-all".

(* ===================================================================== *)
(** ** Constants of the plugin *)
(* ===================================================================== *)

Definition PLUGIN_DATA_KEY : string := "notionId".
Definition PLUGIN_DATA_COMPONENT : string := "sourceComponentId".
Definition CARD_GAP : Z := 20.
Definition CARDS_PER_ROW : nat := 4.

(* ===================================================================== *)
(** ** Record values and JavaScript coercions *)
(* ===================================================================== *)

(** A value found in a record.  A key that is missing from the record reads
    as [undefined], which is [None] at the lookup. *)
Inductive jsval : Type :=
| VBool (b : bool)
| VNum (n : Z)
| VStr (s : string)
| VNull.

(** [String(v)] *)
Definition js_String (v : jsval) : string :=
  match v with
  | VBool true => "true"
  | VBool false => "false"
  | VNum n => pretty n
  | VStr s => s
  | VNull => "null"
  end.

(** Truthiness, as used by [||] and [!!]. *)
Definition truthy (v : jsval) : bool :=
  match v with
  | VBool b => b
  | VNum n => negb (n =? 0)%Z
  | VStr s => negb (s =? "")
  | VNull => false
  end.

Module Str.

Definition newline : ascii := "010"%char.

Definition is_upper (c : ascii) : bool :=
  (65 <=? nat_of_ascii c)%nat && (nat_of_ascii c <=? 90)%nat.

Definition lower_char (c : ascii) : ascii :=
  if is_upper c then ascii_of_nat (nat_of_ascii c + 32) else c.

(** [s.toLowerCase()] *)
Fixpoint toLowerCase (s : string) : string :=
  match s with
  | EmptyString => EmptyString
  | String c r => String (lower_char c) (toLowerCase r)
  end.

(** White space: tab, line feed, vertical tab, form feed, carriage
    return and space. *)
Definition is_space (c : ascii) : bool :=
  let n := nat_of_ascii c in
  ((9 <=? n)%nat && (n <=? 13)%nat) || (n =? 32)%nat.

Definition is_digit (c : ascii) : bool :=
  (48 <=? nat_of_ascii c)%nat && (nat_of_ascii c <=? 57)%nat.

Fixpoint trimStart (s : string) : string :=
  match s with
  | EmptyString => EmptyString
  | String c r => if is_space c then trimStart r else s
  end.

Fixpoint trimEnd (s : string) : string :=
  match s with
  | EmptyString => EmptyString
  | String c r =>
      match trimEnd r with
      | EmptyString => if is_space c then EmptyString else String c EmptyString
      | r' => String c r'
      end
  end.

(** [s.trim()] *)
Definition trim (s : string) : string := trimEnd (trimStart s).

(** [s.split('\n')]: always at least one piece. *)
Fixpoint split_lines (s : string) : list string :=
  match s with
  | EmptyString => [EmptyString]
  | String c r =>
      if Ascii.eqb c newline then EmptyString :: split_lines r
      else match split_lines r with
           | l :: ls => String c l :: ls
           | [] => [String c EmptyString]
           end
  end.

(** [lines.join('\n')] *)
Fixpoint join_lines (ls : list string) : string :=
  match ls with
  | [] => EmptyString
  | [l] => l
  | l :: ls' => (l ++ String newline (join_lines ls'))%string
  end.

Fixpoint all_chars (p : ascii -> bool) (s : string) : bool :=
  match s with
  | EmptyString => true
  | String c r => p c && all_chars p r
  end.

(** Drop the longest prefix whose characters satisfy [p]; also says
    whether anything was dropped. *)
Fixpoint drop_while (p : ascii -> bool) (s : string) : bool * string :=
  match s with
  | EmptyString => (false, EmptyString)
  | String c r => if p c then (true, snd (drop_while p r)) else (false, s)
  end.

End Str.

(** [parseBoolean(val)] for a present value. *)
Definition parseBoolean (val : jsval) : bool :=
  match val with
  | VBool b => b
  | VNum n => negb (n =? 0)%Z
  | VStr v =>
      let s := Str.trim (Str.toLowerCase v) in
      if (s =? "true") || (s =? "yes") || (s =? "1") || (s =? "checked") || (s =? "ok")
      then true
      else if (s =? "false") || (s =? "no") || (s =? "0") || (s =? "unchecked")
              || (s =? "") || (s =? "null")
      then false
      else (0 <? String.length s)%nat
  | VNull => truthy VNull
  end.

(** The regular expression [/^\d+\.\s+/]: [Some rest] when the string starts
    with one or more digits, a dot and one or more white-space characters,
    [rest] being what follows the (greedy) match. *)
Definition match_numberedPattern (line : string) : option string :=
  match Str.drop_while Str.is_digit line with
  | (true, String "." r) =>
      match Str.drop_while Str.is_space r with
      | (true, rest) => Some rest
      | _ => None
      end
  | _ => None
  end.

(** [numberedPattern.test(line)] *)
Definition numberedPattern_test (line : string) : bool :=
  match match_numberedPattern line with Some _ => true | None => false end.

(** [line.replace(numberedPattern, '')] *)
Definition numberedPattern_strip (line : string) : string :=
  match match_numberedPattern line with Some rest => rest | None => line end.

(* ===================================================================== *)
(** ** The document tree *)
(* ===================================================================== *)

(** Node types without a [children] property. *)
Inductive leaf_type : Type := TEXT | RECTANGLE | ELLIPSE | VECTOR | LINE.

(** Node types with a [children] property. *)
Inductive container_type : Type :=
  FRAME | GROUP | COMPONENT | COMPONENT_SET | INSTANCE | SECTION.

Inductive list_type : Type := ORDERED | UNORDERED | NONE.

(** What the plugin reads or writes on a single node.  [notionId] and
    [sourceComponentId] are the two plugin-data entries, the empty string
    standing for an entry that was never set.  [listOptions] is the last
    [setRangeListOptions(start, end, {type})] applied to a text node. *)
Record attrs : Type := mkAttrs {
  name : string;
  notionId : string;
  sourceComponentId : string;
  x : Z;
  y : Z;
  width : Z;
  height : Z;
  visible : bool;
  characters : string;
  listOptions : nat * nat * list_type
}.

Inductive node : Type :=
| Leaf (t : leaf_type) (a : attrs)
| Container (t : container_type) (a : attrs) (children : list node).

Abbreviation path := (list nat).

Definition attrs_of (n : node) : attrs :=
  match n with Leaf _ a => a | Container _ a _ => a end.

Definition children_of (n : node) : list node :=
  match n with Leaf _ _ => [] | Container _ _ cs => cs end.

Definition map_attrs (f : attrs -> attrs) (n : node) : node :=
  match n with
  | Leaf t a => Leaf t (f a)
  | Container t a cs => Container t (f a) cs
  end.

Definition is_text (n : node) : bool :=
  match n with Leaf TEXT _ => true | _ => false end.

Definition is_component (n : node) : bool :=
  match n with Container COMPONENT _ _ => true | _ => false end.

(** Replace the node reached from [n] along [p] by its image under [g];
    nothing happens when [p] leads nowhere. *)
Fixpoint alter_at (g : node -> node) (p : path) (n : node) : node :=
  match p with
  | [] => g n
  | i :: p' =>
      match n with
      | Container t a cs => Container t a (alter (alter_at g p') i cs)
      | Leaf _ _ => n
      end
  end.

Fixpoint node_at (p : path) (n : node) : option node :=
  match p with
  | [] => Some n
  | i :: p' =>
      match n with
      | Container _ _ cs => cs !! i ≫= node_at p'
      | Leaf _ _ => None
      end
  end.

(** The same two operations from the page, whose children are the roots. *)
Definition page_alter (g : node -> node) (p : path) (pg : list node) : list node :=
  match p with
  | [] => pg
  | i :: p' => alter (alter_at g p') i pg
  end.

Definition page_at (p : path) (pg : list node) : option node :=
  match p with
  | [] => None
  | i :: p' => pg !! i ≫= node_at p'
  end.

(** Attribute setters. *)
Definition set_visible (b : bool) (a : attrs) : attrs :=
  mkAttrs (name a) (notionId a) (sourceComponentId a) (x a) (y a) (width a)
          (height a) b (characters a) (listOptions a).

Definition set_characters (s : string) (a : attrs) : attrs :=
  mkAttrs (name a) (notionId a) (sourceComponentId a) (x a) (y a) (width a)
          (height a) (visible a) s (listOptions a).

Definition setRangeListOptions (st en : nat) (t : list_type) (a : attrs) : attrs :=
  mkAttrs (name a) (notionId a) (sourceComponentId a) (x a) (y a) (width a)
          (height a) (visible a) (characters a) (st, en, t).

Definition set_position (px py : Z) (a : attrs) : attrs :=
  mkAttrs (name a) (notionId a) (sourceComponentId a) px py (width a)
          (height a) (visible a) (characters a) (listOptions a).

(** [setPluginData(PLUGIN_DATA_KEY, v)] and
    [setPluginData(PLUGIN_DATA_COMPONENT, v)] *)
Definition set_notionId (v : string) (a : attrs) : attrs :=
  mkAttrs (name a) v (sourceComponentId a) (x a) (y a) (width a)
          (height a) (visible a) (characters a) (listOptions a).

Definition set_sourceComponentId (v : string) (a : attrs) : attrs :=
  mkAttrs (name a) (notionId a) v (x a) (y a) (width a)
          (height a) (visible a) (characters a) (listOptions a).

(* ===================================================================== *)
(** ** Field applier *)
(* ===================================================================== *)

(** [parseAndApplyListStyle(textNode, rawValue)], on the text node's
    attributes. *)
Definition parseAndApplyListStyle (rawValue : string) (textNode : attrs) : attrs :=
  let lines := Str.split_lines rawValue in
  let isNumberedList := numberedPattern_test (hd "" lines) in
  if isNumberedList then
    let cleanedLines := map numberedPattern_strip lines in
    let cleanedText := Str.join_lines cleanedLines in
    setRangeListOptions 0 (String.length cleanedText) ORDERED
      (set_characters cleanedText textNode)
  else
    setRangeListOptions 0 (String.length rawValue) NONE
      (set_characters rawValue textNode).

Section Scan.
Variable search : node -> option path.
Variable wanted : string.

(** The loop [for (const child of parent.children)] of
    [findChildByName], [i] being the position of the first child of
    [cs] in its parent. *)
Fixpoint scan_children (cs : list node) (i : nat) : option path :=
  match cs with
  | [] => None
  | child :: rest =>
      if String.eqb (name (attrs_of child)) wanted then Some [i]
      else match search child with
           | Some p => Some (i :: p)
           | None => scan_children rest (S i)
           end
  end.
End Scan.

(** [findChildByName(parent, name)]: the first node below [parent], in
    depth-first order, that bears the name, as a path relative to
    [parent].  On a node without children the result is [None]; this is
    the guard ['children' in child] of the recursive call.  The top-level
    call on such a node raises instead, see [fillInstanceData]. *)
Fixpoint findChildByName (parent : node) (nm : string) : option path :=
  match parent with
  | Leaf _ _ => None
  | Container _ _ cs => scan_children (fun c => findChildByName c nm) nm cs 0
  end.

Record FieldMapping : Type := mkMapping {
  layerName : string;
  dataField : string;
  dataType : bool  (* true for 'image', false for 'text' *)
}.

(** One iteration of the loop of [fillInstanceData]. *)
Definition applyMapping (record : gmap string jsval) (instance : node)
    (mapping : FieldMapping) : node :=
  match findChildByName instance (layerName mapping) with
  | None => instance
  | Some target =>
      match record !! dataField mapping with
      | None | Some VNull => instance
      | Some value =>
          let isVisible := parseBoolean value in
          let shown := alter_at (map_attrs (set_visible isVisible)) target instance in
          if negb isVisible then shown
          else if from_option is_text false (node_at target instance) then
            match value with
            | VBool _ => shown
            | _ => alter_at (map_attrs (parseAndApplyListStyle (js_String value)))
                            target shown
            end
          else shown
      end
  end.

(** [fillInstanceData(instance, record, mappings)].  [None] is the
    [TypeError] raised by [findChildByName] when [instance] has no
    [children] to iterate over. *)
Definition fillInstanceData (instance : node) (record : gmap string jsval)
    (mappings : list FieldMapping) : option node :=
  match mappings, instance with
  | [], _ => Some instance
  | _ :: _, Leaf _ _ => None
  | _ :: _, Container _ _ _ => Some (fold_left (applyMapping record) mappings instance)
  end.

(** [updateInstance(node, record, mappings)] *)
Definition updateInstance (n : node) (record : gmap string jsval)
    (mappings : list FieldMapping) : option node :=
  match n with
  | Leaf _ _ => Some n
  | Container _ _ _ => fillInstanceData n record mappings
  end.

(* ===================================================================== *)
(** ** Index of the existing cards *)
(* ===================================================================== *)

(** The body of [walk] that records one node: the list kept under the
    node's identifier, if it has one, gets the reference appended. *)
Definition index_add (id : string) (p : path) (m : gmap string (list path))
    : gmap string (list path) :=
  if String.eqb id "" then m
  else <[id := default [] (m !! id) ++ [p]]> m.

Section WalkChildren.
Variable visit : path -> node -> gmap string (list path) -> gmap string (list path).

(** [for (const child of node.children) walk(child)], [p] being the
    reference of the parent and [i] the position of the first of [cs]. *)
Fixpoint walk_children (p : path) (cs : list node) (i : nat)
    (m : gmap string (list path)) : gmap string (list path) :=
  match cs with
  | [] => m
  | child :: rest => walk_children p rest (S i) (visit (p ++ [i]) child m)
  end.
End WalkChildren.

Fixpoint walk (p : path) (n : node) (m : gmap string (list path))
    : gmap string (list path) :=
  let m1 := index_add (notionId (attrs_of n)) p m in
  match n with
  | Leaf _ _ => m1
  | Container _ _ cs => walk_children (fun q c acc => walk q c acc) p cs 0 m1
  end.

(** [buildExistingMap()] on the current page. *)
Definition buildExistingMap (pg : list node) : gmap string (list path) :=
  walk_children walk [] pg 0 ∅.

(* ===================================================================== *)
(** ** Placement of new cards *)
(* ===================================================================== *)

(** [getNextAvailableY()] *)
Definition getNextAvailableY (pg : list node) : Z :=
  let maxY :=
    fold_left (fun maxY child =>
                 let bottom := (y (attrs_of child) + height (attrs_of child))%Z in
                 if (bottom >? maxY)%Z then bottom else maxY)
              pg 0%Z in
  if (maxY >? 0)%Z then (maxY + CARD_GAP * 2)%Z else 0%Z.

(** Column, row and coordinates of the card created when the running
    counter is [newIndex]. *)
Definition grid_col (newIndex : nat) : nat := newIndex mod CARDS_PER_ROW.
Definition grid_row (newIndex : nat) : nat := newIndex / CARDS_PER_ROW.

Definition grid_x (cardWidth : Z) (newIndex : nat) : Z :=
  (Z.of_nat (grid_col newIndex) * (cardWidth + CARD_GAP))%Z.

Definition grid_y (startY cardHeight : Z) (newIndex : nat) : Z :=
  (startY + Z.of_nat (grid_row newIndex) * (cardHeight + CARD_GAP))%Z.

(* ===================================================================== *)
(** ** The [sync-mapped-data] handler *)
(* ===================================================================== *)

(** The node a message names: a node of the current page, by reference, or
    a node that lives on another page. *)
Inductive node_ref : Type :=
| InPage (p : path)
| Elsewhere (n : node).

Definition deref (pg : list node) (r : node_ref) : option node :=
  match r with
  | InPage p => page_at p pg
  | Elsewhere n => Some n
  end.

Inductive error_text : Type :=
| ErrNoData          (* '未收到有效數據' *)
| ErrNoMappings      (* '未設定任何映射規則' *)
| ErrTemplateGone    (* '找不到來源 Template，可能已刪除' *)
| ErrSyncFailed.     (* `同步失敗: ${errorMessage}` *)

Inductive ui_message : Type :=
| MsgError (e : error_text)
| StatusReceived (n : nat)          (* `收到 ${n} 條數據，正在加載字型...` *)
| StatusScanning                    (* '正在掃描畫布上的現有 Instance...' *)
| StatusFound (existingCount : nat) (* `找到 ${n} 個現有 Instance，開始同步...` *)
| StatusProgress (i n : nat)        (* `同步進度: ${i}/${n}` *)
| MsgDone (created updated : nat).  (* `同步完成！新增 ${c} 個、更新 ${u} 個 Instance` *)

Record SyncMessage : Type := mkSyncMessage {
  componentId : string;
  templateId : option string;
  data : option (list (gmap string jsval));
  mappings : option (list FieldMapping);
  idField : option string
}.

(** What the handler holds while it runs: the page, the index (a mutable
    [Map] object), its counters, the touched nodes and the messages posted
    so far. *)
Record sync_state : Type := mkState {
  page : list node;
  existingMap : gmap string (list path);
  newIndex : nat;
  updatedCount : nat;
  createdCount : nat;
  affectedNodes : list path;
  posted : list ui_message
}.

Inductive completion : Type :=
| Normal (st : sync_state)
| Thrown (st : sync_state).

Definition post (m : ui_message) (st : sync_state) : sync_state :=
  mkState (page st) (existingMap st) (newIndex st) (updatedCount st)
          (createdCount st) (affectedNodes st) (posted st ++ [m]).

(** [String(record[idField] || `row-${i}`)].  A message without [idField]
    reads the property named ["undefined"]. *)
Definition recordId (record : gmap string jsval) (idField : option string)
    (i : nat) : string :=
  match record !! default "undefined" idField with
  | Some v => if truthy v then js_String v else ("row-" ++ pretty i)%string
  | None => ("row-" ++ pretty i)%string
  end.

(** [templateNode.createInstance()] and [templateNode.clone()]: the copy
    has the sublayers and the attributes of its source. *)
Definition createInstance (templateNode : node) : node :=
  Container INSTANCE (attrs_of templateNode) (children_of templateNode).

Definition clone (templateNode : node) : node := templateNode.

Section Pass.
Variable msg_componentId : string.
Variable msg_mappings : list FieldMapping.
Variable msg_idField : option string.
Variable templateNode : node_ref.
Variable data_length : nat.
Variables startY cardWidth cardHeight : Z.

(** One turn of [for (const existingNode of existingNodes)]. *)
Definition update_existing (record : gmap string jsval) (st : sync_state)
    (existingNode : path) : sync_state :=
  mkState (page_alter (fun n => default n (updateInstance n record msg_mappings))
                      existingNode (page st))
          (existingMap st) (newIndex st) (S (updatedCount st))
          (createdCount st) (affectedNodes st ++ [existingNode]) (posted st).

(** The insert branch. *)
Definition insert_new (record : gmap string jsval) (key : string)
    (st : sync_state) : completion :=
  match deref (page st) templateNode with
  | None => Thrown st
  | Some tpl =>
      let px := grid_x cardWidth (newIndex st) in
      let py := grid_y startY cardHeight (newIndex st) in
      let instance := if is_component tpl then createInstance tpl else clone tpl in
      let placed :=
        map_attrs (set_sourceComponentId msg_componentId)
          (map_attrs (set_notionId key)
             (map_attrs (set_position px py) instance)) in
      let here := [length (page st)] in
      match fillInstanceData placed record msg_mappings with
      | None =>
          Thrown (mkState (page st ++ [placed]) (existingMap st) (newIndex st)
                          (updatedCount st) (createdCount st)
                          (affectedNodes st) (posted st))
      | Some filled =>
          Normal (mkState (page st ++ [filled]) (existingMap st)
                          (S (newIndex st)) (updatedCount st)
                          (S (createdCount st))
                          (affectedNodes st ++ [here]) (posted st))
      end
  end.

(** The body of the loop over the records, for the record at position
    [i]. *)
Definition sync_record (i : nat) (record : gmap string jsval)
    (st : sync_state) : completion :=
  let key := recordId record msg_idField i in
  let done :=
    match existingMap st !! key with
    | Some (existingNode :: more) =>
        Normal (fold_left (update_existing record) (existingNode :: more) st)
    | _ => insert_new record key st
    end in
  match done with
  | Normal st' => Normal (post (StatusProgress (S i) data_length) st')
  | Thrown st' => Thrown st'
  end.

Fixpoint sync_loop (records : list (gmap string jsval)) (i : nat)
    (st : sync_state) : completion :=
  match records with
  | [] => Normal st
  | record :: rest =>
      match sync_record i record st with
      | Normal st' => sync_loop rest (S i) st'
      | Thrown st' => Thrown st'
      end
  end.
End Pass.

(** [templateId || componentId] *)
Definition targetSourceId (msg : SyncMessage) : string :=
  match templateId msg with
  | Some t => if String.eqb t "" then componentId msg else t
  | None => componentId msg
  end.

(** In the handler below every node has a width and a height, so the
    fallback [100] of [cardWidth] and [cardHeight] is never taken. *)
Section Handler.
(** The host's [figma.getNodeByIdAsync]. *)
Variable getNodeByIdAsync : string -> option node_ref.

Definition idle (pg : list node) (m : ui_message) : sync_state :=
  mkState pg ∅ 0 0 0 [] [m].

Definition sync_mapped_data (msg : SyncMessage) (pg : list node) : sync_state :=
  match data msg with
  | None | Some [] => idle pg (MsgError ErrNoData)
  | Some records =>
      match mappings msg with
      | None | Some [] => idle pg (MsgError ErrNoMappings)
      | Some maps =>
          match getNodeByIdAsync (targetSourceId msg) with
          | None => idle pg (MsgError ErrTemplateGone)
          | Some templateNode =>
              match deref pg templateNode with
              | None => idle pg (MsgError ErrTemplateGone)
              | Some tpl =>
                  let index := buildExistingMap pg in
                  let st0 :=
                    mkState pg index 0 0 0 []
                      [StatusReceived (length records); StatusScanning;
                       StatusFound (size index)] in
                  match sync_loop (componentId msg) maps (idField msg)
                          templateNode (length records)
                          (getNextAvailableY pg)
                          (width (attrs_of tpl)) (height (attrs_of tpl))
                          records 0 st0 with
                  | Normal st =>
                      post (MsgDone (createdCount st) (updatedCount st)) st
                  | Thrown st => post (MsgError ErrSyncFailed) st
                  end
              end
          end
      end
  end.
End Handler.

(* ===================================================================== *)
(** ** Reference readings of the specification *)
(* ===================================================================== *)






(* ===================================================================== *)
(** ** What a pass leaves alone *)
(* ===================================================================== *)

(** The part of a node that the field applier never writes: its name, its
    two tags, its position and size.  [erase] blanks the rest. *)
Definition erase (a : attrs) : attrs :=
  mkAttrs (name a) (notionId a) (sourceComponentId a) (x a) (y a) (width a)
          (height a) true "" (0, 0, NONE).

(** The tree with every node erased: the parent-child structure, the node
    types and the attributes kept by [erase]. *)
Fixpoint skeleton (n : node) : node :=
  match n with
  | Leaf t a => Leaf t (erase a)
  | Container t a cs => Container t (erase a) (map skeleton cs)
  end.

Section ListNodes.
Variable visit : path -> node -> list (path * node).

Fixpoint list_children (p : path) (cs : list node) (i : nat)
    : list (path * node) :=
  match cs with
  | [] => []
  | child :: rest => visit (p ++ [i]) child ++ list_children p rest (S i)
  end.
End ListNodes.

(** The nodes at and below [n], parents first, each with its reference,
    [p] being the reference of [n]. *)
Fixpoint nodes_under (p : path) (n : node) : list (path * node) :=
  (p, n) :: match n with
            | Leaf _ _ => []
            | Container _ _ cs =>
                list_children (fun q c => nodes_under q c) p cs 0
            end.

(** All the nodes of a page, children of position [i] onwards. *)
Definition nodes_from (i : nat) (pg : list node) : list (path * node) :=
  list_children nodes_under [] pg i.

Definition all_nodes (pg : list node) : list (path * node) := nodes_from 0 pg.

(** The references of the nodes tagged with the identifier [key], in
    document order. *)
Definition tagged_in (key : string) (l : list (path * node)) : list path :=
  map fst (filter (fun qc => notionId (attrs_of qc.2) = key) l).

Definition tagged (key : string) (pg : list node) : list path :=
  tagged_in key (all_nodes pg).

(* ===================================================================== *)
(** ** Vocabulary for statements about a pass *)
(* ===================================================================== *)

(** The processing keys of a batch, the first record being at position
    [i]. *)
Fixpoint keys_from (idField : option string) (i : nat)
    (records : list (gmap string jsval)) : list string :=
  match records with
  | [] => []
  | record :: rest => recordId record idField i :: keys_from idField (S i) rest
  end.

(** The elements an index holds for a key. *)
Definition hits (index : gmap string (list path)) (key : string) : list path :=
  default [] (index !! key).

Definition is_hit (index : gmap string (list path)) (key : string) : bool :=
  match hits index key with [] => false | _ :: _ => true end.

(** The keys of a batch that find nothing in the index. *)
Definition misses (index : gmap string (list path)) (keys : list string)
    : list string :=
  List.filter (fun key => negb (is_hit index key)) keys.

(** The progress notifications for records [1] to [k] of [n]. *)
Definition progress_upto (k n : nat) : list ui_message :=
  map (fun i => StatusProgress (S i) n) (seq 0 k).

(** Two boxes, given by their positions and sizes, share some area. *)
Definition overlap (a b : attrs) : Prop :=
  (x a < x b + width b /\ x b < x a + width a
   /\ y a < y b + height b /\ y b < y a + height a)%Z.

(** The largest bottom edge among the nodes of a non-empty list. *)
Definition max_bottom (first : node) (others : list node) : Z :=
  fold_right (fun c m => Z.max (y (attrs_of c) + height (attrs_of c)) m)
             (y (attrs_of first) + height (attrs_of first))%Z others.

(** The copy of the template made for a new card: instantiated or cloned,
    then positioned and tagged, before its fields are filled. *)
Definition instance_of (tpl : node) : node :=
  if is_component tpl then createInstance tpl else clone tpl.

Definition placed_card (componentId : string) (startY cardWidth cardHeight : Z)
    (tpl : node) (newIndex : nat) (key : string) : node :=
  map_attrs (set_sourceComponentId componentId)
    (map_attrs (set_notionId key)
       (map_attrs (set_position (grid_x cardWidth newIndex)
                                (grid_y startY cardHeight newIndex))
          (instance_of tpl))).

(** [updateInstance] as the in-place change it makes to a node. *)
Definition updated (mappings : list FieldMapping) (record : gmap string jsval)
    (n : node) : node :=
  default n (updateInstance n record mappings).

(** The key read as the specification words it: the placeholder stands in only for
    an identifier that is absent ([undefined], [null]) or empty. *)
Definition recordId_absent_or_empty (record : gmap string jsval)
    (idField : option string) (i : nat) : string :=
  match record !! default "undefined" idField with
  | None | Some VNull | Some (VStr "") => ("row-" ++ pretty i)%string
  | Some v => js_String v
  end.

(** The values for which [||] takes its right-hand side. *)
Definition falsy_values : list jsval := [VNull; VStr ""; VNum 0; VBool false].

(* ===================================================================== *)
(** ** Sample documents *)
(* ===================================================================== *)

Definition layer (nm : string) : attrs :=
  mkAttrs nm "" "" 0 0 100 50 true "" (0, 0, NONE).

(** A card template: a title, and a badge frame holding a note. *)
Definition sample_card : node :=
  Container FRAME (layer "Card")
    [Leaf TEXT (layer "#title");
     Container FRAME (layer "#badge") [Leaf TEXT (layer "#note")]].

Definition sample_rules : list FieldMapping :=
  [mkMapping "#title" "title" false; mkMapping "#badge" "flag" false].

Definition sample_host (id : string) : option node_ref :=
  if String.eqb id "tpl" then Some (Elsewhere sample_card) else None.

Definition record_a1 : gmap string jsval :=
  {[ "id" := VStr "a"; "title" := VStr "Hello"; "flag" := VBool false ]}.

Definition record_a2 : gmap string jsval :=
  {[ "id" := VStr "a"; "title" := VStr "World" ]}.

Definition record_b : gmap string jsval :=
  {[ "id" := VStr "b"; "title" := VStr "Other" ]}.

Definition sample_message (records : list (gmap string jsval)) : SyncMessage :=
  mkSyncMessage "tpl" None (Some records) (Some sample_rules) (Some "id").

(** An off-page position: a node that lies wholly above the origin. *)
Definition node_above : node :=
  Leaf RECTANGLE (mkAttrs "Backdrop" "" "" 0 (-500) 300 100 true "" (0, 0, NONE)).

(** Two cards made earlier for the identifier "abc", moved by hand since. *)
Definition tagged_card (id : string) (px py : Z) : node :=
  map_attrs (set_notionId id) (map_attrs (set_position px py) sample_card).

Definition page_abc : list node :=
  [tagged_card "abc" 300 40; tagged_card "abc" 10 700].

Definition record_abc : gmap string jsval :=
  {[ "id" := VStr "abc"; "title" := VStr "Fresh"; "flag" := VStr "yes" ]}.

(* ===================================================================== *)
(** ** The field applier as a sequence of writes *)
(* ===================================================================== *)

(** The two assignments the field applier makes to a sublayer:
    [targetNode.visible = b], and the pair [characters] / list styling set
    by [parseAndApplyListStyle]. *)
Inductive write : Type :=
| SetVisible (b : bool)
| SetText (rawValue : string).

Definition apply_write (w : write) : attrs -> attrs :=
  match w with
  | SetVisible b => set_visible b
  | SetText s => parseAndApplyListStyle s
  end.

Definition same_field (w w' : write) : bool :=
  match w, w' with
  | SetVisible _, SetVisible _ => true
  | SetText _, SetText _ => true
  | _, _ => false
  end.

(** A write at a node, addressed from a node or from the page. *)
Definition node_write (a : path * write) (n : node) : node :=
  alter_at (map_attrs (apply_write a.2)) a.1 n.

Definition node_writes (ws : list (path * write)) (n : node) : node :=
  fold_left (fun n a => node_write a n) ws n.

Definition page_write (a : path * write) (pg : list node) : list node :=
  page_alter (map_attrs (apply_write a.2)) a.1 pg.

Definition page_writes (ws : list (path * write)) (pg : list node) : list node :=
  fold_left (fun pg a => page_write a pg) ws pg.

(** The writes one mapping rule makes on an instance. *)
Definition mapping_writes (record : gmap string jsval) (instance : node)
    (mapping : FieldMapping) : list (path * write) :=
  match findChildByName instance (layerName mapping) with
  | None => []
  | Some target =>
      match record !! dataField mapping with
      | None | Some VNull => []
      | Some value =>
          let isVisible := parseBoolean value in
          (target, SetVisible isVisible)
          :: (if negb isVisible then []
              else if from_option is_text false (node_at target instance) then
                match value with
                | VBool _ => []
                | _ => [(target, SetText (js_String value))]
                end
              else [])
      end
  end.

(** The writes of [updateInstance] on a node. *)
Definition update_writes (mappings : list FieldMapping)
    (record : gmap string jsval) (n : node) : list (path * write) :=
  match n with
  | Leaf _ _ => []
  | Container _ _ _ => flat_map (mapping_writes record n) mappings
  end.

Definition under (q : path) (a : path * write) : path * write := (q ++ a.1, a.2).

(** The writes of the update branch for one record, [qs] being the
    elements it matched. *)
Definition step_writes (mappings : list FieldMapping)
    (record : gmap string jsval) (qs : list path) (pg : list node)
    : list (path * write) :=
  flat_map (fun q => match page_at q pg with
                     | Some n => map (under q) (update_writes mappings record n)
                     | None => []
                     end) qs.

(** The update branch for one record, and for a sequence of records each
    with the elements it matched. *)
Definition page_updates (mappings : list FieldMapping)
    (record : gmap string jsval) (qs : list path) (pg : list node) : list node :=
  fold_left (fun pg q => page_alter (updated mappings record) q pg) qs pg.

Definition replay (mappings : list FieldMapping)
    (steps : list (gmap string jsval * list path)) (pg : list node) : list node :=
  fold_left (fun pg s => page_updates mappings s.1 s.2 pg) steps pg.

Definition steps_writes (mappings : list FieldMapping)
    (steps : list (gmap string jsval * list path)) (pg : list node)
    : list (path * write) :=
  flat_map (fun s => step_writes mappings s.1 s.2 pg) steps.

(** The records of a batch with their processing keys. *)
Fixpoint keyed (idField : option string) (i : nat)
    (records : list (gmap string jsval)) : list (gmap string jsval * string) :=
  match records with
  | [] => []
  | record :: rest => (record, recordId record idField i) :: keyed idField (S i) rest
  end.

(** Each record with the elements that carry its key on the page [pg]. *)
Definition steps_of (pairs : list (gmap string jsval * string)) (pg : list node)
    : list (gmap string jsval * list path) :=
  map (fun rk => (rk.1, tagged rk.2 pg)) pairs.

(* ===================================================================== *)
(** ** Vocabulary of the proofs *)
(* ===================================================================== *)


(** One step of the walk that builds the index. *)
Definition index_step (m : gmap string (list path)) (qc : path * node)
    : gmap string (list path) :=
  index_add (notionId (attrs_of qc.2)) qc.1 m.

(** What holds after the records [done] have been processed. *)
Definition pass_inv (cid : string) (idf : option string) (n : nat)
    (startY w h : Z) (pg : list node) (tpl : node)
    (idx : gmap string (list path)) (posted0 : list ui_message)
    (done : list (gmap string jsval)) (st : sync_state) : Prop :=
  let keys := keys_from idf 0 done in
  existingMap st = idx
  /\ newIndex st = length (misses idx keys)
  /\ createdCount st = length (misses idx keys)
  /\ updatedCount st = sum_list (map (fun k => length (hits idx k)) keys)
  /\ posted st = posted0 ++ progress_upto (length done) n
  /\ map skeleton (page st)
     = map skeleton pg
       ++ imap (fun k key => skeleton (placed_card cid startY w h tpl k key))
               (misses idx keys).

(** What holds when a record raised. *)
Definition pass_aborted (ms : list FieldMapping) (n : nat) (pg : list node)
    (tpl : node) (idx : gmap string (list path)) (posted0 : list ui_message)
    (st : sync_state) : Prop :=
  existingMap st = idx
  /\ (exists k, posted st = posted0 ++ progress_upto k n)
  /\ (exists extra, map skeleton (page st) = map skeleton pg ++ extra)
  /\ ms <> [] /\ exists t a, tpl = Leaf t a.

(** The state in which the loop starts. *)
Definition start_state (pg : list node) (records : list (gmap string jsval))
    : sync_state :=
  mkState pg (buildExistingMap pg) 0 0 0 []
    [StatusReceived (length records); StatusScanning;
     StatusFound (size (buildExistingMap pg))].

Definition run_loop (msg : SyncMessage) (pg : list node)
    (records : list (gmap string jsval)) (maps : list FieldMapping)
    (tref : node_ref) (tpl : node) : completion :=
  sync_loop (componentId msg) maps (idField msg) tref (length records)
    (getNextAvailableY pg) (width (attrs_of tpl)) (height (attrs_of tpl))
    records 0 (start_state pg records).

(** The bottom edge of a node, and the step of the scan for the largest
    one. *)
Definition bottom (c : node) : Z := (y (attrs_of c) + height (attrs_of c))%Z.

Definition scan_bottom (maxY : Z) (child : node) : Z :=
  if (bottom child >? maxY)%Z then bottom child else maxY.

(** A page is settled for a sequence of writes when making them changes
    nothing. *)
Definition settled (ws : list (path * write)) (pg : list node) : Prop :=
  page_writes ws pg = pg.

(** A write that addresses one of the first [len] top-level nodes. *)
Definition in_range (len : nat) (a : path * write) : Prop :=
  match a.1 with [] => True | i :: _ => i < len end.

(** After the records [done]: replaying the update branch for each of
    them, on the elements that now carry its key, changes nothing; keys
    not yet seen are carried by the nodes that carried them at the start;
    every key seen is carried by some node. *)
Definition idem_inv (cid : string) (ms : list FieldMapping)
    (idf : option string) (n : nat) (startY w h : Z) (pg : list node)
    (tpl : node) (posted0 : list ui_message) (allkeys : list string)
    (done : list (gmap string jsval)) (st : sync_state) : Prop :=
  pass_inv cid idf n startY w h pg tpl (buildExistingMap pg) posted0 done st
  /\ replay ms (steps_of (keyed idf 0 done) (page st)) (page st) = page st
  /\ (forall key, key ∈ allkeys -> key ∉ keys_from idf 0 done ->
                  tagged key (page st) = tagged key pg)
  /\ (forall key, key ∈ keys_from idf 0 done -> tagged key (page st) <> []).

(* ===================================================================== *)
(** ** Mappable layers and the mapping identifier *)
(* ===================================================================== *)

(** [node.type] *)
Inductive node_type : Type :=
| LeafType (t : leaf_type)
| ContainerType (t : container_type).

Definition type_of (n : node) : node_type :=
  match n with
  | Leaf t _ => LeafType t
  | Container t _ _ => ContainerType t
  end.

(** [s.includes(c)] for a one-character needle. *)
Fixpoint includes_char (c : ascii) (s : string) : bool :=
  match s with
  | EmptyString => false
  | String d r => Ascii.eqb d c || includes_char c r
  end.

Definition is_mappable (layerName : string) : bool := includes_char "#" layerName.

Record layer_info : Type := mkLayer {
  layer_name : string;
  layer_type : node_type;
  layer_path : string
}.

(** [prefix ? `${prefix}/${node.name}` : node.name] *)
Definition full_path (prefix nodeName : string) : string :=
  if String.eqb prefix "" then nodeName else (prefix ++ "/" ++ nodeName)%string.

(** [collectLayers(node, prefix)] *)
Fixpoint collectLayers (n : node) (prefix : string) : list layer_info :=
  let fullPath := full_path prefix (name (attrs_of n)) in
  (if is_mappable (name (attrs_of n))
   then [mkLayer (name (attrs_of n)) (type_of n) fullPath] else [])
  ++ match n with
     | Leaf _ _ => []
     | Container _ _ cs => flat_map (fun child => collectLayers child fullPath) cs
     end.

(** What [getMappingId] reads of a node: its identifier, its type, and the
    type and identifier of its parent (the parent of a top-level node is
    the page). *)
Inductive parent_type : Type :=
| PAGE
| ParentNode (t : container_type).

Record node_view : Type := mkView {
  view_id : string;
  view_type : node_type;
  view_parent : option (parent_type * string)
}.

(** [getMappingId(node)], [mainComponent] being what the host answers for
    [node.mainComponent] when the node is an instance. *)
Definition getMappingId (n : node_view) (mainComponent : option node_view) : string :=
  let target :=
    match view_type n with
    | ContainerType INSTANCE => default n mainComponent
    | _ => n
    end in
  match view_type target with
  | ContainerType COMPONENT =>
      match view_parent target with
      | Some (ParentNode COMPONENT_SET, setId) => setId
      | _ => view_id target
      end
  | _ => view_id target
  end.

(* ===================================================================== *)
(** ** Tools that work on the selection *)
(* ===================================================================== *)

(** [node.getPluginData(PLUGIN_DATA_KEY)] for a node of the page. *)
Definition tag_at (pg : list node) (q : path) : string :=
  from_option (fun c => notionId (attrs_of c)) "" (page_at q pg).

Inductive tool_error : Type :=
| ErrNothingSelected     (* '请先选中一个 Instance' / '請先選取至少一個物件' *)
| ErrNoNotionId          (* '该节点没有 Notion ID…' / '選中的物件中沒有可同步的數據' *)
| ErrInvalidId           (* '请输入有效的 ID' *)
| ErrTemplateMissing.    (* 'Template 不存在' *)

Inductive tool_reply : Type :=
| ToolError (e : tool_error)
| InstanceIdInfo (currentId nodeName : string)     (* 'instance-id-info' *)
| IdUpdated (oldId newId : string)                 (* 'id-updated' *)
| SyncSelectedDone (updatedCount : nat) (updatedNotionIds : list string)
                   (totalCount : nat).             (* 'sync-selected-done' *)


(** The [update-instance-id] handler; [newId] is [None] when the message
    has no such field. *)
Definition update_instance_id (selection : list path) (newId : option string)
    (pg : list node) : list node * tool_reply :=
  match selection with
  | [] => (pg, ToolError ErrNothingSelected)
  | node :: _ =>
      match newId with
      | None => (pg, ToolError ErrInvalidId)
      | Some s =>
          if String.eqb s "" || String.eqb (Str.trim s) ""
          then (pg, ToolError ErrInvalidId)
          else
            let oldId := tag_at pg node in
            (page_alter (map_attrs (set_notionId (Str.trim s))) node pg,
             IdUpdated oldId (Str.trim s))
      end
  end.

(** The fields [sync-selected] reads of its message; [mappings] and
    [notionData] are arrays. *)
Record SyncSelectedMessage : Type := mkSyncSelected {
  selected_componentId : string;
  selected_mappings : list FieldMapping;
  selected_idField : option string;
  notionData : list (gmap string jsval)
}.

(** [String(item[idField] || '')] *)
Definition selected_key (item : gmap string jsval) (idField : option string)
    : string :=
  match item !! default "undefined" idField with
  | Some v => if truthy v then js_String v else ""
  | None => ""
  end.

(** What the loop of [sync-selected] holds. *)
Record selected_state : Type := mkSelected {
  selected_page : list node;
  selected_count : nat;
  selected_ids : list string
}.

(** One turn of [for (const node of nodesWithId)]. *)
Definition sync_selected_node (msg : SyncSelectedMessage) (st : selected_state)
    (node : path) : selected_state :=
  let notionId := tag_at (selected_page st) node in
  match List.find (fun item => String.eqb (selected_key item (selected_idField msg)) notionId)
                  (notionData msg) with
  | Some record =>
      mkSelected (page_alter (updated (selected_mappings msg) record) node
                             (selected_page st))
                 (S (selected_count st)) (selected_ids st ++ [notionId])
  | None => st
  end.

(** The [sync-selected] handler. *)
Definition sync_selected (getNodeByIdAsync : string -> option node_ref)
    (selection : list path) (msg : SyncSelectedMessage) (pg : list node)
    : list node * tool_reply :=
  match selection with
  | [] => (pg, ToolError ErrNothingSelected)
  | _ :: _ =>
      let nodesWithId :=
        List.filter (fun node => negb (String.eqb (tag_at pg node) "")) selection in
      match nodesWithId with
      | [] => (pg, ToolError ErrNoNotionId)
      | _ :: _ =>
          match getNodeByIdAsync (selected_componentId msg) ≫= deref pg with
          | None => (pg, ToolError ErrTemplateMissing)
          | Some _ =>
              let st := fold_left (sync_selected_node msg) nodesWithId
                                  (mkSelected pg 0 []) in
              (selected_page st,
               SyncSelectedDone (selected_count st) (selected_ids st)
                                (length nodesWithId))
          end
      end
  end.

(* ===================================================================== *)
(** ** Vocabulary for the further properties *)
(* ===================================================================== *)

(** The references of the nodes that bear a name, in document order. *)
Definition named_in (nm : string) (l : list (path * node)) : list path :=
  map fst (filter (fun qc => name (attrs_of qc.2) = nm) l).

(** The nodes strictly below [parent] that bear the name, by their paths
    from [parent]. *)
Definition named_below (nm : string) (parent : node) : list path :=
  named_in nm (all_nodes (children_of parent)).

(** The non-empty identifier tags found on a page, one per tagged node. *)
Definition tags_on (pg : list node) : list string :=
  List.filter (fun id => negb (String.eqb id ""))
              (map (fun qc => notionId (attrs_of qc.2)) (all_nodes pg)).

(** What [collectLayers] reports of a node, and the test it applies. *)
Definition layer_key (l : layer_info) : string * node_type :=
  (layer_name l, layer_type l).

Definition node_key (qc : path * node) : string * node_type :=
  (name (attrs_of qc.2), type_of qc.2).

Definition mappable_node (qc : path * node) : bool :=
  is_mappable (name (attrs_of qc.2)).


(** A record that [sync-selected] can match: its identifier field is
    truthy, so that [String(item[idField] || '')] is not empty. *)
Definition has_identifier (idField : option string) (item : gmap string jsval)
    : bool :=
  negb (String.eqb (selected_key item idField) "").

(** The same message with other records. *)
Definition with_notionData (msg : SyncSelectedMessage)
    (records : list (gmap string jsval)) : SyncSelectedMessage :=
  mkSyncSelected (selected_componentId msg) (selected_mappings msg)
                 (selected_idField msg) records.

(* ===================================================================== *)
(** ** The tools that read a template *)
(* ===================================================================== *)

(** The document as these tools see it: the top-level nodes of its pages,
    the identifier of every node and of the page, the main component of
    an instance, and the node the host finds under an identifier.  Nodes
    are referred to by their paths. *)
Record document : Type := mkDocument {
  scene : list node;
  node_id : path -> string;              (* node.id *)
  page_id : string;
  mainComponent : path -> option path;   (* instance.mainComponent *)
  nodeById : string -> option path       (* figma.getNodeByIdAsync(id) *)
}.

(** A reference the host hands out, with the node it leads to. *)
Definition resolve (doc : document) (q : path) : option (path * node) :=
  (fun n => (q, n)) <$> page_at q (scene doc).

Definition getMainComponentAsync (doc : document) (q : path)
    : option (path * node) :=
  mainComponent doc q ≫= resolve doc.

Definition figma_getNodeByIdAsync (doc : document) (id : string)
    : option (path * node) :=
  nodeById doc id ≫= resolve doc.

(** [node.parent], as far as [getMappingId] reads it. *)
Definition parent_of (doc : document) (q : path) : option (parent_type * string) :=
  match removelast q with
  | [] => Some (PAGE, page_id doc)
  | p =>
      match page_at p (scene doc) with
      | Some (Container t _ _) => Some (ParentNode t, node_id doc p)
      | _ => None
      end
  end.

Definition view_of (doc : document) (qn : path * node) : node_view :=
  mkView (node_id doc qn.1) (type_of qn.2) (parent_of doc qn.1).

(** [getMappingId(node)] for a node of the document. *)
Definition mappingId_of (doc : document) (qn : path * node) : string :=
  getMappingId (view_of doc qn) (view_of doc <$> getMainComponentAsync doc qn.1).

Inductive template_error : Type :=
| ErrSelectComponent             (* '請先在畫布上選擇一個 Component' *)
| ErrNotTemplate (t : node_type) (* '選擇的是 ${selected.type}，請選擇 …' *)
| ErrReadFailed                  (* '讀取 Component 失敗: …' *)
| ErrTemplateUnusable                (* 'Template 節點不存在或類型不符' *)
| ErrRestoreFailed               (* 'Component 恢复失败' *)
| ErrSelectInstance              (* '请先选中一个 Instance' *)
| ErrNoTemplate                  (* '無法從選取項找到有效的 Template …' *)
| ErrLoadFailed.                 (* '加载失败，请重试' *)

Inductive template_reply : Type :=
| TemplateError (e : template_error)
| ComponentLayers (componentId actualTemplateId componentName : string)
                  (layers : list layer_info)          (* 'component-layers' *)
| ComponentData (componentName componentId : string)
                (actualTemplateId : option string)
                (layers : list layer_info)
                (fromSelection : bool).               (* 'component-data' *)

(** The [get-component-layers] handler.  A selection holds nodes of the
    document; a reference that leads nowhere is answered like an
    exception. *)
Definition get_component_layers (doc : document) (selection : list path)
    : template_reply :=
  match selection with
  | [] => TemplateError ErrSelectComponent
  | selected :: _ =>
      match page_at selected (scene doc) with
      | None => TemplateError ErrReadFailed
      | Some n =>
          let component : option (path * node) :=
            match type_of n with
            | ContainerType COMPONENT => Some (selected, n)
            | ContainerType INSTANCE => getMainComponentAsync doc selected
            | ContainerType COMPONENT_SET =>
                match children_of n with
                | [] => None
                | first :: _ => Some (selected ++ [0], first)
                end
            | ContainerType FRAME | ContainerType GROUP => Some (selected, n)
            | _ => None
            end in
          match component with
          | None => TemplateError (ErrNotTemplate (type_of n))
          | Some c =>
              ComponentLayers (mappingId_of doc c) (node_id doc c.1)
                              (name (attrs_of c.2)) (collectLayers c.2 "")
          end
      end
  end.

(** The [restore-component] handler.  [children[0]] of a component set
    without children is [undefined], on which [collectLayers] throws. *)
Definition restore_component (doc : document) (componentId : string)
    : template_reply :=
  match figma_getNodeByIdAsync doc componentId with
  | None => TemplateError ErrTemplateUnusable
  | Some (q, node) =>
      match type_of node with
      | ContainerType COMPONENT | ContainerType FRAME | ContainerType GROUP =>
          ComponentData (name (attrs_of node)) (node_id doc q) None
                        (collectLayers node "") false
      | ContainerType COMPONENT_SET =>
          match children_of node with
          | [] => TemplateError ErrRestoreFailed
          | templateNode :: _ =>
              ComponentData (name (attrs_of node)) (node_id doc q) None
                            (collectLayers templateNode "") false
          end
      | _ => TemplateError ErrTemplateUnusable
      end
  end.

(** The [load-from-selection] handler. *)
Definition load_from_selection (doc : document) (selected : list path)
    : template_reply :=
  match selected with
  | [] => TemplateError ErrSelectInstance
  | node :: _ =>
      match page_at node (scene doc) with
      | None => TemplateError ErrLoadFailed
      | Some n =>
          let found :=
            match type_of n with
            | ContainerType INSTANCE =>
                let template := getMainComponentAsync doc node in
                (template, from_option (mappingId_of doc) "" template)
            | ContainerType FRAME | ContainerType GROUP =>
                let recoveredId := sourceComponentId (attrs_of n) in
                let recoveredNode :=
                  if String.eqb recoveredId "" then None
                  else figma_getNodeByIdAsync doc recoveredId in
                match recoveredNode with
                | Some r =>
                    (Some r,
                     match type_of r.2 with
                     | ContainerType COMPONENT => mappingId_of doc r
                     | _ => recoveredId
                     end)
                | None => (Some (node, n), node_id doc node)
                end
            | _ => (None, "")
            end in
          match found with
          | (None, _) => TemplateError ErrNoTemplate
          | (Some template, mappingId) =>
              if String.eqb mappingId "" then TemplateError ErrNoTemplate
              else ComponentData (name (attrs_of template.2)) mappingId
                                 (Some (node_id doc template.1))
                                 (collectLayers template.2 "") true
          end
      end
  end.

(** A document with a component set of two variants and an instance of
    the second one. *)
Definition sample_variant (nm layerNm : string) : node :=
  Container COMPONENT (layer nm) [Leaf TEXT (layer layerNm)].

Definition sample_ids : list (string * path) :=
  [("1:1", [0]); ("1:2", [0; 0]); ("1:3", [0; 0; 0]); ("1:4", [0; 1]);
   ("1:5", [0; 1; 0]); ("2:1", [1]); ("2:2", [1; 0])].

Definition sample_document : document :=
  mkDocument
    [Container COMPONENT_SET (layer "Card")
       [sample_variant "Style=A" "#title"; sample_variant "Style=B" "#subtitle"];
     Container INSTANCE (layer "Style=B") [Leaf TEXT (layer "#subtitle")]]
    (fun q => from_option fst "" (List.find (fun e => bool_decide (e.2 = q)) sample_ids))
    "0:1"
    (fun q => if bool_decide (q = [1]) then Some [0; 1] else None)
    (fun id => snd <$> List.find (fun e => String.eqb e.1 id) sample_ids).

(** The page after a first sync of one record into an empty page, as a
    document in which the template's identifier no longer resolves. *)
Definition sample_document_after : document :=
  mkDocument (page (sync_mapped_data sample_host (sample_message [record_b]) []))
             (fun _ => "9:1") "0:1" (fun _ => None) (fun _ => None).
(* ===================================================================== *)
(** ** Boolean coercion *)
(* ===================================================================== *)






(* ===================================================================== *)
(** ** Ordered-list detection *)
(* ===================================================================== *)

Section DropWhile.
Variable p : ascii -> bool.



End DropWhile.







(* ===================================================================== *)
(** ** Trees, paths and skeletons *)
(* ===================================================================== *)

Lemma node_ind' (P : node -> Prop) :
  (forall t a, P (Leaf t a)) ->
  (forall t a cs, Forall P cs -> P (Container t a cs)) ->
  forall n, P n.
Proof.
  intros HL HC. fix IH 1. intros [t a | t a cs]; [apply HL |].
  apply HC. induction cs as [| c cs IHcs]; constructor; [apply IH | exact IHcs].
Qed.

Lemma map_alter_absorb {A B : Type} (f : A -> B) (g : A -> A) (i : nat) (l : list A) :
  (forall c, l !! i = Some c -> f (g c) = f c) ->
  map f (alter g i l) = map f l.
Proof.
  revert i. induction l as [| c l IH]; intros [| i] H; simpl; try reflexivity.
  - f_equal. apply H. reflexivity.
  - f_equal. apply IH. exact H.
Qed.

Lemma alter_ext_at {A : Type} (f g : A -> A) (i : nat) (l : list A) :
  (forall c, l !! i = Some c -> f c = g c) ->
  alter f i l = alter g i l.
Proof.
  revert i. induction l as [| c l IH]; intros [| i] H; simpl; try reflexivity.
  - f_equal. apply H. reflexivity.
  - f_equal. apply IH. exact H.
Qed.

Lemma alter_miss {A : Type} (f : A -> A) (i : nat) (l : list A) :
  l !! i = None -> alter f i l = l.
Proof.
  revert i. induction l as [| c l IH]; intros [| i] H; simpl; try reflexivity.
  - discriminate.
  - f_equal. apply IH. exact H.
Qed.

Lemma lookup_map {A B : Type} (f : A -> B) (l : list A) (i : nat) :
  map f l !! i = f <$> l !! i.
Proof.
  revert i. induction l as [| c l IH]; intros [| i]; simpl; try reflexivity.
  apply IH.
Qed.

Lemma erase_set_visible b a : erase (set_visible b a) = erase a.
Proof. reflexivity. Qed.

Lemma erase_parseAndApplyListStyle s a :
  erase (parseAndApplyListStyle s a) = erase a.
Proof.
  unfold parseAndApplyListStyle.
  destruct (numberedPattern_test _); reflexivity.
Qed.

Lemma skeleton_map_attrs f n :
  (forall a, erase (f a) = erase a) ->
  skeleton (map_attrs f n) = skeleton n.
Proof. intros H. destruct n; simpl; rewrite H; reflexivity. Qed.

Lemma skeleton_alter_at g p n :
  (forall m, skeleton (g m) = skeleton m) ->
  skeleton (alter_at g p n) = skeleton n.
Proof.
  intros Hg. revert n. induction p as [| i p IH]; intros n; simpl; [apply Hg |].
  destruct n as [t a | t a cs]; [reflexivity |]. simpl. f_equal.
  apply map_alter_absorb. intros c _. apply IH.
Qed.

Lemma skeleton_attrs n : attrs_of (skeleton n) = erase (attrs_of n).
Proof. destruct n; reflexivity. Qed.

Lemma is_text_skeleton n : is_text (skeleton n) = is_text n.
Proof. destruct n as [[] a | t a cs]; reflexivity. Qed.

Lemma node_at_skeleton p n :
  node_at p (skeleton n) = skeleton <$> node_at p n.
Proof.
  revert n. induction p as [| i p IH]; intros n; simpl; [reflexivity |].
  destruct n as [t a | t a cs]; simpl; [reflexivity |].
  rewrite lookup_map. destruct (cs !! i) as [c |]; simpl; [apply IH | reflexivity].
Qed.

Lemma scan_children_ext (f g : node -> option path) nm cs i :
  Forall (fun c => f c = g c) cs ->
  scan_children f nm cs i = scan_children g nm cs i.
Proof.
  intros H. revert i. induction H as [| c cs Hc _ IH]; intros i; simpl;
    [reflexivity |].
  rewrite Hc, IH. reflexivity.
Qed.

Lemma scan_children_map (f : node -> option path) (h : node -> node) nm cs i :
  (forall c, name (attrs_of (h c)) = name (attrs_of c)) ->
  scan_children f nm (map h cs) i = scan_children (fun c => f (h c)) nm cs i.
Proof.
  intros Hn. revert i. induction cs as [| c cs IH]; intros i; simpl;
    [reflexivity |].
  rewrite Hn, IH. reflexivity.
Qed.

Lemma findChildByName_skeleton n nm :
  findChildByName (skeleton n) nm = findChildByName n nm.
Proof.
  induction n as [t a | t a cs IH] using node_ind'; [reflexivity |].
  simpl. rewrite scan_children_map.
  - apply scan_children_ext. exact IH.
  - intros c. rewrite skeleton_attrs. reflexivity.
Qed.

Lemma findChildByName_same_skeleton n n' nm :
  skeleton n = skeleton n' -> findChildByName n nm = findChildByName n' nm.
Proof.
  intros H. rewrite <- (findChildByName_skeleton n), H.
  apply findChildByName_skeleton.
Qed.

Lemma is_text_at_same_skeleton n n' p :
  skeleton n = skeleton n' ->
  from_option is_text false (node_at p n) = from_option is_text false (node_at p n').
Proof.
  intros H.
  assert (E : forall m, from_option is_text false (node_at p m)
                        = from_option is_text false (node_at p (skeleton m))).
  { intros m. rewrite node_at_skeleton.
    destruct (node_at p m); simpl; [symmetry; apply is_text_skeleton | reflexivity]. }
  rewrite (E n), (E n'), H. reflexivity.
Qed.

(** The field applier writes visibility and text only. *)
Lemma applyMapping_skeleton record instance mapping :
  skeleton (applyMapping record instance mapping) = skeleton instance.
Proof.
  unfold applyMapping.
  destruct (findChildByName instance (layerName mapping)) as [target |];
    [| reflexivity].
  assert (Hv : forall b m, skeleton (map_attrs (set_visible b) m) = skeleton m).
  { intros b m. apply skeleton_map_attrs, erase_set_visible. }
  assert (Ht : forall s m,
             skeleton (map_attrs (parseAndApplyListStyle s) m) = skeleton m).
  { intros s m. apply skeleton_map_attrs, erase_parseAndApplyListStyle. }
  destruct (record !! dataField mapping) as [[b | z | s |] |]; try reflexivity;
    cbv zeta;
    repeat match goal with
           | |- context [if ?c then _ else _] => destruct c
           end;
    rewrite ?skeleton_alter_at; auto.
Qed.

Lemma fill_skeleton record mappings instance :
  skeleton (fold_left (applyMapping record) mappings instance) = skeleton instance.
Proof.
  revert instance. induction mappings as [| m ms IH]; intros instance; simpl;
    [reflexivity |].
  rewrite IH. apply applyMapping_skeleton.
Qed.

Lemma fillInstanceData_container t a cs record mappings :
  fillInstanceData (Container t a cs) record mappings
  = Some (fold_left (applyMapping record) mappings (Container t a cs)).
Proof. destruct mappings; reflexivity. Qed.

Lemma fillInstanceData_skeleton instance record mappings filled :
  fillInstanceData instance record mappings = Some filled ->
  skeleton filled = skeleton instance.
Proof.
  destruct mappings as [| m ms]; simpl.
  - intros [= <-]. reflexivity.
  - destruct instance; [discriminate |]. intros [= <-].
    change (skeleton (fold_left (applyMapping record) (m :: ms) (Container t a children))
            = skeleton (Container t a children)).
    apply fill_skeleton.
Qed.

Lemma updateInstance_total n record mappings :
  exists n', updateInstance n record mappings = Some n' /\ skeleton n' = skeleton n.
Proof.
  destruct n as [t a | t a cs]; simpl.
  - eexists; split; reflexivity.
  - rewrite fillInstanceData_container. eexists; split; [reflexivity |].
    apply fill_skeleton.
Qed.

Lemma updateInstance_skeleton n record mappings :
  skeleton (default n (updateInstance n record mappings)) = skeleton n.
Proof.
  destruct (updateInstance_total n record mappings) as (n' & -> & H). exact H.
Qed.

Lemma page_alter_skeleton g p pg :
  (forall m, skeleton (g m) = skeleton m) ->
  map skeleton (page_alter g p pg) = map skeleton pg.
Proof.
  intros Hg. destruct p as [| i p]; simpl; [reflexivity |].
  apply map_alter_absorb. intros c _. apply skeleton_alter_at, Hg.
Qed.

Lemma page_alter_length g p pg : length (page_alter g p pg) = length pg.
Proof. destruct p; simpl; [reflexivity | apply length_alter]. Qed.

Lemma page_at_skeleton p pg :
  page_at p (map skeleton pg) = skeleton <$> page_at p pg.
Proof.
  destruct p as [| i p]; simpl; [reflexivity |].
  rewrite lookup_map. destruct (pg !! i); simpl; [apply node_at_skeleton | reflexivity].
Qed.


Lemma scan_children_found (f : node -> option path) nm cs i p :
  scan_children f nm cs i = Some p ->
  exists j q c,
    p = (i + j) :: q /\ cs !! j = Some c
    /\ ((q = [] /\ name (attrs_of c) = nm) \/ f c = Some q).
Proof.
  revert i. induction cs as [| c cs IH]; intros i; simpl; [discriminate |].
  destruct (String.eqb_spec (name (attrs_of c)) nm) as [E | E].
  - intros [= <-]. exists 0, [], c. rewrite Nat.add_0_r. auto.
  - destruct (f c) as [q |] eqn:Ef.
    + intros [= <-]. exists 0, q, c. rewrite Nat.add_0_r. auto.
    + intros H. apply IH in H as (j & q & c' & -> & Hj & Hc).
      exists (S j), q, c'. split; [f_equal; lia | auto].
Qed.

(** [findChildByName] answers with the reference of a node that is really
    there, strictly below the parent, and that bears the name. *)
Lemma findChildByName_sound parent nm p :
  findChildByName parent nm = Some p ->
  p <> [] /\ exists c, node_at p parent = Some c /\ name (attrs_of c) = nm.
Proof.
  revert p. induction parent as [t a | t a cs IH] using node_ind'; intros p;
    simpl; [discriminate |].
  intros H. apply scan_children_found in H as (j & q & c & -> & Hj & Hc).
  split; [discriminate |]. simpl. rewrite Hj. simpl.
  destruct Hc as [[-> Hn] | Hq].
  - exists c. auto.
  - rewrite Forall_forall in IH.
    apply (IH c) in Hq as [_ Hq]; [exact Hq |].
    apply list_elem_of_lookup. eauto.
Qed.

(* ===================================================================== *)
(** ** One mapping rule *)
(* ===================================================================== *)


(* ===================================================================== *)
(** ** The index lists the tagged nodes *)
(* ===================================================================== *)

Lemma walk_children_fold visit lister p cs i m :
  Forall (fun c => forall q acc, visit q c acc = fold_left index_step (lister q c) acc) cs ->
  walk_children visit p cs i m
  = fold_left index_step (list_children lister p cs i) m.
Proof.
  intros H. revert i m. induction H as [| c cs Hc _ IH]; intros i m; simpl;
    [reflexivity |].
  rewrite fold_left_app, IH, Hc. reflexivity.
Qed.

Lemma walk_fold n : forall p m, walk p n m = fold_left index_step (nodes_under p n) m.
Proof.
  induction n as [t a | t a cs IH] using node_ind'; intros p m; [reflexivity |].
  simpl. apply (walk_children_fold (fun q c acc => walk q c acc)
                  (fun q c => nodes_under q c)). exact IH.
Qed.

Lemma buildExistingMap_fold pg :
  buildExistingMap pg = fold_left index_step (all_nodes pg) ∅.
Proof.
  unfold buildExistingMap, all_nodes, nodes_from.
  apply walk_children_fold. apply Forall_forall. intros c _ q acc. apply walk_fold.
Qed.

Lemma tagged_in_cons key q c l :
  tagged_in key ((q, c) :: l)
  = if decide (notionId (attrs_of c) = key) then q :: tagged_in key l
    else tagged_in key l.
Proof.
  unfold tagged_in. rewrite filter_cons. simpl.
  destruct (decide (notionId (attrs_of c) = key)); reflexivity.
Qed.

Lemma tagged_in_app key l1 l2 :
  tagged_in key (l1 ++ l2) = tagged_in key l1 ++ tagged_in key l2.
Proof. unfold tagged_in. rewrite filter_app, map_app. reflexivity. Qed.

Lemma index_fold_lookup key l (m : gmap string (list path)) :
  key <> "" ->
  fold_left index_step l m !! key
  = match tagged_in key l with
    | [] => m !! key
    | found => Some (default [] (m !! key) ++ found)
    end.
Proof.
  intros Hk. revert m. induction l as [| [q c] l IH]; intros m; [reflexivity |].
  simpl fold_left. rewrite IH, tagged_in_cons.
  unfold index_step, index_add. simpl.
  destruct (String.eqb_spec (notionId (attrs_of c)) "") as [E | E].
  - destruct (decide (notionId (attrs_of c) = key)); [congruence | reflexivity].
  - destruct (decide (notionId (attrs_of c) = key)) as [-> | Hne].
    + rewrite lookup_insert_eq. simpl.
      destruct (tagged_in key l); rewrite <- ?app_assoc; reflexivity.
    + rewrite lookup_insert_ne by exact Hne. reflexivity.
Qed.

Lemma index_fold_no_empty_key l (m : gmap string (list path)) :
  fold_left index_step l m !! "" = m !! "".
Proof.
  revert m. induction l as [| [q c] l IH]; intros m; [reflexivity |].
  simpl fold_left. rewrite IH. unfold index_step, index_add. simpl.
  destruct (String.eqb_spec (notionId (attrs_of c)) "") as [E | E];
    [reflexivity |].
  apply lookup_insert_ne. exact E.
Qed.

(** What the index holds under a key: the nodes tagged with it, in
    document order; no entry when there is none. *)
Lemma buildExistingMap_lookup pg key :
  key <> "" ->
  buildExistingMap pg !! key
  = match tagged key pg with [] => None | found => Some found end.
Proof.
  intros Hk. rewrite buildExistingMap_fold, (index_fold_lookup key _ _ Hk).
  unfold tagged. rewrite lookup_empty. reflexivity.
Qed.

Lemma hits_buildExistingMap pg key :
  key <> "" -> hits (buildExistingMap pg) key = tagged key pg.
Proof.
  intros Hk. unfold hits. rewrite buildExistingMap_lookup by exact Hk.
  destruct (tagged key pg); reflexivity.
Qed.

(* ===================================================================== *)
(** ** Processing keys *)
(* ===================================================================== *)

Lemma pretty_nat_nonempty (i : nat) : ("row-" ++ pretty i)%string <> "".
Proof. discriminate. Qed.

Lemma pretty_N_go_length (n : N) (s : string) :
  String.length s <= String.length (pretty_N_go n s).
Proof.
  revert s. induction (N.lt_wf_0 n) as [n _ IH]. intros s.
  destruct (decide (n = 0%N)) as [-> | Hn].
  - rewrite pretty_N_go_0. lia.
  - rewrite pretty_N_go_step by lia.
    etransitivity; [| apply IH, N.div_lt; lia]. simpl. lia.
Qed.

Lemma pretty_positive_nonempty (p : positive) : pretty p <> "".
Proof.
  unfold pretty, pretty_positive, pretty, pretty_N.
  destruct (decide (N.pos p = 0%N)); [discriminate |].
  rewrite pretty_N_go_step by lia. intros E.
  pose proof (pretty_N_go_length (N.pos p `div` 10)
                (String (pretty_N_char (N.pos p `mod` 10)) "")) as H.
  rewrite E in H. simpl in H. lia.
Qed.

Lemma js_String_truthy v : truthy v = true -> js_String v <> "".
Proof.
  destruct v as [[] | n | s |]; simpl; try discriminate.
  - intros Hn. apply negb_true_iff, Z.eqb_neq in Hn.
    destruct n as [| p | p]; [congruence | apply pretty_positive_nonempty |].
    unfold pretty, pretty_Z. discriminate.
  - intros Hs. apply negb_true_iff, String.eqb_neq in Hs. exact Hs.
Qed.

Lemma recordId_nonempty record idField i : recordId record idField i <> "".
Proof.
  unfold recordId.
  destruct (record !! default "undefined" idField) as [v |];
    [| apply pretty_nat_nonempty].
  destruct (truthy v) eqn:E; [apply js_String_truthy, E | apply pretty_nat_nonempty].
Qed.

Lemma keys_from_app idField i rs1 rs2 :
  keys_from idField i (rs1 ++ rs2)
  = keys_from idField i rs1 ++ keys_from idField (i + length rs1) rs2.
Proof.
  revert i. induction rs1 as [| r rs1 IH]; intros i; simpl.
  - rewrite Nat.add_0_r. reflexivity.
  - rewrite IH. do 3 f_equal. lia.
Qed.

Lemma keys_from_length idField i rs : length (keys_from idField i rs) = length rs.
Proof. revert i. induction rs as [| r rs IH]; intros i; simpl; [| rewrite IH]; reflexivity. Qed.

(* ===================================================================== *)
(** ** One record of a pass *)
(* ===================================================================== *)

Lemma update_existing_fold ms record l st :
  fold_left (update_existing ms record) l st
  = mkState (fold_left (fun pg q => page_alter (updated ms record) q pg) l (page st))
            (existingMap st) (newIndex st) (length l + updatedCount st)
            (createdCount st) (affectedNodes st ++ l) (posted st).
Proof.
  revert st. induction l as [| q l IH]; intros st; simpl.
  - rewrite app_nil_r. destruct st; reflexivity.
  - rewrite IH. simpl. rewrite <- app_assoc. f_equal. lia.
Qed.

Lemma updates_skeleton ms record l pg :
  map skeleton (fold_left (fun pg q => page_alter (updated ms record) q pg) l pg)
  = map skeleton pg.
Proof.
  revert pg. induction l as [| q l IH]; intros pg; simpl; [reflexivity |].
  rewrite IH. apply page_alter_skeleton. intros m. apply updateInstance_skeleton.
Qed.

Lemma updates_length ms record l pg :
  length (fold_left (fun pg q => page_alter (updated ms record) q pg) l pg)
  = length pg.
Proof.
  rewrite <- (length_map skeleton), updates_skeleton. apply length_map.
Qed.

Lemma page_alter_app_old g q (old added : list node) :
  (forall i p, q = i :: p -> i < length old) ->
  page_alter g q (old ++ added) = page_alter g q old ++ added.
Proof.
  intros H. destruct q as [| i p]; simpl; [reflexivity |].
  apply alter_app_l. eapply H. reflexivity.
Qed.

Lemma skeleton_placed_card cid startY w h tpl tpl' k key :
  skeleton tpl = skeleton tpl' ->
  skeleton (placed_card cid startY w h tpl k key)
  = skeleton (placed_card cid startY w h tpl' k key).
Proof.
  intros H. unfold placed_card, instance_of, createInstance, clone, is_component.
  destruct tpl as [t a | t a cs], tpl' as [t' a' | t' a' cs']; simpl in H;
    try discriminate; injection H as -> Ha Hcs.
  - simpl. unfold erase in *. simpl. congruence.
  - destruct t'; simpl; unfold erase in *; simpl; f_equal; congruence.
Qed.

Lemma page_at_app_old p (old added : list node) c :
  page_at p old = Some c -> page_at p (old ++ added) = Some c.
Proof.
  destruct p as [| i p]; simpl; [discriminate |].
  destruct (old !! i) as [c0 |] eqn:E; [| discriminate].
  rewrite (lookup_app_l_Some _ _ _ _ E). auto.
Qed.

Lemma page_at_same_skeleton p pg pg' c :
  map skeleton pg = map skeleton pg' ->
  page_at p pg = Some c ->
  exists c', page_at p pg' = Some c' /\ skeleton c' = skeleton c.
Proof.
  intros Hs Hc.
  assert (E : skeleton <$> page_at p pg' = Some (skeleton c)).
  { rewrite <- page_at_skeleton, <- Hs, page_at_skeleton, Hc. reflexivity. }
  destruct (page_at p pg') as [c' |]; [| discriminate].
  injection E as E. eauto.
Qed.

(** The template keeps its skeleton for as long as the page only gets
    content updates and new nodes at its end. *)
Lemma deref_same_skeleton tref pg old added tpl :
  deref pg tref = Some tpl ->
  map skeleton old = map skeleton pg ->
  exists tpl', deref (old ++ added) tref = Some tpl' /\ skeleton tpl' = skeleton tpl.
Proof.
  intros Hd Hs. destruct tref as [p | n]; simpl in *.
  - destruct (page_at_same_skeleton p pg old tpl (eq_sym Hs) Hd) as (c' & Hc' & E).
    exists c'. split; [apply page_at_app_old, Hc' | exact E].
  - injection Hd as ->. eauto.
Qed.

Lemma skeleton_split (page' pg : list node) (extra : list node) :
  map skeleton page' = map skeleton pg ++ extra ->
  exists old added,
    page' = old ++ added /\ map skeleton old = map skeleton pg
    /\ map skeleton added = extra.
Proof.
  intros H. exists (take (length pg) page'), (drop (length pg) page').
  split; [symmetry; apply take_drop |].
  assert (Hl : length (map skeleton pg) = length pg) by apply length_map.
  split.
  - rewrite <- firstn_map, H, <- Hl, take_app_length. reflexivity.
  - rewrite <- skipn_map, H, <- Hl, drop_app_length. reflexivity.
Qed.

Lemma misses_snoc idx keys key :
  misses idx (keys ++ [key])
  = misses idx keys ++ (if is_hit idx key then [] else [key]).
Proof.
  unfold misses. rewrite List.filter_app. simpl.
  destruct (is_hit idx key); reflexivity.
Qed.

Lemma progress_upto_S k n :
  progress_upto (S k) n = progress_upto k n ++ [StatusProgress (S k) n].
Proof. unfold progress_upto. rewrite seq_S, map_app. reflexivity. Qed.

Lemma fillInstanceData_none instance record ms :
  fillInstanceData instance record ms = None ->
  ms <> [] /\ exists t a, instance = Leaf t a.
Proof.
  destruct ms as [| m ms]; simpl; [discriminate |].
  destruct instance as [t a | t a cs]; [| discriminate].
  intros _. split; [discriminate | eauto].
Qed.

Lemma placed_card_leaf cid startY w h tpl k key t a :
  placed_card cid startY w h tpl k key = Leaf t a -> exists t' a', tpl = Leaf t' a'.
Proof.
  unfold placed_card, instance_of, createInstance, clone.
  destruct tpl as [t' a' | t' a' cs]; [eauto |].
  destruct (is_component _); discriminate.
Qed.

Section PassInvariant.
Variables (cid : string) (ms : list FieldMapping) (idf : option string).
Variables (tref : node_ref) (n : nat) (startY w h : Z).
Variables (pg : list node) (tpl : node).
Variables (idx : gmap string (list path)) (posted0 : list ui_message).
Hypothesis Htpl : deref pg tref = Some tpl.

Local Abbreviation inv := (pass_inv cid idf n startY w h pg tpl idx posted0).
Local Abbreviation aborted := (pass_aborted ms n pg tpl idx posted0).

Lemma sync_record_inv done record st :
  inv done st ->
  match sync_record cid ms idf tref n startY w h (length done) record st with
  | Normal st' => inv (done ++ [record]) st'
  | Thrown st' => aborted st'
  end.
Proof.
  intros (Hidx & Hnew & Hcre & Hupd & Hpost & Hpage).
  unfold sync_record. set (key := recordId record idf (length done)).
  assert (Hkeys : keys_from idf 0 (done ++ [record])
                  = keys_from idf 0 done ++ [key]).
  { rewrite keys_from_app. reflexivity. }
  assert (Hprog : progress_upto (length (done ++ [record])) n
                  = progress_upto (length done) n
                    ++ [StatusProgress (S (length done)) n]).
  { rewrite length_app, Nat.add_1_r. apply progress_upto_S. }
  assert (Hmiss :
            is_hit idx key = false ->
            match insert_new cid ms tref startY w h record key st with
            | Normal st' =>
                inv (done ++ [record])
                  (post (StatusProgress (S (length done)) n) st')
            | Thrown st' => aborted st'
            end).
  { intros Hh. unfold insert_new.
    destruct (skeleton_split _ _ _ Hpage) as (old & added & Hst & Hold & Hadded).
    destruct (deref_same_skeleton tref pg old added tpl Htpl Hold)
      as (tpl' & Hd & Hsk).
    rewrite Hst, Hd, <- Hst.
    change (map_attrs (set_sourceComponentId cid)
              (map_attrs (set_notionId key)
                 (map_attrs (set_position (grid_x w (newIndex st))
                                          (grid_y startY h (newIndex st)))
                    (if is_component tpl' then createInstance tpl' else clone tpl'))))
      with (placed_card cid startY w h tpl' (newIndex st) key).
    assert (Hplaced : skeleton (placed_card cid startY w h tpl' (newIndex st) key)
                      = skeleton (placed_card cid startY w h tpl
                                    (length (misses idx (keys_from idf 0 done))) key)).
    { rewrite Hnew. apply skeleton_placed_card, Hsk. }
    destruct (fillInstanceData _ record ms) as [filled |] eqn:Hfill.
    - unfold pass_inv. cbv zeta. rewrite Hkeys, misses_snoc, Hh, Hprog.
      simpl page. simpl existingMap. simpl newIndex. simpl updatedCount.
      simpl createdCount. simpl posted.
      assert (Hz : hits idx key = []).
      { unfold is_hit in Hh. destruct (hits idx key); [reflexivity | discriminate]. }
      split; [exact Hidx |].
      split; [rewrite length_app, Hnew; simpl; lia |].
      split; [rewrite length_app, Hcre; simpl; lia |].
      split.
      { rewrite (map_app _ (keys_from idf 0 done)), sum_list_with_app, Hupd.
        simpl. rewrite Hz. simpl. lia. }
      split; [rewrite Hpost, <- app_assoc; reflexivity |].
      rewrite (map_app skeleton), Hpage, imap_app, <- app_assoc. simpl.
      rewrite Nat.add_0_r.
      rewrite (fillInstanceData_skeleton _ _ _ _ Hfill), Hplaced.
      reflexivity.
    - apply fillInstanceData_none in Hfill as (Hms & t & a & Hleaf).
      apply placed_card_leaf in Hleaf as (t' & a' & ->).
      unfold pass_aborted. simpl. split; [exact Hidx |].
      split; [eauto |]. split.
      + rewrite map_app, Hpage, <- app_assoc. eauto.
      + split; [exact Hms |].
        destruct tpl as [t0 a0 | ? ? ?]; [eauto | discriminate]. }
  rewrite Hidx.
  destruct (idx !! key) as [[| q more] |] eqn:Elook.
  - assert (Hh : is_hit idx key = false)
      by (unfold is_hit, hits; rewrite Elook; reflexivity).
    specialize (Hmiss Hh).
    destruct (insert_new cid ms tref startY w h record key st); exact Hmiss.
  - rewrite update_existing_fold.
    unfold pass_inv. cbv zeta. rewrite Hkeys, misses_snoc, Hprog.
    simpl page. simpl existingMap. simpl newIndex. simpl updatedCount.
    simpl createdCount. simpl posted.
    assert (Hh : hits idx key = q :: more) by (unfold hits; rewrite Elook; reflexivity).
    unfold is_hit. rewrite Hh, app_nil_r.
    split; [exact Hidx |]. split; [exact Hnew |]. split; [exact Hcre |].
    split.
    { rewrite (map_app _ (keys_from idf 0 done)), sum_list_with_app, Hupd.
      simpl. rewrite Hh. simpl. lia. }
    split; [rewrite Hpost, <- app_assoc; reflexivity |].
    rewrite updates_skeleton, page_alter_skeleton; [exact Hpage |].
    intros m. apply updateInstance_skeleton.
  - assert (Hh : is_hit idx key = false)
      by (unfold is_hit, hits; rewrite Elook; reflexivity).
    specialize (Hmiss Hh).
    destruct (insert_new cid ms tref startY w h record key st); exact Hmiss.
Qed.

Lemma sync_loop_inv records : forall done st,
  inv done st ->
  match sync_loop cid ms idf tref n startY w h records (length done) st with
  | Normal st' => inv (done ++ records) st'
  | Thrown st' => aborted st'
  end.
Proof.
  induction records as [| record rest IH]; intros done st Hinv; simpl.
  - rewrite app_nil_r. exact Hinv.
  - pose proof (sync_record_inv done record st Hinv) as Hstep.
    destruct (sync_record _ _ _ _ _ _ _ _ _ _ _) as [st' | st']; [| exact Hstep].
    specialize (IH (done ++ [record]) st' Hstep).
    rewrite length_app, Nat.add_1_r in IH. rewrite <- app_assoc in IH.
    exact IH.
Qed.
End PassInvariant.

(* ===================================================================== *)
(** ** The handler *)
(* ===================================================================== *)

Section HandlerFacts.
Variable host : string -> option node_ref.

Lemma sync_mapped_data_runs msg pg records maps tref tpl :
  data msg = Some records -> records <> [] ->
  mappings msg = Some maps -> maps <> [] ->
  host (targetSourceId msg) = Some tref ->
  deref pg tref = Some tpl ->
  sync_mapped_data host msg pg
  = match run_loop msg pg records maps tref tpl with
    | Normal st => post (MsgDone (createdCount st) (updatedCount st)) st
    | Thrown st => post (MsgError ErrSyncFailed) st
    end.
Proof.
  intros Hd Hr Hm Hms Hh Ht. unfold sync_mapped_data.
  rewrite Hd, Hm, Hh, Ht.
  destruct records; [congruence |]. destruct maps; [congruence |]. reflexivity.
Qed.

Lemma start_state_inv msg pg records tpl :
  pass_inv (componentId msg) (idField msg) (length records)
    (getNextAvailableY pg) (width (attrs_of tpl)) (height (attrs_of tpl))
    pg tpl (buildExistingMap pg)
    [StatusReceived (length records); StatusScanning;
     StatusFound (size (buildExistingMap pg))]
    [] (start_state pg records).
Proof.
  unfold pass_inv, start_state. simpl. rewrite app_nil_r. repeat split.
Qed.

(** The invariant at the end of the loop of a pass that started. *)
Lemma run_loop_inv msg pg records maps tref tpl :
  deref pg tref = Some tpl ->
  match run_loop msg pg records maps tref tpl with
  | Normal st =>
      pass_inv (componentId msg) (idField msg) (length records)
        (getNextAvailableY pg) (width (attrs_of tpl)) (height (attrs_of tpl))
        pg tpl (buildExistingMap pg)
        [StatusReceived (length records); StatusScanning;
         StatusFound (size (buildExistingMap pg))]
        records st
  | Thrown st =>
      pass_aborted maps (length records) pg tpl (buildExistingMap pg)
        [StatusReceived (length records); StatusScanning;
         StatusFound (size (buildExistingMap pg))] st
  end.
Proof.
  intros Ht.
  exact (sync_loop_inv (componentId msg) maps (idField msg) tref
           (length records) (getNextAvailableY pg) (width (attrs_of tpl))
           (height (attrs_of tpl)) pg tpl (buildExistingMap pg) _ Ht
           records [] (start_state pg records)
           (start_state_inv msg pg records tpl)).
Qed.
End HandlerFacts.

(* ===================================================================== *)
(** ** References held by the index are nodes of the page *)
(* ===================================================================== *)

Lemma list_children_elem visit p cs i (qc : path * node) :
  qc ∈ list_children visit p cs i ->
  exists j c0, cs !! j = Some c0 /\ qc ∈ visit (p ++ [i + j]) c0.
Proof.
  revert i. induction cs as [| c cs IH]; intros i; simpl.
  - intros H. apply elem_of_nil in H. contradiction.
  - rewrite elem_of_app. intros [H | H].
    + exists 0, c. rewrite Nat.add_0_r. auto.
    + apply IH in H as (j & c0 & Hj & Hin).
      exists (S j), c0. split; [exact Hj |].
      replace (i + S j) with (S i + j) by lia. exact Hin.
Qed.

Lemma nodes_under_valid n : forall p q c,
  (q, c) ∈ nodes_under p n -> exists rel, q = p ++ rel /\ node_at rel n = Some c.
Proof.
  induction n as [t a | t a cs IH] using node_ind'; intros p q c; simpl.
  - rewrite elem_of_cons, elem_of_nil. intros [[= -> ->] | []].
    exists []. rewrite app_nil_r. auto.
  - rewrite elem_of_cons. intros [[= -> ->] | H].
    + exists []. rewrite app_nil_r. auto.
    + apply list_children_elem in H as (j & c0 & Hj & Hin).
      rewrite Forall_forall in IH.
      apply IH in Hin as (rel & -> & Hrel);
        [| apply list_elem_of_lookup; eauto].
      exists (j :: rel). rewrite <- app_assoc. split; [reflexivity |].
      simpl. rewrite Hj. exact Hrel.
Qed.

Lemma all_nodes_valid pg q c :
  (q, c) ∈ all_nodes pg -> page_at q pg = Some c /\ exists i rel, q = i :: rel.
Proof.
  intros H. apply list_children_elem in H as (j & c0 & Hj & Hin).
  apply nodes_under_valid in Hin as (rel & -> & Hrel).
  simpl. rewrite Hj. simpl. eauto.
Qed.

Lemma tagged_in_elem key l q :
  q ∈ tagged_in key l -> exists c, (q, c) ∈ l /\ notionId (attrs_of c) = key.
Proof.
  unfold tagged_in. intros H. apply list_elem_of_In, in_map_iff in H.
  destruct H as ([q' c] & <- & Hin). apply list_elem_of_In in Hin.
  apply list_elem_of_filter in Hin as [Hk Hin]. eauto.
Qed.

Lemma tagged_valid key pg q :
  q ∈ tagged key pg ->
  exists c, page_at q pg = Some c /\ notionId (attrs_of c) = key.
Proof.
  intros H. apply tagged_in_elem in H as (c & Hin & Hk).
  apply all_nodes_valid in Hin as [Hat _]. eauto.
Qed.

Lemma hits_valid pg key q :
  q ∈ hits (buildExistingMap pg) key ->
  exists c, page_at q pg = Some c /\ notionId (attrs_of c) = key.
Proof.
  destruct (String.eqb_spec key "") as [-> | Hk].
  - unfold hits. rewrite buildExistingMap_fold, index_fold_no_empty_key, lookup_empty.
    intros H. apply elem_of_nil in H. contradiction.
  - rewrite hits_buildExistingMap by exact Hk. apply tagged_valid.
Qed.

Lemma page_at_prefix_skeleton p pg page' extra n :
  map skeleton page' = map skeleton pg ++ extra ->
  page_at p pg = Some n ->
  exists n', page_at p page' = Some n' /\ skeleton n' = skeleton n.
Proof.
  intros Hs Hn.
  destruct (skeleton_split _ _ _ Hs) as (old & added & -> & Hold & _).
  destruct (page_at_same_skeleton p pg old n (eq_sym Hold) Hn) as (n' & Hn' & E).
  exists n'. split; [apply page_at_app_old, Hn' | exact E].
Qed.

Lemma skeleton_geometry n n' :
  skeleton n' = skeleton n ->
  x (attrs_of n') = x (attrs_of n) /\ y (attrs_of n') = y (attrs_of n)
  /\ width (attrs_of n') = width (attrs_of n)
  /\ height (attrs_of n') = height (attrs_of n)
  /\ name (attrs_of n') = name (attrs_of n)
  /\ notionId (attrs_of n') = notionId (attrs_of n)
  /\ sourceComponentId (attrs_of n') = sourceComponentId (attrs_of n).
Proof.
  intros H. apply (f_equal attrs_of) in H. rewrite !skeleton_attrs in H.
  unfold erase in H. injection H as -> -> -> -> -> -> ->. repeat split.
Qed.

Section HandlerOutcome.
Variable host : string -> option node_ref.

(** Whatever the message, the nodes that were on the page keep their
    skeleton, and anything else on the page afterwards sits at its end. *)
Lemma sync_mapped_data_skeleton msg pg :
  exists extra,
    map skeleton (page (sync_mapped_data host msg pg)) = map skeleton pg ++ extra.
Proof.
  assert (Hidle : forall m, exists extra,
             map skeleton (page (idle pg m)) = map skeleton pg ++ extra).
  { intros m. exists []. rewrite app_nil_r. reflexivity. }
  unfold sync_mapped_data.
  destruct (data msg) as [[| r rs] |]; try apply Hidle.
  destruct (mappings msg) as [[| m ms] |]; try apply Hidle.
  destruct (host (targetSourceId msg)) as [tref |]; try apply Hidle.
  destruct (deref pg tref) as [tpl |] eqn:Ht; try apply Hidle.
  pose proof (run_loop_inv msg pg (r :: rs) (m :: ms) tref tpl Ht) as Hinv.
  unfold run_loop, start_state in Hinv.
  destruct (sync_loop _ _ _ _ _ _ _ _ _ _ _) as [st | st]; simpl.
  - destruct Hinv as (_ & _ & _ & _ & _ & Hpage). eauto.
  - destruct Hinv as (_ & _ & Hpage & _). exact Hpage.
Qed.
End HandlerOutcome.

(* ===================================================================== *)
(** ** Position preservation *)
(* ===================================================================== *)

(** C2: every node that is on the page when a pass starts, and so every
    element the pass matches by identifier, is found at the same place in
    the tree afterwards with the same position and size (and name and
    tags), whatever content the pass wrote; what a pass adds to the page
    comes after the nodes that were there. *)
Theorem sync_preserves_position_and_size
    (host : string -> option node_ref) (msg : SyncMessage) (pg : list node) :
  let st := sync_mapped_data host msg pg in
  (forall p n,
      page_at p pg = Some n ->
      exists n',
        page_at p (page st) = Some n'
        /\ x (attrs_of n') = x (attrs_of n) /\ y (attrs_of n') = y (attrs_of n)
        /\ width (attrs_of n') = width (attrs_of n)
        /\ height (attrs_of n') = height (attrs_of n))
  /\ (forall key q,
        q ∈ hits (buildExistingMap pg) key ->
        exists n, page_at q pg = Some n /\ notionId (attrs_of n) = key)
  /\ exists new_nodes,
      map skeleton (page st) = map skeleton pg ++ new_nodes.
Proof.
  intros st. destruct (sync_mapped_data_skeleton host msg pg) as (extra & Hs).
  split; [| split].
  - intros p n Hn.
    destruct (page_at_prefix_skeleton p pg _ extra n Hs Hn) as (n' & Hn' & E).
    exists n'. split; [exact Hn' |].
    destruct (skeleton_geometry _ _ E) as (? & ? & ? & ? & _). auto.
  - intros key q. apply hits_valid.
  - eauto.
Qed.

(* ===================================================================== *)
(** ** Input validation *)
(* ===================================================================== *)

(** C10, as stated, fails: a message without an identifier field is not
    rejected.  The pass runs, keys the record by its position, creates a
    card and reports counts. *)
Lemma sync_without_idField_counterexample :
  let msg := mkSyncMessage "tpl" None (Some [record_a1]) (Some sample_rules) None in
  let st := sync_mapped_data sample_host msg [] in
  idField msg = None
  /\ posted st = [StatusReceived 1; StatusScanning; StatusFound 0;
                  StatusProgress 1 1; MsgDone 1 0]
  /\ tagged "row-0" (page st) = [[0]]
  /\ ~ (forall host m pg, idField m = None -> page (sync_mapped_data host m pg) = pg).
Proof.
  split; [reflexivity |]. split; [vm_compute; reflexivity |].
  split; [vm_compute; reflexivity |].
  intros H.
  specialize (H sample_host
                (mkSyncMessage "tpl" None (Some [record_a1]) (Some sample_rules) None)
                [] eq_refl).
  vm_compute in H. discriminate.
Qed.

(** C10 (amended): when the record set is missing or empty, the rule set is
    missing or empty, or the template node cannot be found, the handler
    posts one error and nothing else: the page is as it was, no index is
    built, no element is created or touched and no counts are reported. *)
Theorem sync_validation_is_atomic
    (host : string -> option node_ref) (msg : SyncMessage) (pg : list node) :
  data msg = None \/ data msg = Some []
  \/ mappings msg = None \/ mappings msg = Some []
  \/ host (targetSourceId msg) = None
  \/ (exists tref, host (targetSourceId msg) = Some tref /\ deref pg tref = None) ->
  let st := sync_mapped_data host msg pg in
  page st = pg
  /\ (exists e, posted st = [MsgError e] /\ e <> ErrSyncFailed)
  /\ createdCount st = 0 /\ updatedCount st = 0 /\ newIndex st = 0
  /\ affectedNodes st = [] /\ existingMap st = ∅.
Proof.
  intros Hbad st.
  assert (Hidle : forall e, e <> ErrSyncFailed -> st = idle pg (MsgError e) ->
            page st = pg
            /\ (exists e, posted st = [MsgError e] /\ e <> ErrSyncFailed)
            /\ createdCount st = 0 /\ updatedCount st = 0 /\ newIndex st = 0
            /\ affectedNodes st = [] /\ existingMap st = ∅).
  { intros e He ->. simpl. repeat split; eauto. }
  subst st. unfold sync_mapped_data in *.
  destruct (data msg) as [[| r rs] |];
    try (apply (Hidle ErrNoData); [discriminate | reflexivity]).
  destruct (mappings msg) as [[| m ms] |];
    try (apply (Hidle ErrNoMappings); [discriminate | reflexivity]).
  destruct (host (targetSourceId msg)) as [tref |];
    try (apply (Hidle ErrTemplateGone); [discriminate | reflexivity]).
  destruct (deref pg tref) as [tpl |] eqn:Ht;
    try (apply (Hidle ErrTemplateGone); [discriminate | reflexivity]).
  exfalso.
  destruct Hbad as [H | [H | [H | [H | [H | (tref' & H & Hd)]]]]];
    try discriminate.
  injection H as <-. congruence.
Qed.

Lemma sync_validation_is_atomic_witness :
  let msg := mkSyncMessage "tpl" None (Some []) (Some sample_rules) (Some "id") in
  page (sync_mapped_data sample_host msg [sample_card]) = [sample_card]
  /\ exists e, posted (sync_mapped_data sample_host msg [sample_card]) = [MsgError e]
               /\ e <> ErrSyncFailed.
Proof.
  intros msg.
  destruct (sync_validation_is_atomic sample_host msg [sample_card]
              (or_intror (or_introl eq_refl))) as (Hp & He & _).
  split; [exact Hp | exact He].
Defined.

(* ===================================================================== *)
(** ** Processing keys and the fallback *)
(* ===================================================================== *)

(** C4, as stated, fails: an identifier that is the number zero is present
    and prints as "0", yet the record is keyed by its position. *)
Lemma recordId_zero_counterexample :
  let record : gmap string jsval := {[ "id" := VNum 0 ]} in
  record !! "id" = Some (VNum 0)
  /\ js_String (VNum 0) = "0"
  /\ recordId record (Some "id") 3 = "row-3"
  /\ recordId_absent_or_empty record (Some "id") 3 = "0"
  /\ ~ (forall r f i, recordId r f i = recordId_absent_or_empty r f i).
Proof.
  split; [reflexivity |]. split; [reflexivity |]. split; [reflexivity |].
  split; [reflexivity |].
  intros H. specialize (H {[ "id" := VNum 0 ]} (Some "id") 3).
  vm_compute in H. discriminate.
Qed.

Lemma truthy_not_falsy v : v ∉ falsy_values -> truthy v = true.
Proof.
  unfold falsy_values. intros H.
  destruct v as [[] | n | s |]; simpl; try reflexivity.
  - exfalso. apply H. set_solver.
  - apply negb_true_iff, Z.eqb_neq. intros ->. apply H. set_solver.
  - apply negb_true_iff, String.eqb_neq. intros ->. apply H. set_solver.
  - exfalso. apply H. set_solver.
Qed.

Lemma falsy_not_truthy v : v ∈ falsy_values -> truthy v = false.
Proof.
  unfold falsy_values. rewrite !elem_of_cons, elem_of_nil.
  intros [-> | [-> | [-> | [-> | []]]]]; reflexivity.
Qed.

Lemma every_key_counts idx keys :
  length keys
  <= length (misses idx keys) + sum_list (map (fun k => length (hits idx k)) keys).
Proof.
  induction keys as [| k keys IH]; simpl; [lia |].
  unfold is_hit. destruct (hits idx k); simpl; lia.
Qed.

Lemma done_not_progress c u k n : MsgDone c u ∉ progress_upto k n.
Proof.
  unfold progress_upto. intros H. apply list_elem_of_In, in_map_iff in H.
  destruct H as (i & Hi & _). discriminate.
Qed.

Section Outcome.
Variable host : string -> option node_ref.
Variables (msg : SyncMessage) (pg : list node).
Variables (records : list (gmap string jsval)) (maps : list FieldMapping).
Variables (tref : node_ref) (tpl : node).
Hypothesis Hdata : data msg = Some records.
Hypothesis Hrecords : records <> [].
Hypothesis Hmaps : mappings msg = Some maps.
Hypothesis Hrules : maps <> [].
Hypothesis Hhost : host (targetSourceId msg) = Some tref.
Hypothesis Htpl : deref pg tref = Some tpl.

Local Abbreviation index := (buildExistingMap pg).
Local Abbreviation keys := (keys_from (idField msg) 0 records).
Local Abbreviation opening :=
  [StatusReceived (length records); StatusScanning; StatusFound (size index)].

(** How a pass that started ends: either every record was processed and
    the counts are reported, or a record raised, which only happens when
    the template has no children. *)
Lemma sync_mapped_data_outcome :
  let st := sync_mapped_data host msg pg in
  existingMap st = index
  /\ ((createdCount st = length (misses index keys)
       /\ updatedCount st = sum_list (map (fun k => length (hits index k)) keys)
       /\ newIndex st = createdCount st
       /\ posted st = opening ++ progress_upto (length records) (length records)
                      ++ [MsgDone (createdCount st) (updatedCount st)]
       /\ map skeleton (page st)
          = map skeleton pg
            ++ imap (fun k key =>
                       skeleton (placed_card (componentId msg)
                                   (getNextAvailableY pg)
                                   (width (attrs_of tpl)) (height (attrs_of tpl))
                                   tpl k key))
                    (misses index keys))
      \/ ((exists k, posted st = opening ++ progress_upto k (length records)
                                 ++ [MsgError ErrSyncFailed])
          /\ exists t a, tpl = Leaf t a)).
Proof.
  intros st. subst st.
  rewrite (sync_mapped_data_runs host msg pg records maps tref tpl)
    by assumption.
  pose proof (run_loop_inv msg pg records maps tref tpl Htpl) as Hinv.
  destruct (run_loop msg pg records maps tref tpl) as [st | st].
  - destruct Hinv as (Hidx & Hnew & Hcre & Hupd & Hpost & Hpage).
    split; [exact Hidx |]. left. simpl.
    rewrite Hpost, <- app_assoc.
    split; [exact Hcre |]. split; [exact Hupd |]. split; [congruence |].
    split; [reflexivity | exact Hpage].
  - destruct Hinv as (Hidx & (k & Hpost) & _ & _ & Hleaf).
    split; [exact Hidx |]. right. simpl.
    split; [| exact Hleaf]. exists k. rewrite Hpost, <- app_assoc. reflexivity.
Qed.
End Outcome.

(** C4 (amended): the processing key of the record at position [i] is the
    string form of its identifier-field value, and the placeholder "row-" +
    [i] exactly when that value is missing, [null], the empty string, the
    number zero or [false]; it is never empty.  A pass that started either
    processes every record once, in order, each one counting at least once
    as created or updated, or it stops at a record and reports the
    failure. *)
Theorem recordId_fallback_on_falsy
    (record : gmap string jsval) (idf : option string) (i : nat) :
  let field := default "undefined" idf in
  (forall v, record !! field = Some v -> v ∉ falsy_values ->
             recordId record idf i = js_String v)
  /\ (record !! field = None \/
      (exists v, record !! field = Some v /\ v ∈ falsy_values) ->
      recordId record idf i = ("row-" ++ pretty i)%string)
  /\ recordId record idf i <> ""
  /\ forall host msg pg records maps tref tpl,
      data msg = Some records -> records <> [] ->
      mappings msg = Some maps -> maps <> [] ->
      host (targetSourceId msg) = Some tref -> deref pg tref = Some tpl ->
      let st := sync_mapped_data host msg pg in
      let opening := [StatusReceived (length records); StatusScanning;
                      StatusFound (size (buildExistingMap pg))] in
      (posted st = opening ++ progress_upto (length records) (length records)
                   ++ [MsgDone (createdCount st) (updatedCount st)]
       /\ length records <= createdCount st + updatedCount st)
      \/ (exists k, posted st = opening ++ progress_upto k (length records)
                                ++ [MsgError ErrSyncFailed]).
Proof.
  intros field. split; [| split; [| split]].
  - intros v Hv Hnf. unfold recordId. fold field. rewrite Hv.
    rewrite (truthy_not_falsy v Hnf). reflexivity.
  - intros [Hnone | (v & Hv & Hf)]; unfold recordId; fold field.
    + rewrite Hnone. reflexivity.
    + rewrite Hv, (falsy_not_truthy v Hf). reflexivity.
  - apply recordId_nonempty.
  - intros host msg pg records maps tref tpl Hd Hr Hm Hms Hh Ht st opening.
    destruct (sync_mapped_data_outcome host msg pg records maps tref tpl
                Hd Hr Hm Hms Hh Ht)
      as (_ & [(Hcre & Hupd & _ & Hpost & _) | (Hpost & _)]).
    + left. split; [exact Hpost |].
      fold st in Hcre, Hupd. rewrite Hcre, Hupd.
      rewrite <- (keys_from_length (idField msg) 0 records).
      apply every_key_counts.
    + right. exact Hpost.
Qed.

Lemma recordId_fallback_on_falsy_witness :
  recordId record_a1 (Some "id") 0 = "a"
  /\ recordId record_a1 (Some "uuid") 7 = "row-7".
Proof.
  split.
  - apply (proj1 (recordId_fallback_on_falsy record_a1 (Some "id") 0) (VStr "a"));
      [reflexivity |].
    unfold falsy_values. rewrite !elem_of_cons, elem_of_nil.
    intros [H | [H | [H | [H | []]]]]; discriminate.
  - apply (proj1 (proj2 (recordId_fallback_on_falsy record_a1 (Some "uuid") 7))).
    left. reflexivity.
Defined.

(* ===================================================================== *)
(** ** The index during a pass *)
(* ===================================================================== *)

(** C5, as stated, fails: after a pass has inserted a card for the key "a"
    the index still has no entry for it; and a second record with the same
    key, later in the same batch, is inserted as well. *)
Lemma index_not_appended_counterexample :
  let st := sync_mapped_data sample_host (sample_message [record_a1]) [] in
  let st2 := sync_mapped_data sample_host (sample_message [record_a1; record_a2]) [] in
  createdCount st = 1
  /\ tagged "a" (page st) = [[0]]
  /\ existingMap st !! "a" = None
  /\ createdCount st2 = 2
  /\ tagged "a" (page st2) = [[0]; [1]]
  /\ existingMap st2 = ∅.
Proof. vm_compute. repeat split. Qed.

(** C5 (amended): the index built when a pass starts is not modified at
    all during the pass; nothing is added for the cards the pass inserts.
    Which records are matched, and how many cards are created and updated,
    is settled by the index as it was built. *)
Theorem index_fixed_during_pass
    (host : string -> option node_ref) (msg : SyncMessage) (pg : list node)
    (records : list (gmap string jsval)) (maps : list FieldMapping)
    (tref : node_ref) (tpl : node) :
  data msg = Some records -> records <> [] ->
  mappings msg = Some maps -> maps <> [] ->
  host (targetSourceId msg) = Some tref -> deref pg tref = Some tpl ->
  let st := sync_mapped_data host msg pg in
  let index := buildExistingMap pg in
  let keys := keys_from (idField msg) 0 records in
  existingMap st = index
  /\ (forall key, key <> "" ->
        index !! key = match tagged key pg with [] => None | l => Some l end)
  /\ (forall c u, MsgDone c u ∈ posted st ->
        c = length (misses index keys)
        /\ u = sum_list (map (fun k => length (hits index k)) keys)).
Proof.
  intros Hd Hr Hm Hms Hh Ht st index keys.
  destruct (sync_mapped_data_outcome host msg pg records maps tref tpl
              Hd Hr Hm Hms Hh Ht)
    as (Hidx & [(Hcre & Hupd & _ & Hpost & _) | ((k & Hpost) & _)]).
  - split; [exact Hidx |]. split; [intros key; apply buildExistingMap_lookup |].
    intros c u Hin. fold st in Hpost, Hcre, Hupd. rewrite Hpost in Hin.
    rewrite !elem_of_app, !elem_of_cons, !elem_of_nil in Hin.
    destruct Hin as [[H | [H | [H | []]]] | [H | [H | []]]]; try discriminate.
    + exfalso. exact (done_not_progress _ _ _ _ H).
    + injection H as -> ->. split; [exact Hcre | exact Hupd].
  - split; [exact Hidx |]. split; [intros key; apply buildExistingMap_lookup |].
    intros c u Hin. fold st in Hpost. rewrite Hpost in Hin.
    rewrite !elem_of_app, !elem_of_cons, !elem_of_nil in Hin.
    destruct Hin as [[H | [H | [H | []]]] | [H | [H | []]]]; try discriminate.
    exfalso. exact (done_not_progress _ _ _ _ H).
Qed.

Lemma index_fixed_during_pass_witness :
  existingMap (sync_mapped_data sample_host (sample_message [record_a1; record_b]) [])
  = buildExistingMap [].
Proof.
  refine (proj1 (index_fixed_during_pass sample_host
                   (sample_message [record_a1; record_b]) []
                   [record_a1; record_b] sample_rules (Elsewhere sample_card)
                   sample_card eq_refl _ eq_refl _ eq_refl eq_refl));
    discriminate.
Defined.

(* ===================================================================== *)
(** ** Duplicate identifiers *)
(* ===================================================================== *)


(* ===================================================================== *)
(** ** Placement of new cards *)
(* ===================================================================== *)

Lemma scan_bottom_max maxY child : scan_bottom maxY child = Z.max maxY (bottom child).
Proof.
  unfold scan_bottom. destruct (Z.gtb_spec (bottom child) maxY); lia.
Qed.

Lemma fold_max_shift a b l :
  fold_right (fun c m => Z.max (bottom c) m) (Z.max a b) l
  = Z.max b (fold_right (fun c m => Z.max (bottom c) m) a l).
Proof. induction l as [| c l IH]; simpl; [lia | rewrite IH; lia]. Qed.

Lemma scan_bottom_fold l acc :
  fold_left scan_bottom l acc = fold_right (fun c m => Z.max (bottom c) m) acc l.
Proof.
  revert acc. induction l as [| c l IH]; intros acc; simpl; [reflexivity |].
  rewrite IH, scan_bottom_max, fold_max_shift. reflexivity.
Qed.

Lemma getNextAvailableY_unfold pg :
  getNextAvailableY pg
  = let maxY := fold_left scan_bottom pg 0%Z in
    if (maxY >? 0)%Z then (maxY + CARD_GAP * 2)%Z else 0%Z.
Proof. reflexivity. Qed.

Lemma getNextAvailableY_nonempty first others :
  getNextAvailableY (first :: others)
  = if (max_bottom first others >? 0)%Z
    then (max_bottom first others + 2 * CARD_GAP)%Z else 0%Z.
Proof.
  rewrite getNextAvailableY_unfold. cbv zeta. simpl fold_left.
  rewrite scan_bottom_fold, scan_bottom_max, fold_max_shift.
  assert (E : Z.max (bottom first)
                (fold_right (fun c m => Z.max (bottom c) m) 0%Z others)
              = Z.max 0 (max_bottom first others)).
  { unfold max_bottom. fold (bottom first).
    induction others as [| c l IH]; simpl; [lia |].
    fold (bottom c). lia. }
  rewrite E.
  destruct (Z.gtb_spec (Z.max 0 (max_bottom first others)) 0);
    destruct (Z.gtb_spec (max_bottom first others) 0); lia.
Qed.

Lemma fold_max_bound l acc c :
  c ∈ l -> (bottom c <= fold_right (fun c m => Z.max (bottom c) m) acc l)%Z.
Proof.
  induction l as [| c0 l IH]; simpl.
  - intros H. apply elem_of_nil in H. contradiction.
  - rewrite elem_of_cons. intros [-> | H]; [lia |]. specialize (IH H). lia.
Qed.

Lemma fold_max_base l acc :
  (acc <= fold_right (fun c m => Z.max (bottom c) m) acc l)%Z.
Proof. induction l as [| c0 l IH]; simpl; lia. Qed.

(** The origin lies at or below every top-level node, and is never
    negative. *)
Lemma getNextAvailableY_clear pg c :
  c ∈ pg -> (bottom c <= getNextAvailableY pg)%Z /\ (0 <= getNextAvailableY pg)%Z.
Proof.
  intros Hc. rewrite getNextAvailableY_unfold. cbv zeta.
  rewrite scan_bottom_fold.
  pose proof (fold_max_bound pg 0%Z c Hc) as Hb.
  pose proof (fold_max_base pg 0%Z) as H0.
  unfold CARD_GAP.
  destruct (Z.gtb_spec (fold_right (fun c m => Z.max (bottom c) m) 0%Z pg) 0); lia.
Qed.

Lemma grid_distinct k1 k2 :
  k1 <> k2 -> grid_col k1 <> grid_col k2 \/ grid_row k1 <> grid_row k2.
Proof.
  unfold grid_col, grid_row, CARDS_PER_ROW. intros Hne.
  pose proof (Nat.div_mod_eq k1 4). pose proof (Nat.div_mod_eq k2 4).
  destruct (decide (k1 mod 4 = k2 mod 4)); [right | left]; lia.
Qed.

Lemma grid_cells_apart w h startY k1 k2 :
  (0 <= w)%Z -> (0 <= h)%Z -> k1 <> k2 ->
  ~ (grid_x w k1 < grid_x w k2 + w /\ grid_x w k2 < grid_x w k1 + w
     /\ grid_y startY h k1 < grid_y startY h k2 + h
     /\ grid_y startY h k2 < grid_y startY h k1 + h)%Z.
Proof.
  intros Hw Hh Hne. unfold grid_x, grid_y, CARD_GAP.
  destruct (grid_distinct k1 k2 Hne) as [Hc | Hr].
  - assert (grid_col k1 < grid_col k2 \/ grid_col k2 < grid_col k1) as [H | H] by lia;
      nia.
  - assert (grid_row k1 < grid_row k2 \/ grid_row k2 < grid_row k1) as [H | H] by lia;
      nia.
Qed.

Lemma grid_rows_used K k :
  k < K ->
  grid_col k < CARDS_PER_ROW
  /\ grid_row k < (K + 3) / CARDS_PER_ROW
  /\ grid_row (K - 1) = (K + 3) / CARDS_PER_ROW - 1.
Proof.
  unfold grid_col, grid_row, CARDS_PER_ROW. intros Hk.
  pose proof (Nat.div_mod_eq k 4). pose proof (Nat.mod_upper_bound k 4).
  pose proof (Nat.div_mod_eq (K - 1) 4). pose proof (Nat.mod_upper_bound (K - 1) 4).
  pose proof (Nat.div_mod_eq (K + 3) 4). pose proof (Nat.mod_upper_bound (K + 3) 4).
  split; [lia |]. split; nia.
Qed.

Lemma placed_card_attrs cid startY w h tpl k key :
  let a := attrs_of (placed_card cid startY w h tpl k key) in
  x a = grid_x w k /\ y a = grid_y startY h k
  /\ width a = width (attrs_of tpl) /\ height a = height (attrs_of tpl)
  /\ notionId a = key /\ sourceComponentId a = cid.
Proof.
  unfold placed_card, instance_of, createInstance, clone.
  destruct tpl as [t a | t a cs]; [repeat split |].
  destruct t; repeat split.
Qed.

Lemma misses_empty_index keys : misses ∅ keys = keys.
Proof.
  unfold misses. induction keys as [| k keys IH]; simpl; [reflexivity |].
  unfold is_hit at 1, hits. rewrite lookup_empty. simpl. f_equal. exact IH.
Qed.

(** The cards a pass creates, read off the page it leaves. *)
Lemma created_cards_on_page (page' pg : list node) (f : nat -> string -> node)
    (created : list string) :
  map skeleton page' = map skeleton pg ++ imap (fun k key => skeleton (f k key)) created ->
  length page' = length pg + length created
  /\ forall k key,
      created !! k = Some key ->
      exists c, page' !! (length pg + k) = Some c /\ skeleton c = skeleton (f k key).
Proof.
  intros Hs. split.
  - rewrite <- (length_map skeleton page'), Hs, length_app, length_map, length_imap.
    reflexivity.
  - intros k key Hk.
    destruct (skeleton_split _ _ _ Hs) as (old & added & -> & Hold & Hadded).
    assert (Hlen : length old = length pg).
    { rewrite <- (length_map skeleton old), Hold. apply length_map. }
    rewrite <- Hlen, lookup_app_r by lia.
    replace (length old + k - length old) with k by lia.
    assert (E : map skeleton added !! k = Some (skeleton (f k key))).
    { rewrite Hadded, list_lookup_imap, Hk. reflexivity. }
    rewrite lookup_map in E.
    destruct (added !! k) as [c |]; [| discriminate].
    injection E as E. eauto.
Qed.

(** C6, as stated, fails: on a page whose only node lies above the origin
    the insertion origin is zero, not the largest bottom edge plus two
    gaps. *)
Lemma origin_above_zero_counterexample :
  getNextAvailableY [node_above] = 0%Z
  /\ (max_bottom node_above [] + 2 * CARD_GAP = -360)%Z
  /\ ~ (forall first others,
          getNextAvailableY (first :: others)
          = (max_bottom first others + 2 * CARD_GAP)%Z).
Proof.
  split; [reflexivity |]. split; [reflexivity |].
  intros H. specialize (H node_above []). vm_compute in H. discriminate.
Qed.

(** C6 (amended): the insertion origin is zero for an empty page and for a
    page none of whose top-level nodes has a positive bottom edge;
    otherwise it is the largest bottom edge plus two gaps.  In a pass
    whose template has children, the [k]-th created card is the [k]-th
    node appended to the page, at column [k mod 4] and row [k / 4], that
    is at [x = col * (templateWidth + gap)] and
    [y = origin + row * (templateHeight + gap)], with the template's size.
    For a template of non-negative size no two created cards overlap and
    none overlaps a node that was at the top level before.  On an empty
    page every record creates a card, so [K] records fill [ceil(K/4)] rows
    of at most four columns. *)
Theorem new_cards_placed_on_grid :
  getNextAvailableY [] = 0%Z
  /\ (forall first others,
        getNextAvailableY (first :: others)
        = if (max_bottom first others >? 0)%Z
          then (max_bottom first others + 2 * CARD_GAP)%Z else 0%Z)
  /\ forall host msg pg records maps tref tpl t a cs,
      data msg = Some records -> records <> [] ->
      mappings msg = Some maps -> maps <> [] ->
      host (targetSourceId msg) = Some tref -> deref pg tref = Some tpl ->
      tpl = Container t a cs ->
      let st := sync_mapped_data host msg pg in
      let origin := getNextAvailableY pg in
      let w := width (attrs_of tpl) in
      let h := height (attrs_of tpl) in
      let created :=
        misses (buildExistingMap pg) (keys_from (idField msg) 0 records) in
      createdCount st = length created
      /\ length (page st) = length pg + length created
      /\ (forall k key,
            created !! k = Some key ->
            exists c,
              page st !! (length pg + k) = Some c
              /\ notionId (attrs_of c) = key
              /\ x (attrs_of c) = (Z.of_nat (k mod 4) * (w + CARD_GAP))%Z
              /\ y (attrs_of c) = (origin + Z.of_nat (k / 4) * (h + CARD_GAP))%Z
              /\ width (attrs_of c) = w /\ height (attrs_of c) = h)
      /\ ((0 <= w)%Z -> (0 <= h)%Z ->
          (forall k1 k2 c1 c2,
              k1 <> k2 ->
              page st !! (length pg + k1) = Some c1 ->
              page st !! (length pg + k2) = Some c2 ->
              ~ overlap (attrs_of c1) (attrs_of c2))
          /\ (forall i c0 k c,
                i < length pg ->
                page st !! i = Some c0 ->
                page st !! (length pg + k) = Some c ->
                ~ overlap (attrs_of c0) (attrs_of c)))
      /\ (pg = [] ->
          created = keys_from (idField msg) 0 records
          /\ forall k, k < length records ->
               k mod 4 < 4
               /\ k / 4 < (length records + 3) / 4
               /\ (length records - 1) / 4 = (length records + 3) / 4 - 1).
Proof.
  split; [reflexivity |]. split; [exact getNextAvailableY_nonempty |].
  intros host msg pg records maps tref tpl t a cs Hd Hr Hm Hms Hh Ht Hcont
         st origin w h created.
  destruct (sync_mapped_data_outcome host msg pg records maps tref tpl
              Hd Hr Hm Hms Hh Ht)
    as (_ & [(Hcre & _ & _ & _ & Hpage) | (_ & t' & a' & Hleaf)]);
    [| congruence].
  fold st in Hcre, Hpage. fold created in Hcre, Hpage.
  destruct (created_cards_on_page (page st) pg
              (placed_card (componentId msg) (getNextAvailableY pg)
                 (width (attrs_of tpl)) (height (attrs_of tpl)) tpl)
              created Hpage) as (Hlen & Hcards).
  assert (Hcard : forall k c,
             page st !! (length pg + k) = Some c ->
             exists key,
               created !! k = Some key /\ notionId (attrs_of c) = key
               /\ x (attrs_of c) = grid_x w k /\ y (attrs_of c) = grid_y origin h k
               /\ width (attrs_of c) = w /\ height (attrs_of c) = h).
  { intros k c Hc.
    assert (Hk : k < length created).
    { apply lookup_lt_Some in Hc. lia. }
    destruct (lookup_lt_is_Some_2 created k Hk) as (key & Hkey).
    destruct (Hcards k key Hkey) as (c' & Hc' & E).
    assert (c' = c) by congruence. subst c'.
    destruct (skeleton_geometry _ _ E) as (Ex & Ey & Ew & Eh & _ & Eid & _).
    destruct (placed_card_attrs (componentId msg) origin w h tpl k key)
      as (Px & Py & Pw & Ph & Pid & _).
    exists key. split; [exact Hkey |].
    rewrite Ex, Ey, Ew, Eh, Eid. auto. }
  split; [exact Hcre |]. split; [exact Hlen |]. split; [| split].
  - intros k key Hkey. destruct (Hcards k key Hkey) as (c & Hc & _).
    exists c. split; [exact Hc |].
    destruct (Hcard k c Hc) as (key' & Hkey' & Hid & Hx & Hy & Hw & Hhh).
    assert (key' = key) by congruence. subst key'. auto.
  - intros Hw0 Hh0. split.
    + intros k1 k2 c1 c2 Hne H1 H2.
      destruct (Hcard k1 c1 H1) as (_ & _ & _ & Hx1 & Hy1 & Hw1 & Hh1).
      destruct (Hcard k2 c2 H2) as (_ & _ & _ & Hx2 & Hy2 & Hw2 & Hh2).
      unfold overlap. rewrite Hx1, Hx2, Hy1, Hy2, Hw1, Hw2, Hh1, Hh2.
      apply grid_cells_apart; assumption.
    + intros i c0 k c Hi H0 Hc.
      destruct (Hcard k c Hc) as (_ & _ & _ & Hx & Hy & Hw & Hhh).
      destruct (lookup_lt_is_Some_2 pg i Hi) as (c00 & H00).
      assert (Hat : page_at [i] pg = Some c00) by (simpl; rewrite H00; reflexivity).
      destruct (sync_mapped_data_skeleton host msg pg) as (extra & Hs).
      destruct (page_at_prefix_skeleton [i] pg _ extra c00 Hs Hat) as (n' & Hn' & E).
      fold st in Hn'. simpl in Hn'. rewrite H0 in Hn'. simpl in Hn'.
      injection Hn' as <-.
      destruct (skeleton_geometry _ _ E) as (_ & Ey & _ & Eh & _).
      assert (Hin : c00 ∈ pg) by (apply list_elem_of_lookup; eauto).
      destruct (getNextAvailableY_clear pg c00 Hin) as (Hb & _).
      unfold bottom in Hb. unfold overlap.
      rewrite Hy, Ey, Eh. unfold grid_y, CARD_GAP. fold origin in Hb.
      intros (_ & _ & _ & Hov). nia.
  - intros ->. split.
    + subst created. change (buildExistingMap []) with (∅ : gmap string (list path)).
      apply misses_empty_index.
    + intros k Hk.
      destruct (grid_rows_used (length records) k Hk) as (H1 & H2 & H3).
      unfold grid_col, grid_row, CARDS_PER_ROW in *. auto.
Qed.

(* ===================================================================== *)
(** ** The statements above at sample inputs *)
(* ===================================================================== *)


Lemma sync_preserves_position_and_size_witness :
  exists n',
    page_at [1] (page (sync_mapped_data sample_host (sample_message [record_abc])
                         page_abc)) = Some n'
    /\ x (attrs_of n') = 10%Z /\ y (attrs_of n') = 700%Z
    /\ width (attrs_of n') = 100%Z /\ height (attrs_of n') = 50%Z.
Proof.
  exact (proj1 (sync_preserves_position_and_size sample_host
                  (sample_message [record_abc]) page_abc)
           [1] (tagged_card "abc" 10 700) eq_refl).
Defined.


Lemma new_cards_placed_on_grid_witness :
  createdCount (sync_mapped_data sample_host
                  (sample_message [record_a1; record_b]) [node_above])
  = length (misses (buildExistingMap [node_above])
              (keys_from (Some "id") 0 [record_a1; record_b])).
Proof.
  assert (Hrecords : [record_a1; record_b] <> []) by discriminate.
  assert (Hrules : sample_rules <> []) by discriminate.
  exact (proj1 (proj2 (proj2 new_cards_placed_on_grid) sample_host
                  (sample_message [record_a1; record_b]) [node_above]
                  [record_a1; record_b] sample_rules (Elsewhere sample_card)
                  sample_card FRAME (layer "Card") (children_of sample_card)
                  eq_refl Hrecords eq_refl Hrules eq_refl eq_refl eq_refl)).
Defined.

(* ===================================================================== *)
(** ** Writes: they commute or overwrite *)
(* ===================================================================== *)

Lemma map_attrs_compose f g n : map_attrs f (map_attrs g n) = map_attrs (fun a => f (g a)) n.
Proof. destruct n; reflexivity. Qed.

Lemma alter_at_ext g g' p n :
  (forall m, g m = g' m) -> alter_at g p n = alter_at g' p n.
Proof.
  intros H. revert n. induction p as [| i p IH]; intros n; simpl; [apply H |].
  destruct n as [t a | t a cs]; [reflexivity |]. f_equal.
  apply alter_ext_at. intros c _. apply IH.
Qed.

(** Two attribute changes at different nodes, or two that commute on the
    attributes, commute on the tree. *)
Lemma alter_at_attrs_commute f g p q n :
  p <> q \/ (forall a, f (g a) = g (f a)) ->
  alter_at (map_attrs f) p (alter_at (map_attrs g) q n)
  = alter_at (map_attrs g) q (alter_at (map_attrs f) p n).
Proof.
  revert q n. induction p as [| i p IH]; intros [| j q] n H.
  - simpl. destruct H as [H | H]; [congruence |].
    rewrite !map_attrs_compose. destruct n; simpl; rewrite H; reflexivity.
  - simpl. destruct n as [t a | t a cs]; reflexivity.
  - simpl. destruct n as [t a | t a cs]; reflexivity.
  - simpl. destruct n as [t a | t a cs]; [reflexivity |]. f_equal.
    destruct (decide (i = j)) as [-> | Hij].
    + rewrite !list_alter_alter_eq. apply alter_ext_at. intros c _. simpl.
      apply IH. destruct H as [H | H]; [left; congruence | right; exact H].
    + apply list_alter_alter_ne. exact Hij.
Qed.

(** A change of attributes that absorbs an earlier one at the same node. *)
Lemma alter_at_attrs_absorb f g p n :
  (forall a, f (g a) = f a) ->
  alter_at (map_attrs f) p (alter_at (map_attrs g) p n) = alter_at (map_attrs f) p n.
Proof.
  intros H. revert n. induction p as [| i p IH]; intros n; simpl.
  - rewrite map_attrs_compose. destruct n; simpl; rewrite H; reflexivity.
  - destruct n as [t a | t a cs]; [reflexivity |]. f_equal.
    rewrite list_alter_alter_eq. apply alter_ext_at. intros c _. apply IH.
Qed.

Lemma page_alter_attrs_commute f g p q pg :
  p <> q \/ (forall a, f (g a) = g (f a)) ->
  page_alter (map_attrs f) p (page_alter (map_attrs g) q pg)
  = page_alter (map_attrs g) q (page_alter (map_attrs f) p pg).
Proof.
  intros H. destruct p as [| i p], q as [| j q]; simpl; try reflexivity.
  destruct (decide (i = j)) as [-> | Hij].
  - rewrite !list_alter_alter_eq. apply alter_ext_at. intros c _. simpl.
    apply alter_at_attrs_commute.
    destruct H as [H | H]; [left; congruence | right; exact H].
  - apply list_alter_alter_ne. exact Hij.
Qed.

Lemma page_alter_attrs_absorb f g p pg :
  (forall a, f (g a) = f a) ->
  page_alter (map_attrs f) p (page_alter (map_attrs g) p pg)
  = page_alter (map_attrs f) p pg.
Proof.
  intros H. destruct p as [| i p]; simpl; [reflexivity |].
  rewrite list_alter_alter_eq. apply alter_ext_at. intros c _. simpl.
  apply alter_at_attrs_absorb, H.
Qed.

Lemma apply_write_same_field w w' a :
  same_field w w' = true -> apply_write w (apply_write w' a) = apply_write w a.
Proof.
  destruct w as [b | s], w' as [b' | s']; simpl; try discriminate; intros _.
  - reflexivity.
  - unfold parseAndApplyListStyle.
    destruct (numberedPattern_test (hd "" (Str.split_lines s)));
      destruct (numberedPattern_test (hd "" (Str.split_lines s'))); reflexivity.
Qed.

Lemma apply_write_other_field w w' a :
  same_field w w' = false ->
  apply_write w (apply_write w' a) = apply_write w' (apply_write w a).
Proof.
  destruct w as [b | s], w' as [b' | s']; simpl; try discriminate; intros _;
    unfold parseAndApplyListStyle;
    destruct (numberedPattern_test _); reflexivity.
Qed.

(** Of two writes, the later one either commutes with the earlier one or
    makes it unobservable. *)
Lemma page_write_commute_or_absorb (v a : path * write) :
  (forall pg, page_write v (page_write a pg) = page_write a (page_write v pg))
  \/ (forall pg, page_write v (page_write a pg) = page_write v pg).
Proof.
  destruct v as [q w], a as [p w']. unfold page_write. simpl.
  destruct (decide (q = p)) as [-> | Hne].
  - destruct (same_field w w') eqn:E.
    + right. intros pg. apply page_alter_attrs_absorb.
      intros a. apply apply_write_same_field, E.
    + left. intros pg. apply page_alter_attrs_commute. right.
      intros a. apply apply_write_other_field, E.
  - left. intros pg. apply page_alter_attrs_commute. left. exact Hne.
Qed.

Lemma page_write_idem a pg : page_write a (page_write a pg) = page_write a pg.
Proof.
  destruct a as [p w]. unfold page_write. simpl.
  apply page_alter_attrs_absorb. intros a. apply apply_write_same_field.
  destruct w; reflexivity.
Qed.

Lemma page_writes_app ws us pg :
  page_writes (ws ++ us) pg = page_writes us (page_writes ws pg).
Proof. apply fold_left_app. Qed.

(** Writing [a] before a sequence and after it is the same as writing it
    after it only. *)
Lemma page_write_again a ws pg :
  page_write a (page_writes ws (page_write a pg)) = page_write a (page_writes ws pg).
Proof.
  revert pg. induction ws as [| v ws IH]; intros pg; simpl.
  - apply page_write_idem.
  - destruct (page_write_commute_or_absorb v a) as [H | H]; rewrite H.
    + apply IH.
    + reflexivity.
Qed.

Lemma settled_after_write ws a pg :
  settled ws pg -> settled (ws ++ [a]) (page_write a pg).
Proof.
  unfold settled. intros H. rewrite page_writes_app. simpl.
  rewrite page_write_again, H. reflexivity.
Qed.

Lemma settled_after_writes us : forall ws pg,
  settled ws pg -> settled (ws ++ us) (page_writes us pg).
Proof.
  induction us as [| a us IH]; intros ws pg H; simpl.
  - rewrite app_nil_r. exact H.
  - replace (ws ++ a :: us) with ((ws ++ [a]) ++ us) by (rewrite <- app_assoc; reflexivity).
    apply IH, settled_after_write, H.
Qed.

Lemma page_write_app_old a (old added : list node) :
  in_range (length old) a ->
  page_write a (old ++ added) = page_write a old ++ added.
Proof.
  destruct a as [[| i p] w]; unfold page_write, in_range; simpl; [reflexivity |].
  intros Hi. apply alter_app_l, Hi.
Qed.

Lemma page_write_length a pg : length (page_write a pg) = length pg.
Proof. apply page_alter_length. Qed.

Lemma page_writes_app_old ws : forall (old added : list node),
  Forall (in_range (length old)) ws ->
  page_writes ws (old ++ added) = page_writes ws old ++ added.
Proof.
  induction ws as [| a ws IH]; intros old added H; simpl; [reflexivity |].
  inversion H as [| ? ? Ha Hws]; subst.
  rewrite page_write_app_old by exact Ha. apply IH.
  rewrite page_write_length. exact Hws.
Qed.

Lemma settled_grow ws (old added : list node) :
  Forall (in_range (length old)) ws ->
  settled ws old -> settled ws (old ++ added).
Proof.
  unfold settled. intros Hr H. rewrite page_writes_app_old by exact Hr.
  rewrite H. reflexivity.
Qed.

(* ===================================================================== *)
(** ** The field applier makes writes *)
(* ===================================================================== *)

Lemma erase_apply_write w a : erase (apply_write w a) = erase a.
Proof.
  destruct w; simpl; [apply erase_set_visible | apply erase_parseAndApplyListStyle].
Qed.

Lemma node_write_skeleton a n : skeleton (node_write a n) = skeleton n.
Proof.
  apply skeleton_alter_at. intros m. apply skeleton_map_attrs.
  intros b. apply erase_apply_write.
Qed.

Lemma node_writes_skeleton ws n : skeleton (node_writes ws n) = skeleton n.
Proof.
  revert n. induction ws as [| a ws IH]; intros n; simpl; [reflexivity |].
  unfold node_writes in IH. rewrite IH. apply node_write_skeleton.
Qed.

Lemma page_write_skeleton a pg : map skeleton (page_write a pg) = map skeleton pg.
Proof.
  apply page_alter_skeleton. intros m. apply skeleton_map_attrs.
  intros b. apply erase_apply_write.
Qed.

Lemma page_writes_skeleton ws pg : map skeleton (page_writes ws pg) = map skeleton pg.
Proof.
  revert pg. induction ws as [| a ws IH]; intros pg; simpl; [reflexivity |].
  unfold page_writes in IH. rewrite IH. apply page_write_skeleton.
Qed.

Lemma node_writes_app ws us n :
  node_writes (ws ++ us) n = node_writes us (node_writes ws n).
Proof. apply fold_left_app. Qed.

Lemma applyMapping_writes record instance mapping :
  applyMapping record instance mapping
  = node_writes (mapping_writes record instance mapping) instance.
Proof.
  unfold applyMapping, mapping_writes.
  destruct (findChildByName instance (layerName mapping)) as [target |];
    [| reflexivity].
  destruct (record !! dataField mapping) as [[b | z | s |] |]; try reflexivity;
    cbv zeta;
    repeat match goal with
           | |- context [if ?c then _ else _] => destruct c
           end;
    reflexivity.
Qed.

Lemma mapping_writes_same_skeleton record n n' mapping :
  skeleton n = skeleton n' ->
  mapping_writes record n mapping = mapping_writes record n' mapping.
Proof.
  intros H. unfold mapping_writes.
  rewrite (findChildByName_same_skeleton n n' _ H).
  destruct (findChildByName n' (layerName mapping)) as [target |]; [| reflexivity].
  rewrite (is_text_at_same_skeleton n n' target H). reflexivity.
Qed.

Lemma fill_writes record mappings : forall instance0 instance,
  skeleton instance = skeleton instance0 ->
  fold_left (applyMapping record) mappings instance
  = node_writes (flat_map (mapping_writes record instance0) mappings) instance.
Proof.
  induction mappings as [| m ms IH]; intros instance0 instance H; simpl;
    [reflexivity |].
  rewrite node_writes_app, applyMapping_writes.
  rewrite (mapping_writes_same_skeleton record instance instance0 m H).
  apply IH. rewrite node_writes_skeleton. exact H.
Qed.

Lemma updated_writes mappings record n :
  updated mappings record n = node_writes (update_writes mappings record n) n.
Proof.
  unfold updated, update_writes. destruct n as [t a | t a cs]; [reflexivity |].
  simpl updateInstance. rewrite fillInstanceData_container. simpl.
  apply fill_writes. reflexivity.
Qed.

Lemma update_writes_same_skeleton mappings record n n' :
  skeleton n = skeleton n' ->
  update_writes mappings record n = update_writes mappings record n'.
Proof.
  intros H. unfold update_writes.
  destruct n as [t a | t a cs], n' as [t' a' | t' a' cs']; try discriminate;
    [reflexivity |].
  apply flat_map_ext. intros m. apply mapping_writes_same_skeleton, H.
Qed.

Lemma alter_at_app g p p' n :
  alter_at g (p ++ p') n = alter_at (alter_at g p') p n.
Proof.
  revert n. induction p as [| i p IH]; intros n; simpl; [reflexivity |].
  destruct n as [t a | t a cs]; [| f_equal; apply alter_ext_at; intros c _; apply IH].
  destruct p'; reflexivity.
Qed.

Lemma alter_at_ext_at g g' p n :
  (forall m, node_at p n = Some m -> g m = g' m) ->
  alter_at g p n = alter_at g' p n.
Proof.
  revert n. induction p as [| i p IH]; intros n H; simpl; [apply H; reflexivity |].
  destruct n as [t a | t a cs]; [reflexivity |]. f_equal.
  apply alter_ext_at. intros c Hc. apply IH. intros m Hm. apply H.
  simpl. rewrite Hc. exact Hm.
Qed.

Lemma alter_at_miss g p n : node_at p n = None -> alter_at g p n = n.
Proof.
  revert n. induction p as [| i p IH]; intros n; simpl; [discriminate |].
  destruct n as [t a | t a cs]; [reflexivity |]. intros H. f_equal.
  destruct (cs !! i) as [c |] eqn:Hc; [| apply alter_miss, Hc].
  rewrite (alter_ext_at _ (fun c => c)).
  - apply list_alter_id. reflexivity.
  - intros c' Hc'. assert (c' = c) by congruence. subst c'. apply IH, H.
Qed.

Lemma page_alter_ext_at g g' q pg :
  (forall m, page_at q pg = Some m -> g m = g' m) ->
  page_alter g q pg = page_alter g' q pg.
Proof.
  destruct q as [| i p]; simpl; [reflexivity |]. intros H.
  apply alter_ext_at. intros c Hc. apply alter_at_ext_at. intros m Hm.
  apply H. rewrite Hc. exact Hm.
Qed.

Lemma page_alter_miss g q pg : page_at q pg = None -> page_alter g q pg = pg.
Proof.
  destruct q as [| i p]; simpl; [reflexivity |]. intros H.
  destruct (pg !! i) as [c |] eqn:Hc; [| apply alter_miss, Hc].
  rewrite (alter_ext_at _ (fun c => c)).
  - apply list_alter_id. reflexivity.
  - intros c' Hc'. assert (c' = c) by congruence. subst c'.
    apply alter_at_miss, H.
Qed.

Lemma page_alter_node_write a q pg :
  q <> [] -> page_alter (node_write a) q pg = page_write (under q a) pg.
Proof.
  intros Hq. destruct q as [| i p]; [congruence |].
  unfold page_write, under, node_write. simpl.
  apply alter_ext_at. intros c _. symmetry. apply alter_at_app.
Qed.

Lemma page_alter_node_writes ws : forall q pg,
  q <> [] ->
  page_alter (node_writes ws) q pg = page_writes (map (under q) ws) pg.
Proof.
  induction ws as [| a ws IH]; intros q pg Hq.
  - destruct q as [| i p]; [congruence |]. simpl.
    rewrite (alter_ext_at _ (fun c => c)).
    + apply list_alter_id. reflexivity.
    + intros c _. rewrite (alter_at_ext _ (fun m => m)) by reflexivity.
      clear. revert c. induction p as [| j p IHp]; intros c; simpl; [reflexivity |].
      destruct c as [t a | t a cs]; [reflexivity |]. f_equal.
      rewrite (alter_ext_at _ (fun c => c)); [apply list_alter_id; reflexivity |].
      intros c' _. apply IHp.
  - simpl. rewrite <- (IH q (page_write (under q a) pg) Hq).
    rewrite <- (page_alter_node_write a q pg Hq).
    destruct q as [| i p]; [congruence |]. simpl.
    rewrite list_alter_alter_eq. apply alter_ext_at. intros c _. simpl.
    clear. revert c. induction p as [| j p IHp]; intros c; simpl; [reflexivity |].
    destruct c as [t a0 | t a0 cs]; [reflexivity |]. f_equal.
    rewrite list_alter_alter_eq. apply alter_ext_at. intros c' _. apply IHp.
Qed.

(** [updateInstance] on an element of the page, as writes to the page. *)
Lemma page_alter_updated mappings record q pg n :
  page_at q pg = Some n ->
  page_alter (updated mappings record) q pg
  = page_writes (map (under q) (update_writes mappings record n)) pg.
Proof.
  intros Hn.
  assert (Hq : q <> []) by (intros ->; discriminate).
  rewrite <- (page_alter_node_writes _ q pg Hq).
  apply page_alter_ext_at. intros m Hm. assert (m = n) by congruence. subst m.
  apply updated_writes.
Qed.

Lemma page_at_none_same_skeleton q pg pg' :
  map skeleton pg = map skeleton pg' ->
  page_at q pg = None -> page_at q pg' = None.
Proof.
  intros Hs Hn.
  assert (E : skeleton <$> page_at q pg' = None).
  { rewrite <- page_at_skeleton, <- Hs, page_at_skeleton, Hn. reflexivity. }
  destruct (page_at q pg'); [discriminate | reflexivity].
Qed.

Lemma step_writes_same_skeleton mappings record qs pg pg' :
  map skeleton pg = map skeleton pg' ->
  step_writes mappings record qs pg = step_writes mappings record qs pg'.
Proof.
  intros Hs. unfold step_writes. apply flat_map_ext. intros q.
  destruct (page_at q pg) as [n |] eqn:Hn.
  - destruct (page_at_same_skeleton q pg pg' n Hs Hn) as (n' & -> & E).
    rewrite (update_writes_same_skeleton mappings record n' n E). reflexivity.
  - rewrite (page_at_none_same_skeleton q pg pg' Hs Hn). reflexivity.
Qed.

Lemma page_updates_writes mappings record qs : forall pg0 pg,
  map skeleton pg = map skeleton pg0 ->
  page_updates mappings record qs pg
  = page_writes (step_writes mappings record qs pg0) pg.
Proof.
  induction qs as [| q qs IH]; intros pg0 pg Hs; [reflexivity |].
  unfold page_updates, step_writes. simpl.
  rewrite page_writes_app.
  fold (page_updates mappings record qs). fold (step_writes mappings record qs pg0).
  assert (Hfirst :
            page_alter (updated mappings record) q pg
            = page_writes match page_at q pg0 with
                          | Some n => map (under q) (update_writes mappings record n)
                          | None => []
                          end pg).
  { destruct (page_at q pg) as [n |] eqn:Hn.
    - destruct (page_at_same_skeleton q pg pg0 n Hs Hn) as (n0 & -> & E).
      rewrite (update_writes_same_skeleton mappings record n0 n E).
      apply page_alter_updated, Hn.
    - rewrite (page_at_none_same_skeleton q pg pg0 Hs Hn).
      apply page_alter_miss, Hn. }
  rewrite Hfirst. apply IH. rewrite page_writes_skeleton. exact Hs.
Qed.

Lemma steps_writes_same_skeleton mappings steps pg pg' :
  map skeleton pg = map skeleton pg' ->
  steps_writes mappings steps pg = steps_writes mappings steps pg'.
Proof.
  intros Hs. unfold steps_writes. apply flat_map_ext. intros s.
  apply step_writes_same_skeleton, Hs.
Qed.

(** Replaying the update branch for a sequence of records is a sequence of
    writes that the skeleton of the page determines. *)
Lemma replay_writes mappings steps : forall pg0 pg,
  map skeleton pg = map skeleton pg0 ->
  replay mappings steps pg = page_writes (steps_writes mappings steps pg0) pg.
Proof.
  induction steps as [| s steps IH]; intros pg0 pg Hs; [reflexivity |].
  unfold replay, steps_writes. simpl. rewrite page_writes_app.
  fold (replay mappings steps). fold (steps_writes mappings steps pg0).
  rewrite (page_updates_writes mappings s.1 s.2 pg0 pg Hs).
  apply IH. rewrite page_writes_skeleton. exact Hs.
Qed.

(* ===================================================================== *)
(** ** Tagged nodes of a growing page *)
(* ===================================================================== *)

Lemma list_children_app visit p l1 l2 i :
  list_children visit p (l1 ++ l2) i
  = list_children visit p l1 i ++ list_children visit p l2 (i + length l1).
Proof.
  revert i. induction l1 as [| c l1 IH]; intros i; simpl.
  - rewrite Nat.add_0_r. reflexivity.
  - rewrite IH, <- app_assoc. do 3 f_equal. lia.
Qed.

Lemma list_children_map visit visit' (h : path * node -> path * node) p cs i :
  Forall (fun c => forall q, visit' q c = map h (visit q c)) cs ->
  list_children visit' p cs i = map h (list_children visit p cs i).
Proof.
  intros H. revert i. induction H as [| c cs Hc _ IH]; intros i; simpl;
    [reflexivity |].
  rewrite map_app, Hc, IH. reflexivity.
Qed.

Lemma nodes_under_skeleton n : forall p,
  nodes_under p (skeleton n) = map (fun qc => (qc.1, skeleton qc.2)) (nodes_under p n).
Proof.
  induction n as [t a | t a cs IH] using node_ind'; intros p; [reflexivity |].
  simpl. f_equal.
  assert (E : forall (f : path -> node -> list (path * node)) l i,
             list_children f p (map skeleton l) i
             = list_children (fun q c => f q (skeleton c)) p l i).
  { intros f l. induction l as [| c l IHl]; intros i; simpl; [reflexivity |].
    rewrite IHl. reflexivity. }
  rewrite E.
  apply (list_children_map (fun q c => nodes_under q c)
           (fun q c => nodes_under q (skeleton c))).
  exact IH.
Qed.

Lemma all_nodes_skeleton pg :
  all_nodes (map skeleton pg)
  = map (fun qc => (qc.1, skeleton qc.2)) (all_nodes pg).
Proof.
  unfold all_nodes, nodes_from.
  assert (E : forall l i,
             list_children nodes_under [] (map skeleton l) i
             = list_children (fun q c => nodes_under q (skeleton c)) [] l i).
  { intros l. induction l as [| c l IHl]; intros i; simpl; [reflexivity |].
    rewrite IHl. reflexivity. }
  rewrite E.
  apply (list_children_map nodes_under (fun q c => nodes_under q (skeleton c))).
  apply Forall_forall. intros c _ q. apply nodes_under_skeleton.
Qed.

Lemma tagged_in_skeleton key l :
  tagged_in key (map (fun qc => (qc.1, skeleton qc.2)) l) = tagged_in key l.
Proof.
  induction l as [| [q c] l IH]; [reflexivity |].
  simpl map. rewrite !tagged_in_cons, IH, skeleton_attrs. reflexivity.
Qed.

(** Which nodes carry a tag is settled by the skeleton of the page. *)
Lemma tagged_same_skeleton key pg pg' :
  map skeleton pg = map skeleton pg' -> tagged key pg = tagged key pg'.
Proof.
  intros H. unfold tagged.
  rewrite <- (tagged_in_skeleton key (all_nodes pg)), <- all_nodes_skeleton, H.
  rewrite all_nodes_skeleton. apply tagged_in_skeleton.
Qed.

Lemma nodes_under_prefix n : forall p q,
  nodes_under (p ++ q) n = map (fun qc => (p ++ qc.1, qc.2)) (nodes_under q n).
Proof.
  induction n as [t a | t a cs IH] using node_ind'; intros p q; [reflexivity |].
  simpl. f_equal.
  assert (E : forall l i,
             Forall (fun c => forall p q,
                         nodes_under (p ++ q) c
                         = map (fun qc => (p ++ qc.1, qc.2)) (nodes_under q c)) l ->
             list_children (fun q c => nodes_under q c) (p ++ q) l i
             = map (fun qc => (p ++ qc.1, qc.2))
                   (list_children (fun q c => nodes_under q c) q l i)).
  { intros l i H. revert i. induction H as [| c l Hc _ IHl]; intros i; simpl;
      [reflexivity |].
    rewrite map_app, IHl, <- app_assoc, Hc. reflexivity. }
  apply E, IH.
Qed.

Lemma tagged_in_prefix key p l :
  tagged_in key (map (fun qc => (p ++ qc.1, qc.2)) l)
  = map (fun q => p ++ q) (tagged_in key l).
Proof.
  induction l as [| [q c] l IH]; [reflexivity |].
  simpl map. rewrite !tagged_in_cons, IH. simpl.
  destruct (decide (notionId (attrs_of c) = key)); reflexivity.
Qed.

(** The tagged nodes at and below a top-level node: the node itself if it
    carries the tag, then those among its descendants. *)
Lemma tagged_in_top key i c :
  tagged_in key (nodes_under [i] c)
  = (if decide (notionId (attrs_of c) = key) then [[i]] else [])
    ++ map (fun q => i :: q) (tagged key (children_of c)).
Proof.
  assert (E : nodes_under [i] c
              = ([i], c) :: map (fun qc => ([i] ++ qc.1, qc.2))
                                (all_nodes (children_of c))).
  { destruct c as [t a | t a cs]; [reflexivity |]. simpl. f_equal.
    unfold all_nodes, nodes_from.
    assert (G : forall l j,
               list_children (fun q c => nodes_under q c) [i] l j
               = map (fun qc => (i :: qc.1, qc.2))
                     (list_children nodes_under [] l j)).
    { intros l. induction l as [| c l IHl]; intros j; simpl; [reflexivity |].
      rewrite map_app, IHl.
      pose proof (nodes_under_prefix c [i] [j]) as Hp. simpl in Hp.
      rewrite Hp. reflexivity. }
    apply G. }
  rewrite E, tagged_in_cons, tagged_in_prefix. unfold tagged.
  destruct (decide (notionId (attrs_of c) = key)); reflexivity.
Qed.

Lemma tagged_snoc key pg c :
  tagged key (pg ++ [c])
  = tagged key pg
    ++ (if decide (notionId (attrs_of c) = key) then [[length pg]] else [])
    ++ map (fun q => length pg :: q) (tagged key (children_of c)).
Proof.
  unfold tagged at 1, all_nodes, nodes_from.
  rewrite list_children_app, tagged_in_app. simpl.
  rewrite app_nil_r, tagged_in_top. reflexivity.
Qed.

Lemma children_of_skeleton n : children_of (skeleton n) = map skeleton (children_of n).
Proof. destruct n; reflexivity. Qed.

Lemma children_of_placed_card cid startY w h tpl k key :
  children_of (placed_card cid startY w h tpl k key) = children_of tpl.
Proof.
  unfold placed_card, instance_of, createInstance, clone.
  destruct tpl as [t a | t a cs]; [reflexivity |]. destruct t; reflexivity.
Qed.

(* ===================================================================== *)
(** ** What one record does to the page *)
(* ===================================================================== *)

Lemma fillInstanceData_updated n record mappings filled :
  fillInstanceData n record mappings = Some filled ->
  filled = updated mappings record n.
Proof.
  unfold updated. destruct n as [t a | t a cs]; simpl.
  - destruct mappings; [intros [= <-]; reflexivity | discriminate].
  - intros ->. reflexivity.
Qed.

Lemma keyed_app idf i rs1 rs2 :
  keyed idf i (rs1 ++ rs2) = keyed idf i rs1 ++ keyed idf (i + length rs1) rs2.
Proof.
  revert i. induction rs1 as [| r rs1 IH]; intros i; simpl.
  - rewrite Nat.add_0_r. reflexivity.
  - rewrite IH. do 3 f_equal. lia.
Qed.

Lemma keyed_keys idf i rs : map snd (keyed idf i rs) = keys_from idf i rs.
Proof.
  revert i. induction rs as [| r rs IH]; intros i; simpl;
    [| rewrite IH]; reflexivity.
Qed.

Lemma page_at_in_range q pg n :
  page_at q pg = Some n -> exists i p, q = i :: p /\ i < length pg.
Proof.
  destruct q as [| i p]; simpl; [discriminate |].
  destruct (pg !! i) as [c |] eqn:Hc; [| discriminate].
  intros _. exists i, p. split; [reflexivity |]. eapply lookup_lt_Some, Hc.
Qed.

Lemma step_writes_in_range mappings record qs pg :
  Forall (in_range (length pg)) (step_writes mappings record qs pg).
Proof.
  unfold step_writes. apply Forall_forall. intros a Ha.
  apply list_elem_of_In, in_flat_map in Ha as (q & _ & Ha).
  destruct (page_at q pg) as [n |] eqn:Hn; [| destruct Ha].
  apply in_map_iff in Ha as (b & <- & _).
  destruct (page_at_in_range q pg n Hn) as (i & p & -> & Hi).
  exact Hi.
Qed.

Lemma steps_writes_in_range mappings steps pg :
  Forall (in_range (length pg)) (steps_writes mappings steps pg).
Proof.
  unfold steps_writes. apply Forall_forall. intros a Ha.
  apply list_elem_of_In, in_flat_map in Ha as (s & _ & Ha).
  pose proof (step_writes_in_range mappings s.1 s.2 pg) as H.
  rewrite Forall_forall in H. apply H, list_elem_of_In, Ha.
Qed.

Lemma step_writes_grow mappings record qs (pg added : list node) :
  (forall q, q ∈ qs -> is_Some (page_at q pg)) ->
  step_writes mappings record qs (pg ++ added) = step_writes mappings record qs pg.
Proof.
  intros H. unfold step_writes. induction qs as [| q qs IH]; [reflexivity |].
  simpl. rewrite IH by (intros q' Hq'; apply H; right; exact Hq').
  destruct (H q) as (n & Hn); [left |].
  rewrite Hn, (page_at_app_old q pg added n Hn). reflexivity.
Qed.

Lemma steps_writes_grow mappings steps (pg added : list node) :
  (forall s q, s ∈ steps -> q ∈ s.2 -> is_Some (page_at q pg)) ->
  steps_writes mappings steps (pg ++ added) = steps_writes mappings steps pg.
Proof.
  intros H. unfold steps_writes. induction steps as [| s steps IH]; [reflexivity |].
  simpl. rewrite IH by (intros s' q Hs'; apply H; right; exact Hs').
  rewrite step_writes_grow; [reflexivity |].
  intros q Hq. apply (H s q); [left | exact Hq].
Qed.

Lemma steps_of_valid pairs pg s q :
  s ∈ steps_of pairs pg -> q ∈ s.2 -> is_Some (page_at q pg).
Proof.
  unfold steps_of. intros Hs Hq.
  apply list_elem_of_In, in_map_iff in Hs as (rk & <- & _). simpl in Hq.
  destruct (tagged_valid _ _ _ Hq) as (c & Hc & _). eauto.
Qed.

Section RecordStep.
Variables (cid : string) (ms : list FieldMapping) (idf : option string).
Variables (tref : node_ref) (n : nat) (startY w h : Z).

(** The page after one record: the update branch on the elements found,
    or the update of a fresh copy of the template put at the end. *)
Lemma sync_record_page i record st st' :
  sync_record cid ms idf tref n startY w h i record st = Normal st' ->
  let key := recordId record idf i in
  (is_hit (existingMap st) key = true
   /\ page st' = page_updates ms record (hits (existingMap st) key) (page st))
  \/ (is_hit (existingMap st) key = false
      /\ exists tpl',
          deref (page st) tref = Some tpl'
          /\ page st'
             = page_updates ms record [[length (page st)]]
                 (page st ++ [placed_card cid startY w h tpl' (newIndex st) key])).
Proof.
  intros H key. unfold sync_record in H. fold key in H.
  assert (Hmiss :
            forall st1, insert_new cid ms tref startY w h record key st = Normal st1 ->
            exists tpl',
              deref (page st) tref = Some tpl'
              /\ page st1
                 = page_updates ms record [[length (page st)]]
                     (page st ++ [placed_card cid startY w h tpl' (newIndex st) key])).
  { intros st1. unfold insert_new.
    destruct (deref (page st) tref) as [tpl' |]; [| discriminate].
    change (map_attrs (set_sourceComponentId cid)
              (map_attrs (set_notionId key)
                 (map_attrs (set_position (grid_x w (newIndex st))
                                          (grid_y startY h (newIndex st)))
                    (if is_component tpl' then createInstance tpl' else clone tpl'))))
      with (placed_card cid startY w h tpl' (newIndex st) key).
    destruct (fillInstanceData _ record ms) as [filled |] eqn:Hfill; [| discriminate].
    intros [= <-]. exists tpl'. split; [reflexivity |]. simpl.
    rewrite (fillInstanceData_updated _ _ _ _ Hfill).
    unfold page_updates. simpl.
    pose proof (alter_app_r (updated ms record) (page st)
                  [placed_card cid startY w h tpl' (newIndex st) key] 0) as Ha.
    rewrite Nat.add_0_r in Ha. simpl in Ha. symmetry. exact Ha. }
  unfold is_hit, hits.
  destruct (existingMap st !! key) as [[| q more] |] eqn:Elook; simpl.
  - right. split; [reflexivity |].
    destruct (insert_new cid ms tref startY w h record key st) as [st1 | st1] eqn:E;
      [| discriminate].
    injection H as <-. apply (Hmiss st1 eq_refl).
  - left. split; [reflexivity |]. injection H as <-.
    rewrite update_existing_fold. reflexivity.
  - right. split; [reflexivity |].
    destruct (insert_new cid ms tref startY w h record key st) as [st1 | st1] eqn:E;
      [| discriminate].
    injection H as <-. apply (Hmiss st1 eq_refl).
Qed.
End RecordStep.

(* ===================================================================== *)
(** ** A pass leaves a page on which its updates are settled *)
(* ===================================================================== *)

Lemma keyed_elem idf i rs rk :
  rk ∈ keyed idf i rs -> rk.2 ∈ keys_from idf i rs.
Proof.
  intros H. rewrite <- keyed_keys. apply list_elem_of_In, in_map.
  apply list_elem_of_In, H.
Qed.

Lemma steps_of_same pairs pg pg' :
  (forall rk, rk ∈ pairs -> tagged rk.2 pg' = tagged rk.2 pg) ->
  steps_of pairs pg' = steps_of pairs pg.
Proof.
  intros H. unfold steps_of. apply map_ext_in. intros rk Hrk.
  rewrite H by (apply list_elem_of_In, Hrk). reflexivity.
Qed.

Lemma steps_writes_snoc mappings steps s pg :
  steps_writes mappings (steps ++ [s]) pg
  = steps_writes mappings steps pg ++ step_writes mappings s.1 s.2 pg.
Proof.
  unfold steps_writes. rewrite flat_map_app. simpl. rewrite app_nil_r. reflexivity.
Qed.

Lemma settled_replay mappings steps pg :
  replay mappings steps pg = pg -> settled (steps_writes mappings steps pg) pg.
Proof.
  intros H. unfold settled.
  rewrite <- (replay_writes mappings steps pg pg eq_refl). exact H.
Qed.

Lemma tagged_children_same_skeleton key n n' :
  skeleton n = skeleton n' ->
  tagged key (children_of n) = tagged key (children_of n').
Proof.
  intros H. apply tagged_same_skeleton.
  rewrite <- !children_of_skeleton, H. reflexivity.
Qed.

Section Idempotence.
Variables (cid : string) (ms : list FieldMapping) (idf : option string).
Variables (tref : node_ref) (n : nat) (startY w h : Z).
Variables (pg : list node) (tpl : node) (posted0 : list ui_message).
Variable allkeys : list string.
Hypothesis Htpl : deref pg tref = Some tpl.
Hypothesis Hcont : exists t a cs, tpl = Container t a cs.
Hypothesis Hinner : forall key, key ∈ allkeys -> tagged key (children_of tpl) = [].

Local Abbreviation settled_inv :=
  (idem_inv cid ms idf n startY w h pg tpl posted0 allkeys).

Lemma sync_record_idem done record st :
  settled_inv done st ->
  recordId record idf (length done) ∈ allkeys ->
  recordId record idf (length done) ∉ keys_from idf 0 done ->
  (forall k, k ∈ keys_from idf 0 done -> k ∈ allkeys) ->
  exists st',
    sync_record cid ms idf tref n startY w h (length done) record st = Normal st'
    /\ settled_inv (done ++ [record]) st'.
Proof.
  intros (Hpass & Hrep & Hun & Hne) Hkey Hfresh Hdone.
  set (key := recordId record idf (length done)) in *.
  pose proof (sync_record_inv cid ms idf tref n startY w h pg tpl
                (buildExistingMap pg) posted0 Htpl done record st Hpass) as Hstep.
  destruct (sync_record cid ms idf tref n startY w h (length done) record st)
    as [st' | st'] eqn:E.
  2:{ destruct Hstep as (_ & _ & _ & _ & t & a & Hleaf).
      destruct Hcont as (t' & a' & cs & Hc). congruence. }
  exists st'. split; [reflexivity |]. split; [exact Hstep |].
  assert (Hk0 : key <> "") by apply recordId_nonempty.
  assert (Hkeys : keys_from idf 0 (done ++ [record]) = keys_from idf 0 done ++ [key]).
  { rewrite keys_from_app. reflexivity. }
  assert (Hkeyed : keyed idf 0 (done ++ [record]) = keyed idf 0 done ++ [(record, key)]).
  { rewrite keyed_app. reflexivity. }
  assert (Hseen : forall rk, rk ∈ keyed idf 0 done -> rk.2 ∈ allkeys /\ rk.2 <> key).
  { intros rk Hrk. apply keyed_elem in Hrk. split; [apply Hdone, Hrk |].
    intros Heq. apply Hfresh. rewrite <- Heq. exact Hrk. }
  assert (Hidx : existingMap st = buildExistingMap pg) by apply Hpass.
  assert (Hhits : hits (existingMap st) key = tagged key pg).
  { rewrite Hidx. apply hits_buildExistingMap, Hk0. }
  assert (Hnow : tagged key (page st) = tagged key pg) by (apply Hun; assumption).
  destruct (sync_record_page cid ms idf tref n startY w h (length done) record st st' E)
    as [(Hh & Hp) | (Hh & tpl' & Hd & Hp)]; fold key in Hh, Hp.
  - (* the key is in the index: update in place *)
    rewrite Hhits in Hp.
    assert (Hs : map skeleton (page st') = map skeleton (page st)).
    { rewrite Hp. apply updates_skeleton. }
    assert (Htag : forall k, tagged k (page st') = tagged k (page st)).
    { intros k. apply tagged_same_skeleton, Hs. }
    assert (Hfound : tagged key pg <> []).
    { unfold is_hit in Hh. rewrite Hhits in Hh.
      destruct (tagged key pg); [discriminate | discriminate]. }
    split; [| split].
    + rewrite Hkeyed. unfold steps_of. rewrite map_app. simpl.
      fold (steps_of (keyed idf 0 done) (page st')).
      rewrite (steps_of_same _ (page st) (page st')) by (intros; apply Htag).
      rewrite Htag, Hnow.
      rewrite (replay_writes ms _ (page st) (page st') Hs), steps_writes_snoc.
      simpl. rewrite Hp.
      rewrite (page_updates_writes ms record (tagged key pg) (page st) (page st) eq_refl).
      apply settled_after_writes, settled_replay, Hrep.
    + intros k Hk Hnk. rewrite Htag. apply Hun; [exact Hk |].
      intros Hin. apply Hnk. rewrite Hkeys. apply elem_of_app. left. exact Hin.
    + intros k Hk. rewrite Hkeys in Hk. apply elem_of_app in Hk as [Hk | Hk].
      * rewrite Htag. apply Hne, Hk.
      * apply list_elem_of_singleton in Hk as ->. rewrite Htag, Hnow. exact Hfound.
  - (* the key is new: a copy of the template is appended and filled *)
    set (placed := placed_card cid startY w h tpl' (newIndex st) key) in *.
    set (page1 := page st ++ [placed]) in *.
    assert (Hs : map skeleton (page st') = map skeleton page1).
    { rewrite Hp. apply updates_skeleton. }
    assert (Hnone : tagged key pg = []).
    { unfold is_hit in Hh. rewrite Hhits in Hh.
      destruct (tagged key pg); [reflexivity | discriminate]. }
    assert (Hsk : skeleton tpl' = skeleton tpl).
    { destruct Hpass as (_ & _ & _ & _ & _ & Hpage).
      destruct (skeleton_split _ _ _ Hpage) as (old & added & Hst & Hold & _).
      destruct (deref_same_skeleton tref pg old added tpl Htpl Hold)
        as (tpl'' & Hd' & Hsk').
      rewrite <- Hst in Hd'. congruence. }
    assert (Htag : forall k, k ∈ allkeys ->
               tagged k (page st')
               = tagged k (page st)
                 ++ (if decide (key = k) then [[length (page st)]] else [])).
    { intros k Hk. rewrite (tagged_same_skeleton k _ _ Hs). unfold page1.
      rewrite tagged_snoc.
      assert (Hch : children_of placed = children_of tpl')
        by apply children_of_placed_card.
      rewrite Hch.
      rewrite (tagged_children_same_skeleton k tpl' tpl Hsk), (Hinner k Hk).
      simpl. rewrite app_nil_r.
      destruct (placed_card_attrs cid startY w h tpl' (newIndex st) key)
        as (_ & _ & _ & _ & Hid & _).
      fold placed in Hid. rewrite Hid. reflexivity. }
    assert (Htag_key : tagged key (page st') = [[length (page st)]]).
    { rewrite (Htag key Hkey), Hnow, Hnone.
      destruct (decide (key = key)); [reflexivity | congruence]. }
    assert (Htag_other : forall k, k ∈ allkeys -> k <> key ->
               tagged k (page st') = tagged k (page st)).
    { intros k Hk Hneq. rewrite (Htag k Hk).
      destruct (decide (key = k)); [congruence | apply app_nil_r]. }
    split; [| split].
    + rewrite Hkeyed. unfold steps_of. rewrite map_app. simpl.
      fold (steps_of (keyed idf 0 done) (page st')).
      rewrite (steps_of_same _ (page st) (page st'))
        by (intros rk Hrk; apply Htag_other; apply Hseen, Hrk).
      rewrite Htag_key.
      rewrite (replay_writes ms _ page1 (page st') Hs), steps_writes_snoc.
      simpl. unfold page1 at 1.
      rewrite steps_writes_grow by (intros s q; apply steps_of_valid).
      rewrite Hp.
      rewrite (page_updates_writes ms record [[length (page st)]] page1 page1 eq_refl).
      apply settled_after_writes. unfold page1.
      apply settled_grow; [apply steps_writes_in_range | apply settled_replay, Hrep].
    + intros k Hk Hnk.
      assert (Hneq : k <> key).
      { intros ->. apply Hnk. rewrite Hkeys. apply elem_of_app. right.
        apply list_elem_of_singleton. reflexivity. }
      rewrite (Htag_other k Hk Hneq). apply Hun; [exact Hk |].
      intros Hin. apply Hnk. rewrite Hkeys. apply elem_of_app. left. exact Hin.
    + intros k Hk. rewrite Hkeys in Hk. apply elem_of_app in Hk as [Hk | Hk].
      * rewrite Htag_other; [apply Hne, Hk | apply Hdone, Hk |].
        intros ->. apply Hfresh, Hk.
      * apply list_elem_of_singleton in Hk as ->. rewrite Htag_key. discriminate.
Qed.

Lemma sync_loop_idem records : forall done st,
  settled_inv done st ->
  NoDup (keys_from idf 0 (done ++ records)) ->
  (forall k, k ∈ keys_from idf 0 (done ++ records) -> k ∈ allkeys) ->
  exists st',
    sync_loop cid ms idf tref n startY w h records (length done) st = Normal st'
    /\ settled_inv (done ++ records) st'.
Proof.
  induction records as [| record rest IH]; intros done st Hinv Hnd Hall; simpl.
  - rewrite app_nil_r. eauto.
  - assert (Hkeys : keys_from idf 0 (done ++ record :: rest)
                    = keys_from idf 0 done
                      ++ recordId record idf (length done)
                         :: keys_from idf (S (length done)) rest).
    { rewrite keys_from_app. reflexivity. }
    rewrite Hkeys in Hnd, Hall.
    pose proof (proj1 (NoDup_app _ _) Hnd) as (_ & Hfresh & _).
    destruct (sync_record_idem done record st Hinv) as (st' & Hrec & Hinv').
    + apply Hall, elem_of_app. right. left.
    + intros Hin. apply (Hfresh _ Hin). left.
    + intros k Hk. apply Hall, elem_of_app. left. exact Hk.
    + rewrite Hrec.
      specialize (IH (done ++ [record]) st' Hinv').
      rewrite length_app, Nat.add_1_r, <- app_assoc in IH. simpl in IH.
      apply IH; rewrite Hkeys; assumption.
Qed.
End Idempotence.

(* ===================================================================== *)
(** ** A pass in which every record is matched *)
(* ===================================================================== *)

Section AllHits.
Variables (cid : string) (ms : list FieldMapping) (idf : option string).
Variables (tref : node_ref) (n : nat) (startY w h : Z).

Lemma sync_loop_all_hits records : forall i st,
  (forall k, k ∈ keys_from idf i records -> is_hit (existingMap st) k = true) ->
  exists st',
    sync_loop cid ms idf tref n startY w h records i st = Normal st'
    /\ page st'
       = replay ms (map (fun rk => (rk.1, hits (existingMap st) rk.2))
                        (keyed idf i records)) (page st)
    /\ existingMap st' = existingMap st
    /\ createdCount st' = createdCount st
    /\ updatedCount st'
       = updatedCount st
         + sum_list (map (fun k => length (hits (existingMap st) k))
                         (keys_from idf i records))
    /\ posted st'
       = posted st ++ map (fun j => StatusProgress (S j) n) (seq i (length records)).
Proof.
  induction records as [| record rest IH]; intros i st Hall; simpl.
  - exists st. rewrite Nat.add_0_r, app_nil_r. repeat split.
  - set (key := recordId record idf i).
    assert (Hh : is_hit (existingMap st) key = true) by (apply Hall; left).
    unfold sync_record. fold key.
    unfold is_hit, hits in Hh.
    destruct (existingMap st !! key) as [[| q more] |] eqn:Elook;
      try discriminate. clear Hh.
    rewrite update_existing_fold.
    match goal with
    | |- context [sync_loop _ _ _ _ _ _ _ _ rest (S i) ?s] => set (st1 := s)
    end.
    destruct (IH (S i) st1) as (st' & Hloop & Hpage & Hidx & Hcre & Hupd & Hpost).
    { intros k Hk. apply Hall. right. exact Hk. }
    exists st'. split; [exact Hloop |].
    assert (Hhits : hits (existingMap st) key = q :: more)
      by (unfold hits; rewrite Elook; reflexivity).
    split; [| split; [| split; [| split]]].
    + rewrite Hpage. unfold replay at 2. simpl. rewrite Hhits. reflexivity.
    + rewrite Hidx. reflexivity.
    + rewrite Hcre. reflexivity.
    + rewrite Hupd. subst st1. simpl. fold key. rewrite Hhits. simpl. lia.
    + rewrite Hpost. subst st1. simpl. rewrite <- app_assoc. reflexivity.
Qed.
End AllHits.

(* ===================================================================== *)
(** ** Running a pass twice *)
(* ===================================================================== *)

(** C1, as stated, fails: with the same identifier twice in a batch the
    first pass creates two cards, one per record; the second pass then
    updates both cards for each record.  It reports four updates, where
    one identifier carried by two elements would give two, and it changes
    the title that the first pass gave the first card. *)
Lemma sync_twice_duplicate_keys_counterexample :
  let msg := sample_message [record_a1; record_a2] in
  let st1 := sync_mapped_data sample_host msg [] in
  let st2 := sync_mapped_data sample_host msg (page st1) in
  keys_from (idField msg) 0 [record_a1; record_a2] = ["a"; "a"]
  /\ tagged "a" (page st1) = [[0]; [1]]
  /\ last (posted st1) = Some (MsgDone 2 0)
  /\ last (posted st2) = Some (MsgDone 0 4)
  /\ (fun c => characters (attrs_of c)) <$> page_at [0; 0] (page st1) = Some "Hello"
  /\ (fun c => characters (attrs_of c)) <$> page_at [0; 0] (page st2) = Some "World"
  /\ page st2 <> page st1.
Proof.
  intros msg st1 st2.
  assert (H1 : (fun c => characters (attrs_of c)) <$> page_at [0; 0] (page st1)
               = Some "Hello") by (vm_compute; reflexivity).
  assert (H2 : (fun c => characters (attrs_of c)) <$> page_at [0; 0] (page st2)
               = Some "World") by (vm_compute; reflexivity).
  split; [vm_compute; reflexivity |]. split; [vm_compute; reflexivity |].
  split; [vm_compute; reflexivity |]. split; [vm_compute; reflexivity |].
  split; [exact H1 |]. split; [exact H2 |].
  intros E. rewrite E, H1 in H2. discriminate.
Qed.

(** C1 (amended): take a template that has children, none of whose
    descendants carries a key of the batch, and a batch whose processing
    keys are pairwise distinct.  Then a second pass with the same inputs,
    run on the page the first pass left, leaves that page exactly as it
    is, so the tagged elements and their content are the same; it
    creates nothing, every key of the batch is carried by at least one
    element, and it reports as updates the number of elements carrying a
    key of the batch, summed over the keys. *)
Theorem sync_twice_is_idempotent
    (host : string -> option node_ref) (msg : SyncMessage) (pg : list node)
    (records : list (gmap string jsval)) (maps : list FieldMapping)
    (tref : node_ref) (tpl : node)
    (t : container_type) (a : attrs) (cs : list node) :
  data msg = Some records -> records <> [] ->
  mappings msg = Some maps -> maps <> [] ->
  host (targetSourceId msg) = Some tref -> deref pg tref = Some tpl ->
  tpl = Container t a cs ->
  NoDup (keys_from (idField msg) 0 records) ->
  (forall key, key ∈ keys_from (idField msg) 0 records -> tagged key cs = []) ->
  let keys := keys_from (idField msg) 0 records in
  let st1 := sync_mapped_data host msg pg in
  let st2 := sync_mapped_data host msg (page st1) in
  page st2 = page st1
  /\ (forall key, tagged key (page st2) = tagged key (page st1))
  /\ (forall key, key ∈ keys -> tagged key (page st1) <> [])
  /\ createdCount st2 = 0
  /\ updatedCount st2 = sum_list (map (fun key => length (tagged key (page st1))) keys)
  /\ posted st2
     = [StatusReceived (length records); StatusScanning;
        StatusFound (size (buildExistingMap (page st1)))]
       ++ progress_upto (length records) (length records)
       ++ [MsgDone 0 (updatedCount st2)].
Proof.
  intros Hd Hr Hm Hms Hh Ht Hcont Hnd Hinner keys st1 st2.
  set (idf := idField msg) in *.
  set (opening1 := [StatusReceived (length records); StatusScanning;
                    StatusFound (size (buildExistingMap pg))]).
  (* the first pass *)
  assert (Hinner' : forall key, key ∈ keys -> tagged key (children_of tpl) = []).
  { intros key Hk. rewrite Hcont. simpl. apply Hinner, Hk. }
  assert (Hcont' : exists t a cs, tpl = Container t a cs) by eauto.
  assert (Hstart : idem_inv (componentId msg) maps idf (length records)
                     (getNextAvailableY pg) (width (attrs_of tpl))
                     (height (attrs_of tpl)) pg tpl opening1 keys
                     [] (start_state pg records)).
  { split; [apply start_state_inv |]. split; [reflexivity |].
    split; [reflexivity |]. simpl. intros key Hk.
    apply elem_of_nil in Hk. contradiction. }
  destruct (sync_loop_idem (componentId msg) maps idf tref (length records)
              (getNextAvailableY pg) (width (attrs_of tpl)) (height (attrs_of tpl))
              pg tpl opening1 keys Ht Hcont' Hinner' records [] (start_state pg records)
              Hstart Hnd (fun k Hk => Hk))
    as (s1 & Hloop1 & Hpass1 & Hrep1 & _ & Hne1).
  simpl in Hloop1, Hrep1, Hne1, Hpass1.
  assert (Hst1 : page st1 = page s1).
  { subst st1.
    rewrite (sync_mapped_data_runs host msg pg records maps tref tpl)
      by assumption.
    unfold run_loop. fold idf. rewrite Hloop1. reflexivity. }
  (* the template on the page the first pass left *)
  assert (Htpl1 : exists tpl1, deref (page st1) tref = Some tpl1).
  { destruct Hpass1 as (_ & _ & _ & _ & _ & Hpage).
    destruct (skeleton_split _ _ _ Hpage) as (old & added & Hsplit & Hold & _).
    destruct (deref_same_skeleton tref pg old added tpl Ht Hold) as (tpl1 & Hd1 & _).
    exists tpl1. rewrite Hst1, Hsplit. exact Hd1. }
  destruct Htpl1 as (tpl1 & Htpl1).
  (* the second pass matches every record *)
  assert (Hhits2 : forall key, key ∈ keys ->
             hits (buildExistingMap (page st1)) key = tagged key (page st1)).
  { intros key Hk. apply hits_buildExistingMap.
    unfold keys in Hk. clear -Hk. revert Hk. generalize 0.
    induction records as [| r rs IH]; intros i Hk; simpl in Hk.
    - apply elem_of_nil in Hk. contradiction.
    - apply elem_of_cons in Hk as [-> | Hk];
        [apply recordId_nonempty | exact (IH _ Hk)]. }
  destruct (sync_loop_all_hits (componentId msg) maps idf tref (length records)
              (getNextAvailableY (page st1)) (width (attrs_of tpl1))
              (height (attrs_of tpl1)) records 0 (start_state (page st1) records))
    as (s2 & Hloop2 & Hpage2 & _ & Hcre2 & Hupd2 & Hpost2).
  { intros k Hk. simpl. unfold is_hit. rewrite (Hhits2 k Hk), Hst1.
    specialize (Hne1 k Hk). destruct (tagged k (page s1)); [congruence | reflexivity]. }
  simpl in Hpage2, Hcre2, Hupd2, Hpost2.
  assert (Hst2 : st2 = post (MsgDone (createdCount s2) (updatedCount s2)) s2).
  { subst st2.
    rewrite (sync_mapped_data_runs host msg (page st1) records maps tref tpl1)
      by assumption.
    unfold run_loop. fold idf. rewrite Hloop2. reflexivity. }
  assert (Hsteps : map (fun rk => (rk.1, hits (buildExistingMap (page st1)) rk.2))
                       (keyed idf 0 records)
                   = steps_of (keyed idf 0 records) (page st1)).
  { unfold steps_of. apply map_ext_in. intros rk Hrk.
    rewrite Hhits2; [reflexivity |].
    apply keyed_elem, list_elem_of_In, Hrk. }
  assert (Hsame : page st2 = page st1).
  { rewrite Hst2. simpl. rewrite Hpage2, Hsteps, Hst1. exact Hrep1. }
  split; [exact Hsame |]. split; [intros key; rewrite Hsame; reflexivity |].
  split; [intros key Hk; rewrite Hst1; apply Hne1, Hk |].
  split; [rewrite Hst2; simpl; exact Hcre2 |].
  assert (Hcount : updatedCount s2
                   = sum_list (map (fun key => length (tagged key (page st1))) keys)).
  { rewrite Hupd2. simpl. f_equal. apply map_ext_in. intros k Hk.
    rewrite Hhits2; [reflexivity | apply list_elem_of_In, Hk]. }
  split; [rewrite Hst2; simpl; exact Hcount |].
  rewrite Hst2. simpl. rewrite Hpost2, Hcre2. simpl.
  unfold progress_upto. reflexivity.
Qed.

Lemma sync_twice_is_idempotent_witness :
  let msg := sample_message [record_a1; record_b] in
  page (sync_mapped_data sample_host msg
          (page (sync_mapped_data sample_host msg [node_above])))
  = page (sync_mapped_data sample_host msg [node_above]).
Proof.
  intros msg.
  assert (Hrecords : [record_a1; record_b] <> []) by discriminate.
  assert (Hrules : sample_rules <> []) by discriminate.
  assert (Hnd : NoDup (keys_from (idField msg) 0 [record_a1; record_b])).
  { change (NoDup ["a"; "b"]).
    apply NoDup_cons_2; [| apply NoDup_cons_2; [| apply NoDup_nil_2]].
    - rewrite elem_of_cons, elem_of_nil. intros [H | H]; [discriminate | exact H].
    - apply not_elem_of_nil. }
  assert (Hinner : forall key,
             key ∈ keys_from (idField msg) 0 [record_a1; record_b] ->
             tagged key (children_of sample_card) = []).
  { intros key Hk. change (key ∈ ["a"; "b"]) in Hk.
    rewrite !elem_of_cons, elem_of_nil in Hk.
    destruct Hk as [-> | [-> | []]]; reflexivity. }
  exact (proj1 (sync_twice_is_idempotent sample_host msg [node_above]
                  [record_a1; record_b] sample_rules (Elsewhere sample_card)
                  sample_card FRAME (layer "Card") (children_of sample_card)
                  eq_refl Hrecords eq_refl Hrules eq_refl eq_refl eq_refl
                  Hnd Hinner)).
Defined.

(* ===================================================================== *)
(** * Further properties of the plugin *)
(* ===================================================================== *)

(* ===================================================================== *)
(** ** [findChildByName]: the first match in document order *)
(* ===================================================================== *)

Lemma nodes_under_top i c :
  nodes_under [i] c
  = ([i], c) :: map (fun qc => (i :: qc.1, qc.2)) (all_nodes (children_of c)).
Proof.
  destruct c as [t a | t a cs]; [reflexivity |]. simpl. f_equal.
  unfold all_nodes, nodes_from.
  generalize 0. induction cs as [| c cs IH]; intros j; simpl; [reflexivity |].
  rewrite map_app, IH.
  pose proof (nodes_under_prefix c [i] [j]) as Hp. simpl in Hp.
  rewrite Hp. reflexivity.
Qed.

Lemma named_in_cons nm q c l :
  named_in nm ((q, c) :: l)
  = if decide (name (attrs_of c) = nm) then q :: named_in nm l else named_in nm l.
Proof.
  unfold named_in. rewrite filter_cons. simpl.
  destruct (decide (name (attrs_of c) = nm)); reflexivity.
Qed.

Lemma named_in_app nm l1 l2 :
  named_in nm (l1 ++ l2) = named_in nm l1 ++ named_in nm l2.
Proof. unfold named_in. rewrite filter_app, map_app. reflexivity. Qed.

Lemma named_in_shift nm i l :
  named_in nm (map (fun qc => (i :: qc.1, qc.2)) l)
  = map (fun q => i :: q) (named_in nm l).
Proof.
  induction l as [| [q c] l IH]; [reflexivity |].
  simpl map. rewrite !named_in_cons, IH. simpl.
  destruct (decide (name (attrs_of c) = nm)); reflexivity.
Qed.

Lemma scan_children_first nm cs : forall i,
  Forall (fun c => findChildByName c nm = head (named_below nm c)) cs ->
  scan_children (fun c => findChildByName c nm) nm cs i
  = head (named_in nm (list_children nodes_under [] cs i)).
Proof.
  induction cs as [| c cs IH]; intros i H; simpl; [reflexivity |].
  inversion H as [| ? ? Hc Hcs]; subst.
  rewrite named_in_app, nodes_under_top, named_in_cons, named_in_shift.
  destruct (String.eqb_spec (name (attrs_of c)) nm) as [E | E].
  - destruct (decide (name (attrs_of c) = nm)); [reflexivity | contradiction].
  - destruct (decide (name (attrs_of c) = nm)); [contradiction |].
    rewrite Hc. unfold named_below.
    destruct (named_in nm (all_nodes (children_of c))) as [| p ps]; simpl;
      [apply IH, Hcs | reflexivity].
Qed.

Lemma findChildByName_head parent nm :
  findChildByName parent nm = head (named_below nm parent).
Proof.
  induction parent as [t a | t a cs IH] using node_ind'; [reflexivity |].
  simpl. apply scan_children_first, IH.
Qed.

Lemma named_in_elem nm l q :
  q ∈ named_in nm l <-> exists c, (q, c) ∈ l /\ name (attrs_of c) = nm.
Proof.
  unfold named_in. split.
  - intros H. apply list_elem_of_In, in_map_iff in H.
    destruct H as ([q' c] & <- & Hin). apply list_elem_of_In in Hin.
    apply list_elem_of_filter in Hin as [Hk Hin]. eauto.
  - intros (c & Hin & Hn). apply list_elem_of_In, in_map_iff.
    exists (q, c). split; [reflexivity |]. apply list_elem_of_In.
    apply list_elem_of_filter. auto.
Qed.

Lemma list_children_elem_of visit p cs i j c0 (x : path * node) :
  cs !! j = Some c0 -> x ∈ visit (p ++ [i + j]) c0 ->
  x ∈ list_children visit p cs i.
Proof.
  revert i j. induction cs as [| c cs IH]; intros i [| j] Hj Hx; simpl in *;
    try discriminate.
  - injection Hj as ->. rewrite Nat.add_0_r in Hx. apply elem_of_app. left. exact Hx.
  - apply elem_of_app. right. apply (IH (S i) j Hj).
    replace (S i + j) with (i + S j) by lia. exact Hx.
Qed.

Lemma nodes_under_reaches n : forall q c pre,
  node_at q n = Some c -> (pre ++ q, c) ∈ nodes_under pre n.
Proof.
  induction n as [t a | t a cs IH] using node_ind'; intros q c pre Hq.
  - destruct q as [| i q]; [| discriminate]. injection Hq as <-.
    rewrite app_nil_r. left.
  - destruct q as [| i q].
    + injection Hq as <-. rewrite app_nil_r. left.
    + simpl in Hq. destruct (cs !! i) as [c0 |] eqn:Hi; [| discriminate].
      simpl in Hq. simpl. right.
      apply (list_children_elem_of (fun q c => nodes_under q c) pre cs 0 i c0 _ Hi).
      rewrite Forall_forall in IH.
      assert (Hin : c0 ∈ cs) by (apply list_elem_of_lookup; eauto).
      pose proof (IH c0 Hin q c (pre ++ [i]) Hq) as Hr.
      rewrite <- app_assoc in Hr. exact Hr.
Qed.

Lemma all_nodes_complete pg q c :
  page_at q pg = Some c -> (q, c) ∈ all_nodes pg.
Proof.
  destruct q as [| i q]; simpl; [discriminate |].
  destruct (pg !! i) as [c0 |] eqn:Hi; [| discriminate]. simpl. intros Hq.
  apply (list_children_elem_of nodes_under [] pg 0 i c0 _ Hi).
  exact (nodes_under_reaches c0 q c [i] Hq).
Qed.

(** X1: [findChildByName] answers with the first node strictly below the
    parent, in document order, that bears the name; it answers nothing
    exactly when no node below the parent bears it, and never answers with
    the parent itself. *)
Theorem findChildByName_first_match (parent : node) (nm : string) :
  findChildByName parent nm = head (named_below nm parent)
  /\ (findChildByName parent nm = None <->
      forall q c, node_at q parent = Some c -> q <> [] -> name (attrs_of c) <> nm)
  /\ (forall p, findChildByName parent nm = Some p ->
        p <> [] /\ exists c, node_at p parent = Some c /\ name (attrs_of c) = nm).
Proof.
  split; [apply findChildByName_head |]. split; [| apply findChildByName_sound].
  rewrite findChildByName_head. unfold named_below. split.
  - intros Hnone q c Hq Hne Hname.
    assert (Hin : q ∈ named_in nm (all_nodes (children_of parent))).
    { apply named_in_elem. exists c. split; [| exact Hname].
      destruct q as [| i q]; [congruence |].
      destruct parent as [t a | t a cs]; [discriminate |]. simpl in Hq |- *.
      destruct (cs !! i) as [c0 |] eqn:Hi; [| discriminate]. simpl in Hq.
      apply (list_children_elem_of nodes_under [] cs 0 i c0 _ Hi).
      pose proof (nodes_under_reaches c0 q c [i] Hq) as Hr. exact Hr. }
    destruct (named_in nm (all_nodes (children_of parent))); [| discriminate].
    apply elem_of_nil in Hin. exact Hin.
  - intros Hall.
    destruct (named_in nm (all_nodes (children_of parent))) as [| q qs] eqn:E;
      [reflexivity |].
    exfalso.
    assert (Hin : q ∈ named_in nm (all_nodes (children_of parent)))
      by (rewrite E; left).
    apply named_in_elem in Hin as (c & Hin & Hname).
    apply all_nodes_valid in Hin as (Hat & i & rel & ->).
    apply (Hall (i :: rel) c); [| discriminate | exact Hname].
    destruct parent as [t a | t a cs]; simpl in *; [discriminate | exact Hat].
Qed.

Lemma findChildByName_first_match_witness :
  findChildByName sample_card "#note" = Some [1; 0]
  /\ exists c, node_at [1; 0] sample_card = Some c /\ name (attrs_of c) = "#note".
Proof.
  split; [reflexivity |].
  exact (proj2 (proj2 (proj2 (findChildByName_first_match sample_card "#note"))
                  [1; 0] eq_refl)).
Defined.

(* ===================================================================== *)
(** ** [buildExistingMap]: what the index holds *)
(* ===================================================================== *)

Lemma tagged_complete key pg q c :
  page_at q pg = Some c -> notionId (attrs_of c) = key -> q ∈ tagged key pg.
Proof.
  intros Hq Hk. unfold tagged, tagged_in.
  apply list_elem_of_In, in_map_iff. exists (q, c). split; [reflexivity |].
  apply list_elem_of_In, list_elem_of_filter. split; [exact Hk |].
  apply all_nodes_complete, Hq.
Qed.

(** X2: under a non-empty identifier the index holds the references of
    exactly the nodes of the page tagged with it, in document order, and
    has no entry when there is none; it never holds an empty list, and
    never has an entry under the empty identifier. *)
Theorem buildExistingMap_holds_tagged_nodes (pg : list node) (key : string) :
  (key <> "" ->
     buildExistingMap pg !! key
     = match tagged key pg with [] => None | found => Some found end)
  /\ buildExistingMap pg !! "" = None
  /\ buildExistingMap pg !! key <> Some []
  /\ (forall q, q ∈ hits (buildExistingMap pg) key <->
        key <> "" /\ exists c, page_at q pg = Some c /\ notionId (attrs_of c) = key).
Proof.
  assert (Hempty : buildExistingMap pg !! "" = None).
  { rewrite buildExistingMap_fold, index_fold_no_empty_key. apply lookup_empty. }
  split; [apply buildExistingMap_lookup |]. split; [exact Hempty |]. split.
  - destruct (String.eqb_spec key "") as [-> | Hk]; [rewrite Hempty; discriminate |].
    rewrite (buildExistingMap_lookup pg key Hk).
    destruct (tagged key pg); discriminate.
  - intros q. split.
    + intros Hq.
      destruct (String.eqb_spec key "") as [-> | Hk].
      * unfold hits in Hq. rewrite Hempty in Hq. apply elem_of_nil in Hq.
        contradiction.
      * split; [exact Hk |]. apply hits_valid, Hq.
    + intros (Hk & c & Hc & Hid).
      rewrite (hits_buildExistingMap pg key Hk). eapply tagged_complete; eauto.
Qed.

Lemma buildExistingMap_holds_tagged_nodes_witness :
  buildExistingMap page_abc !! "abc" = Some [[0]; [1]].
Proof.
  assert (Hk : "abc" <> "") by discriminate.
  exact (proj1 (buildExistingMap_holds_tagged_nodes page_abc "abc") Hk).
Defined.

Lemma buildExistingMap_same_skeleton pg pg' :
  map skeleton pg = map skeleton pg' -> buildExistingMap pg = buildExistingMap pg'.
Proof.
  intros H. apply map_eq. intros key.
  destruct (String.eqb_spec key "") as [-> | Hk].
  - rewrite !buildExistingMap_fold, !index_fold_no_empty_key. reflexivity.
  - rewrite !buildExistingMap_lookup by exact Hk.
    rewrite (tagged_same_skeleton key pg pg' H). reflexivity.
Qed.

(** X3: updating elements in place never changes the index: after
    [updateInstance] has run on any elements, with any record and rules,
    rebuilding the index gives the map that was there before. *)
Theorem buildExistingMap_unchanged_by_updates
    (mappings : list FieldMapping) (record : gmap string jsval)
    (qs : list path) (pg : list node) :
  buildExistingMap (page_updates mappings record qs pg) = buildExistingMap pg.
Proof.
  apply buildExistingMap_same_skeleton, updates_skeleton.
Qed.

Lemma tags_on_elem pg key :
  key ∈ tags_on pg <-> key <> "" /\ tagged key pg <> [].
Proof.
  unfold tags_on. rewrite list_elem_of_In, filter_In, in_map_iff.
  rewrite negb_true_iff, String.eqb_neq. split.
  - intros (([q c] & Hid & Hin) & Hk). simpl in Hid. split; [exact Hk |].
    apply list_elem_of_In, all_nodes_valid in Hin as (Hat & _).
    pose proof (tagged_complete key pg q c Hat Hid) as Hq.
    intros E. rewrite E in Hq. apply elem_of_nil in Hq. exact Hq.
  - intros (Hk & Hne). split; [| exact Hk].
    destruct (tagged key pg) as [| q qs] eqn:E; [congruence |].
    assert (Hq : q ∈ tagged key pg) by (rewrite E; left).
    apply tagged_in_elem in Hq as (c & Hin & Hid).
    exists (q, c). split; [exact Hid | apply list_elem_of_In, Hin].
Qed.

Lemma remove_dups_shorter (l : list string) : length (remove_dups l) <= length l.
Proof.
  induction l as [| k l IH]; simpl; [lia |].
  destruct (decide_rel elem_of k l); simpl; lia.
Qed.

Lemma list_to_set_dedup (l : list string) :
  (list_to_set (remove_dups l) : gset string) = list_to_set l.
Proof.
  apply set_eq. intros k. rewrite !elem_of_list_to_set. apply elem_of_remove_dups.
Qed.

(** X4: the keys of the index are the distinct non-empty identifiers found
    on the page, so its size, which the handler reports as the number of
    existing instances, counts identifiers and not tagged nodes. *)
Theorem buildExistingMap_size_counts_identifiers (pg : list node) :
  dom (buildExistingMap pg) = list_to_set (tags_on pg)
  /\ size (buildExistingMap pg) = length (remove_dups (tags_on pg))
  /\ size (buildExistingMap pg) <= length (tags_on pg).
Proof.
  assert (Hdom : dom (buildExistingMap pg) = (list_to_set (tags_on pg) : gset string)).
  { apply set_eq. intros key.
    rewrite elem_of_dom, elem_of_list_to_set, tags_on_elem.
    destruct (String.eqb_spec key "") as [-> | Hk].
    - rewrite buildExistingMap_fold, index_fold_no_empty_key, lookup_empty.
      split; [intros [? ?]; discriminate | intros [? _]; congruence].
    - rewrite (buildExistingMap_lookup pg key Hk).
      destruct (tagged key pg); split.
      + intros [? ?]; discriminate.
      + intros [_ ?]; congruence.
      + intros _. split; [exact Hk | discriminate].
      + intros _. eauto. }
  assert (Hsize : size (buildExistingMap pg) = length (remove_dups (tags_on pg))).
  { rewrite <- size_dom, Hdom, <- list_to_set_dedup.
    apply size_list_to_set, NoDup_remove_dups. }
  split; [exact Hdom |]. split; [exact Hsize |].
  rewrite Hsize. apply remove_dups_shorter.
Qed.

(* ===================================================================== *)
(** ** [collectLayers]: the mappable layers of a template *)
(* ===================================================================== *)

Lemma collectLayers_children_keys cs : forall pfx p i,
  Forall (fun c => forall pfx p,
              map layer_key (collectLayers c pfx)
              = map node_key (List.filter mappable_node (nodes_under p c))) cs ->
  map layer_key (flat_map (fun child => collectLayers child pfx) cs)
  = map node_key
        (List.filter mappable_node
           (list_children (fun q c => nodes_under q c) p cs i)).
Proof.
  induction cs as [| c cs IH]; intros pfx p i H; simpl; [reflexivity |].
  inversion H as [| ? ? Hc Hcs]; subst.
  rewrite List.filter_app, !map_app, (Hc pfx (p ++ [i])), (IH pfx p (S i) Hcs).
  reflexivity.
Qed.

Lemma collectLayers_keys n : forall pfx p,
  map layer_key (collectLayers n pfx)
  = map node_key (List.filter mappable_node (nodes_under p n)).
Proof.
  induction n as [t a | t a cs IH] using node_ind'; intros pfx p.
  - simpl. unfold mappable_node at 1. simpl.
    destruct (is_mappable (name a)); reflexivity.
  - simpl. unfold mappable_node at 1. simpl.
    rewrite map_app, (collectLayers_children_keys cs _ p 0 IH).
    destruct (is_mappable (name a)); reflexivity.
Qed.

Lemma collectLayers_paths n : forall pfx l,
  l ∈ collectLayers n pfx ->
  is_mappable (layer_name l) = true
  /\ exists pre, layer_path l = full_path pre (layer_name l).
Proof.
  induction n as [t a | t a cs IH] using node_ind'; intros pfx l; simpl.
  - rewrite app_nil_r. destruct (is_mappable (name a)) eqn:E.
    + rewrite list_elem_of_singleton. intros ->. simpl. eauto.
    + intros H. apply elem_of_nil in H. contradiction.
  - rewrite elem_of_app. intros [H | H].
    + destruct (is_mappable (name a)) eqn:E.
      * apply list_elem_of_singleton in H as ->. simpl. eauto.
      * apply elem_of_nil in H. contradiction.
    + apply list_elem_of_In, in_flat_map in H as (c & Hc & Hl).
      rewrite Forall_forall in IH.
      apply (IH c (proj2 (list_elem_of_In _ _) Hc) (full_path pfx (name a)) l).
      apply list_elem_of_In, Hl.
Qed.

(** X5: [collectLayers] reports exactly the nodes at or below the template
    whose name contains the marker ['#'], each one once, in document
    order and whatever their type; each reported name contains the marker
    and each reported path ends with the name; a template without such a
    node gives the empty list. *)
Theorem collectLayers_reports_marked_nodes (template : node) (prefix : string) :
  map layer_key (collectLayers template prefix)
  = map node_key (List.filter mappable_node (nodes_under [] template))
  /\ (forall l, l ∈ collectLayers template prefix ->
        is_mappable (layer_name l) = true
        /\ exists pre, layer_path l = full_path pre (layer_name l))
  /\ ((forall q c, node_at q template = Some c ->
          is_mappable (name (attrs_of c)) = false) ->
      collectLayers template prefix = []).
Proof.
  split; [apply collectLayers_keys |]. split; [apply collectLayers_paths |].
  intros Hnone.
  assert (E : List.filter mappable_node (nodes_under [] template) = []).
  { destruct (List.filter mappable_node (nodes_under [] template))
      as [| [q c] rest] eqn:E; [reflexivity |].
    assert (Hin : In (q, c) (List.filter mappable_node (nodes_under [] template)))
      by (rewrite E; left; reflexivity).
    apply filter_In in Hin as (Hin & Hm).
    apply list_elem_of_In, nodes_under_valid in Hin as (rel & -> & Hat).
    unfold mappable_node in Hm. simpl in Hm.
    rewrite (Hnone rel c Hat) in Hm. discriminate. }
  apply (f_equal (@length _)) in E.
  pose proof (collectLayers_keys template prefix []) as Hk.
  apply (f_equal (@length _)) in Hk. rewrite !length_map, E in Hk.
  destruct (collectLayers template prefix); [reflexivity | discriminate].
Qed.

Lemma collectLayers_elem n : forall pfx l,
  l ∈ collectLayers n pfx ->
  exists q c, node_at q n = Some c /\ name (attrs_of c) = layer_name l.
Proof.
  induction n as [t a | t a cs IH] using node_ind'; intros pfx l; simpl.
  - rewrite app_nil_r. destruct (is_mappable (name a)).
    + rewrite list_elem_of_singleton. intros ->. exists [], (Leaf t a). auto.
    + intros H. apply elem_of_nil in H. contradiction.
  - rewrite elem_of_app. intros [H | H].
    + destruct (is_mappable (name a)).
      * apply list_elem_of_singleton in H as ->.
        exists [], (Container t a cs). auto.
      * apply elem_of_nil in H. contradiction.
    + apply list_elem_of_In, in_flat_map in H as (c & Hc & Hl).
      apply list_elem_of_In in Hc, Hl.
      rewrite Forall_forall in IH.
      destruct (IH c Hc _ l Hl) as (q & c' & Hq & Hn).
      apply list_elem_of_lookup in Hc as (i & Hi).
      exists (i :: q), c'. simpl. rewrite Hi. auto.
Qed.

Lemma findChildByName_finds parent nm q c :
  node_at q parent = Some c -> q <> [] -> name (attrs_of c) = nm ->
  exists p, findChildByName parent nm = Some p.
Proof.
  intros Hq Hne Hname. rewrite findChildByName_head. unfold named_below.
  assert (Hin : q ∈ named_in nm (all_nodes (children_of parent))).
  { apply named_in_elem. exists c. split; [| exact Hname].
    apply all_nodes_complete.
    destruct q as [| i q]; [congruence |].
    destruct parent as [t a | t a cs]; [discriminate | exact Hq]. }
  destruct (named_in nm (all_nodes (children_of parent))) as [| p ps]; simpl; eauto.
  apply elem_of_nil in Hin. contradiction.
Qed.

(** X6: every layer that [collectLayers] reports from below the root of a
    template is found by [findChildByName] on that template, at a node
    bearing the reported name.  The root itself is reported when its name
    contains the marker, but [findChildByName] never answers with the
    root: a rule naming the root, when no node below has that name,
    leaves the instance as it is. *)
Theorem collected_layers_are_found
    (t : container_type) (a : attrs) (cs : list node) (prefix : string) :
  (forall l,
      l ∈ flat_map (fun child => collectLayers child prefix) cs ->
      exists p c,
        findChildByName (Container t a cs) (layer_name l) = Some p
        /\ node_at p (Container t a cs) = Some c
        /\ name (attrs_of c) = layer_name l)
  /\ (is_mappable (name a) = true ->
      (forall q c, node_at q (Container t a cs) = Some c -> q <> [] ->
                   name (attrs_of c) <> name a) ->
      mkLayer (name a) (ContainerType t) (full_path prefix (name a))
        ∈ collectLayers (Container t a cs) prefix
      /\ forall record mapping,
          layerName mapping = name a ->
          applyMapping record (Container t a cs) mapping = Container t a cs).
Proof.
  split.
  - intros l Hl. apply list_elem_of_In, in_flat_map in Hl as (c0 & Hc0 & Hl).
    apply list_elem_of_In in Hc0, Hl.
    destruct (collectLayers_elem c0 prefix l Hl) as (q & c & Hq & Hn).
    apply list_elem_of_lookup in Hc0 as (i & Hi).
    assert (Hat : node_at (i :: q) (Container t a cs) = Some c).
    { simpl. rewrite Hi. exact Hq. }
    destruct (findChildByName_finds (Container t a cs) (layer_name l) (i :: q) c
                Hat ltac:(discriminate) Hn) as (p & Hp).
    destruct (findChildByName_sound _ _ _ Hp) as (_ & c' & Hc' & Hn').
    exists p, c'. auto.
  - intros Hmark Honly. split.
    + simpl. rewrite Hmark. left.
    + intros record mapping Hname. unfold applyMapping. rewrite Hname.
      destruct (findChildByName (Container t a cs) (name a)) as [p |] eqn:Hp;
        [| reflexivity].
      exfalso.
      destruct (findChildByName_sound _ _ _ Hp) as (Hne & c & Hc & Hn).
      exact (Honly p c Hc Hne Hn).
Qed.

Lemma collected_layers_are_found_witness :
  exists p c,
    findChildByName sample_card "#note" = Some p
    /\ node_at p sample_card = Some c /\ name (attrs_of c) = "#note".
Proof.
  apply (proj1 (collected_layers_are_found FRAME (layer "Card")
                  (children_of sample_card) "Card")
           (mkLayer "#note" (LeafType TEXT) "Card/#badge/#note")).
  vm_compute. right. right. left.
Defined.

(* ===================================================================== *)
(** ** [fillInstanceData]: what it writes and what it leaves *)
(* ===================================================================== *)

Lemma attrs_at_alter_at f q : forall p n,
  attrs_of <$> node_at p (alter_at (map_attrs f) q n)
  = (fun a => if decide (p = q) then f a else a) <$> (attrs_of <$> node_at p n).
Proof.
  induction q as [| j q IH]; intros p n.
  - simpl. destruct p as [| i p].
    + destruct n; reflexivity.
    + destruct n as [t a | t a cs]; simpl; [reflexivity |].
      destruct (cs !! i ≫= node_at p); reflexivity.
  - destruct n as [t a | t a cs]; simpl.
    + destruct p as [| i p]; reflexivity.
    + destruct p as [| i p]; [reflexivity |]. simpl.
      destruct (decide (i = j)) as [-> | Hij].
      * rewrite list_lookup_alter_eq.
        destruct (cs !! j) as [c |]; simpl; [| reflexivity].
        rewrite IH. destruct (attrs_of <$> node_at p c); simpl; [| reflexivity].
        destruct (decide (p = q)) as [-> | Hpq].
        -- destruct (decide (j :: q = j :: q)); [reflexivity | congruence].
        -- destruct (decide (j :: p = j :: q)); [congruence | reflexivity].
      * rewrite list_lookup_alter_ne by congruence.
        destruct (cs !! i ≫= node_at p); simpl; [| reflexivity].
        destruct (decide (i :: p = j :: q)); [congruence | reflexivity].
Qed.

(** The attributes of a node after a sequence of writes: the writes
    addressed to it, applied in order. *)
Lemma attrs_after_writes ws : forall n p,
  attrs_of <$> node_at p (node_writes ws n)
  = (fun a => fold_left (fun a w => apply_write w a)
                (map snd (filter (fun qw => qw.1 = p) ws)) a)
    <$> (attrs_of <$> node_at p n).
Proof.
  induction ws as [| [q w] ws IH]; intros n p.
  - simpl. destruct (attrs_of <$> node_at p n); reflexivity.
  - simpl node_writes. unfold node_writes in IH |- *. simpl fold_left at 1.
    rewrite IH. unfold node_write. simpl. rewrite attrs_at_alter_at.
    rewrite filter_cons. simpl.
    destruct (attrs_of <$> node_at p n); simpl; [| reflexivity].
    destruct (decide (q = p)) as [-> | Hqp].
    + destruct (decide (p = p)); [reflexivity | congruence].
    + destruct (decide (p = q)); [congruence | reflexivity].
Qed.

Lemma mapping_writes_target record instance mapping q w :
  (q, w) ∈ mapping_writes record instance mapping ->
  findChildByName instance (layerName mapping) = Some q
  /\ exists v, record !! dataField mapping = Some v /\ v <> VNull
               /\ (w = SetVisible (parseBoolean v)
                   \/ (w = SetText (js_String v) /\ parseBoolean v = true
                       /\ forall b, v <> VBool b)).
Proof.
  unfold mapping_writes.
  destruct (findChildByName instance (layerName mapping)) as [target |];
    [| intros H; apply elem_of_nil in H; contradiction].
  destruct (record !! dataField mapping) as [v |];
    [| intros H; apply elem_of_nil in H; contradiction].
  destruct v as [b | z | s |];
    try (intros H; apply elem_of_nil in H; contradiction);
    cbv zeta;
    rewrite elem_of_cons;
    (intros [[= -> ->] | H];
     [split; [reflexivity |]; eexists; split; [reflexivity |];
      split; [discriminate | left; reflexivity] |]);
    destruct (parseBoolean _) eqn:Eb; simpl in H;
    try (apply elem_of_nil in H; contradiction);
    try (destruct (from_option is_text false _); simpl in H;
         [| apply elem_of_nil in H; contradiction]);
    try (apply elem_of_nil in H; contradiction);
    apply list_elem_of_singleton in H; injection H as -> ->;
    (split; [reflexivity |]); eexists; (split; [reflexivity |]);
    (split; [discriminate |]); right;
    (split; [reflexivity |]); (split; [exact Eb | discriminate]).
Qed.

Lemma update_writes_elem mappings record instance q w :
  (q, w) ∈ update_writes mappings record instance ->
  exists m, m ∈ mappings /\ (q, w) ∈ mapping_writes record instance m.
Proof.
  unfold update_writes. destruct instance as [t a | t a cs].
  - intros H. apply elem_of_nil in H. contradiction.
  - intros H. apply list_elem_of_In, in_flat_map in H as (m & Hm & Hw).
    exists m. split; apply list_elem_of_In; assumption.
Qed.

Lemma filter_none {A : Type} (P : A -> Prop) `{forall x, Decision (P x)} (l : list A) :
  (forall x, x ∈ l -> ~ P x) -> filter P l = [].
Proof.
  induction l as [| x l IH]; intros Hn; [reflexivity |].
  rewrite filter_cons. destruct (decide (P x)) as [Hx | Hx].
  - exfalso. apply (Hn x); [left | exact Hx].
  - apply IH. intros y Hy. apply Hn. right. exact Hy.
Qed.

(** X7: [fillInstanceData] changes nothing at a node unless some rule
    resolves to exactly that node and the record has a value for the
    rule's field: a rule whose field is missing or [null] in the record, a
    rule whose layer does not exist, and every node that is not the first
    one bearing a rule's layer name, leave all attributes as they were. *)
Theorem fillInstanceData_touches_only_targets
    (instance : node) (record : gmap string jsval)
    (mappings : list FieldMapping) (filled : node) (p : path) (c : node) :
  fillInstanceData instance record mappings = Some filled ->
  node_at p instance = Some c ->
  (forall m, m ∈ mappings ->
             findChildByName instance (layerName m) = Some p ->
             record !! dataField m = None \/ record !! dataField m = Some VNull) ->
  exists c', node_at p filled = Some c' /\ attrs_of c' = attrs_of c.
Proof.
  intros Hfill Hc Hfree.
  rewrite (fillInstanceData_updated _ _ _ _ Hfill), updated_writes.
  pose proof (attrs_after_writes (update_writes mappings record instance) instance p)
    as Hattrs.
  rewrite filter_none in Hattrs.
  - rewrite Hc in Hattrs. simpl in Hattrs.
    destruct (node_at p (node_writes _ instance)) as [c' |]; [| discriminate].
    injection Hattrs as Hattrs. eauto.
  - intros [q w] Hin Hq. simpl in Hq. subst q.
    apply update_writes_elem in Hin as (m & Hm & Hin).
    apply mapping_writes_target in Hin as (Hfind & v & Hv & Hnn & _).
    destruct (Hfree m Hm Hfind) as [E | E]; congruence.
Qed.

Lemma fillInstanceData_touches_only_targets_witness :
  exists c',
    node_at [1; 0] (default sample_card
                      (fillInstanceData sample_card record_a2 sample_rules)) = Some c'
    /\ attrs_of c' = layer "#note".
Proof.
  refine (fillInstanceData_touches_only_targets sample_card record_a2 sample_rules
            _ [1; 0] (Leaf TEXT (layer "#note")) eq_refl eq_refl _).
  intros m Hm Hfind. unfold sample_rules in Hm.
  rewrite !elem_of_cons, elem_of_nil in Hm.
  destruct Hm as [-> | [-> | []]]; vm_compute in Hfind; discriminate.
Defined.

Lemma visible_writes_keep_text ws a :
  Forall (fun w => exists b, w = SetVisible b) ws ->
  characters (fold_left (fun a w => apply_write w a) ws a) = characters a
  /\ listOptions (fold_left (fun a w => apply_write w a) ws a) = listOptions a.
Proof.
  intros H. revert a. induction H as [| w ws (b & ->) _ IH]; intros a; simpl;
    [split; reflexivity |].
  destruct (IH (set_visible b a)) as (-> & ->). split; reflexivity.
Qed.

(** X8: a record whose values for the mapped fields are all booleans (or
    [null]) changes visibility only: after [fillInstanceData] every node
    has the text and the list styling it had, so a checkbox field never
    writes "true" or "false" into a text layer. *)
Theorem boolean_fields_never_write_text
    (instance : node) (record : gmap string jsval)
    (mappings : list FieldMapping) (filled : node) (p : path) (c : node) :
  fillInstanceData instance record mappings = Some filled ->
  (forall m v, m ∈ mappings -> record !! dataField m = Some v ->
               v = VNull \/ exists b, v = VBool b) ->
  node_at p instance = Some c ->
  exists c',
    node_at p filled = Some c'
    /\ characters (attrs_of c') = characters (attrs_of c)
    /\ listOptions (attrs_of c') = listOptions (attrs_of c)
    /\ skeleton c' = skeleton c.
Proof.
  intros Hfill Hbool Hc.
  assert (Hsk : skeleton filled = skeleton instance)
    by (eapply fillInstanceData_skeleton; eauto).
  rewrite (fillInstanceData_updated _ _ _ _ Hfill), updated_writes in Hsk |- *.
  pose proof (attrs_after_writes (update_writes mappings record instance) instance p)
    as Hattrs.
  rewrite Hc in Hattrs. simpl in Hattrs.
  destruct (node_at p (node_writes _ instance)) as [c' |] eqn:Hc'; [| discriminate].
  injection Hattrs as Hattrs. exists c'. split; [reflexivity |].
  assert (Hall : Forall (fun w => exists b, w = SetVisible b)
                   (map snd (filter (fun qw : path * write => qw.1 = p)
                               (update_writes mappings record instance)))).
  { apply Forall_forall. intros w Hw.
    apply list_elem_of_In, in_map_iff in Hw as ([q w'] & <- & Hin).
    apply list_elem_of_In, list_elem_of_filter in Hin as (_ & Hin).
    apply update_writes_elem in Hin as (m & Hm & Hin).
    apply mapping_writes_target in Hin as (_ & v & Hv & Hnn & [-> | (-> & _ & Hnb)]);
      [eauto |].
    destruct (Hbool m v Hm Hv) as [-> | (b & ->)]; [congruence |].
    exfalso. exact (Hnb b eq_refl). }
  destruct (visible_writes_keep_text _ (attrs_of c) Hall) as (Hch & Hlo).
  rewrite Hattrs, Hch, Hlo. split; [reflexivity |]. split; [reflexivity |].
  assert (E : skeleton <$> node_at p (node_writes (update_writes mappings record instance)
                                        instance)
              = skeleton <$> node_at p instance).
  { rewrite <- !node_at_skeleton, Hsk. reflexivity. }
  rewrite Hc', Hc in E. injection E as E. exact E.
Qed.

Lemma boolean_fields_never_write_text_witness :
  exists c',
    node_at [0] (default sample_card
                   (fillInstanceData sample_card {[ "title" := VBool true ]}
                      sample_rules)) = Some c'
    /\ characters (attrs_of c') = "".
Proof.
  destruct (boolean_fields_never_write_text sample_card {[ "title" := VBool true ]}
              sample_rules _ [0] (Leaf TEXT (layer "#title")) eq_refl)
    as (c' & Hc' & Hch & _).
  - intros m v Hm Hv. unfold sample_rules in Hm.
    rewrite !elem_of_cons, elem_of_nil in Hm.
    destruct Hm as [-> | [-> | []]]; vm_compute in Hv;
      [injection Hv as <-; right; eauto | discriminate].
  - reflexivity.
  - exists c'. split; [exact Hc' | exact Hch].
Defined.

(* ===================================================================== *)
(** ** [parseBoolean]: letter case and surrounding blanks *)
(* ===================================================================== *)

Lemma string_app_cons c (s t : string) :
  (String c s ++ t)%string = String c (s ++ t)%string.
Proof. reflexivity. Qed.

Lemma string_app_nil (t : string) : ("" ++ t)%string = t.
Proof. reflexivity. Qed.

Lemma space_not_upper c : Str.is_space c = true -> Str.is_upper c = false.
Proof.
  unfold Str.is_space, Str.is_upper. cbv zeta.
  rewrite orb_true_iff, andb_true_iff, andb_false_iff.
  rewrite !Nat.leb_le, Nat.eqb_eq, !Nat.leb_gt. lia.
Qed.

Lemma toLowerCase_spaces ws :
  Str.all_chars Str.is_space ws = true -> Str.toLowerCase ws = ws.
Proof.
  induction ws as [| c ws IH]; simpl; [reflexivity |].
  rewrite andb_true_iff. intros [Hc Hws].
  unfold Str.lower_char. rewrite (space_not_upper c Hc), (IH Hws). reflexivity.
Qed.

Lemma toLowerCase_app s t :
  Str.toLowerCase (s ++ t)%string = (Str.toLowerCase s ++ Str.toLowerCase t)%string.
Proof.
  induction s as [| c s IH]; [reflexivity |].
  rewrite string_app_cons. simpl. rewrite IH. reflexivity.
Qed.

Lemma lower_char_idem c : Str.lower_char (Str.lower_char c) = Str.lower_char c.
Proof.
  unfold Str.lower_char. destruct (Str.is_upper c) eqn:E; [| rewrite E; reflexivity].
  assert (Hn : Str.is_upper (ascii_of_nat (nat_of_ascii c + 32)) = false).
  { unfold Str.is_upper in *. rewrite andb_true_iff, !Nat.leb_le in E.
    rewrite nat_ascii_embedding by lia.
    rewrite andb_false_iff, !Nat.leb_gt. lia. }
  rewrite Hn. reflexivity.
Qed.

Lemma toLowerCase_idem s : Str.toLowerCase (Str.toLowerCase s) = Str.toLowerCase s.
Proof.
  induction s as [| c s IH]; simpl; [reflexivity |].
  rewrite lower_char_idem, IH. reflexivity.
Qed.

Lemma trimStart_spaces ws :
  Str.all_chars Str.is_space ws = true -> Str.trimStart ws = "".
Proof.
  induction ws as [| c ws IH]; simpl; [reflexivity |].
  rewrite andb_true_iff. intros [-> Hws]. apply IH, Hws.
Qed.

Lemma trimStart_app_spaces ws s :
  Str.all_chars Str.is_space ws = true ->
  Str.trimStart (ws ++ s)%string = Str.trimStart s.
Proof.
  induction ws as [| c ws IH]; [reflexivity |].
  rewrite string_app_cons. simpl. rewrite andb_true_iff. intros [-> Hws].
  apply IH, Hws.
Qed.

Lemma trimEnd_spaces ws :
  Str.all_chars Str.is_space ws = true -> Str.trimEnd ws = "".
Proof.
  induction ws as [| c ws IH]; simpl; [reflexivity |].
  rewrite andb_true_iff. intros [-> Hws]. rewrite (IH Hws). reflexivity.
Qed.

Lemma trimEnd_app_spaces s ws :
  Str.all_chars Str.is_space ws = true ->
  Str.trimEnd (s ++ ws)%string = Str.trimEnd s.
Proof.
  intros Hws. induction s as [| c s IH].
  - rewrite string_app_nil. apply trimEnd_spaces, Hws.
  - rewrite string_app_cons. simpl. rewrite IH. reflexivity.
Qed.

Lemma trim_app_spaces s ws :
  Str.all_chars Str.is_space ws = true ->
  Str.trim (s ++ ws)%string = Str.trim s.
Proof.
  intros Hws. unfold Str.trim. induction s as [| c s IH].
  - rewrite string_app_nil, (trimStart_spaces ws Hws). reflexivity.
  - rewrite string_app_cons. simpl. destruct (Str.is_space c); [exact IH |].
    rewrite <- string_app_cons. apply trimEnd_app_spaces, Hws.
Qed.

Lemma trim_padding ws1 s ws2 :
  Str.all_chars Str.is_space ws1 = true ->
  Str.all_chars Str.is_space ws2 = true ->
  Str.trim (ws1 ++ s ++ ws2)%string = Str.trim s.
Proof.
  intros H1 H2. unfold Str.trim. rewrite (trimStart_app_spaces ws1 _ H1).
  apply (trim_app_spaces s ws2 H2).
Qed.

(** X9: [parseBoolean] does not see blanks around a string nor the case of
    its letters: padding a string with white space on either side, or
    lower-casing it, gives the same boolean. *)
Theorem parseBoolean_ignores_padding_and_case (ws1 s ws2 : string) :
  Str.all_chars Str.is_space ws1 = true ->
  Str.all_chars Str.is_space ws2 = true ->
  parseBoolean (VStr (ws1 ++ s ++ ws2)) = parseBoolean (VStr s)
  /\ parseBoolean (VStr (Str.toLowerCase s)) = parseBoolean (VStr s).
Proof.
  intros H1 H2.
  assert (E1 : Str.trim (Str.toLowerCase (ws1 ++ s ++ ws2))
               = Str.trim (Str.toLowerCase s)).
  { rewrite !toLowerCase_app, (toLowerCase_spaces ws1 H1), (toLowerCase_spaces ws2 H2).
    apply trim_padding; assumption. }
  split.
  - unfold parseBoolean. rewrite E1. reflexivity.
  - unfold parseBoolean. rewrite toLowerCase_idem. reflexivity.
Qed.

Lemma parseBoolean_ignores_padding_and_case_witness :
  parseBoolean (VStr ("  " ++ "No" ++ " ")) = parseBoolean (VStr "No").
Proof.
  exact (proj1 (parseBoolean_ignores_padding_and_case "  " "No" " " eq_refl eq_refl)).
Defined.

(* ===================================================================== *)
(** ** [sync-mapped-data]: a template without children, and what a new
       card is *)
(* ===================================================================== *)

(** X10: when the template is a node without children and the first record
    finds no element, the pass stops at that record: the copy of the
    template has already been appended, positioned and tagged, so the page
    is left with one more node, which later passes will find under the
    record's key; no progress and no counts are reported, only the
    failure. *)
Theorem leaf_template_leaves_one_tagged_copy
    (host : string -> option node_ref) (msg : SyncMessage) (pg : list node)
    (record : gmap string jsval) (rest : list (gmap string jsval))
    (maps : list FieldMapping) (tref : node_ref) (t : leaf_type) (a : attrs) :
  data msg = Some (record :: rest) ->
  mappings msg = Some maps -> maps <> [] ->
  host (targetSourceId msg) = Some tref ->
  deref pg tref = Some (Leaf t a) ->
  tagged (recordId record (idField msg) 0) pg = [] ->
  let key := recordId record (idField msg) 0 in
  let st := sync_mapped_data host msg pg in
  page st
  = pg ++ [Leaf t (set_sourceComponentId (componentId msg)
                     (set_notionId key
                        (set_position 0 (getNextAvailableY pg) a)))]
  /\ posted st = [StatusReceived (S (length rest)); StatusScanning;
                  StatusFound (size (buildExistingMap pg));
                  MsgError ErrSyncFailed]
  /\ createdCount st = 0 /\ updatedCount st = 0
  /\ tagged key (page st) = [[length pg]].
Proof.
  intros Hd Hm Hms Hh Ht Hfree key st.
  assert (Hk : key <> "") by apply recordId_nonempty.
  assert (Hst : st = post (MsgError ErrSyncFailed)
                  (mkState
                     (pg ++ [Leaf t (set_sourceComponentId (componentId msg)
                                       (set_notionId key
                                          (set_position 0 (getNextAvailableY pg) a)))])
                     (buildExistingMap pg) 0 0 0 []
                     [StatusReceived (S (length rest)); StatusScanning;
                      StatusFound (size (buildExistingMap pg))])).
  { subst st.
    rewrite (sync_mapped_data_runs host msg pg (record :: rest) maps tref (Leaf t a))
      by (assumption || discriminate).
    unfold run_loop. simpl sync_loop. unfold sync_record. fold key.
    change (existingMap (start_state pg (record :: rest))) with (buildExistingMap pg).
    rewrite (buildExistingMap_lookup pg key Hk). fold key in Hfree. rewrite Hfree.
    unfold insert_new.
    change (page (start_state pg (record :: rest))) with pg. rewrite Ht.
    destruct maps as [| m ms]; [congruence |].
    simpl. unfold grid_x, grid_y, grid_col, grid_row. simpl.
    rewrite Z.add_0_r. reflexivity. }
  rewrite Hst. simpl.
  split; [reflexivity |]. split; [reflexivity |]. split; [reflexivity |].
  split; [reflexivity |].
  rewrite tagged_snoc. fold key in Hfree. rewrite Hfree. simpl.
  destruct (decide (key = key)); [reflexivity | congruence].
Qed.

Lemma leaf_template_leaves_one_tagged_copy_witness :
  tagged "a" (page (sync_mapped_data
                      (fun _ => Some (Elsewhere (Leaf TEXT (layer "#title"))))
                      (sample_message [record_a1]) []))
  = [[0]].
Proof.
  assert (Hrules : sample_rules <> []) by discriminate.
  exact (proj2 (proj2 (proj2 (proj2
           (leaf_template_leaves_one_tagged_copy
              (fun _ => Some (Elsewhere (Leaf TEXT (layer "#title"))))
              (sample_message [record_a1]) [] record_a1 [] sample_rules
              (Elsewhere (Leaf TEXT (layer "#title"))) TEXT (layer "#title")
              eq_refl eq_refl Hrules eq_refl eq_refl eq_refl))))).
Defined.

(** X11: in a pass whose template has children, every card the pass
    creates is a copy of the template: it has the template's sublayers
    (same names, types, tags and geometry, level by level), it is an
    instance when the template is a component and has the template's type
    otherwise, and it is tagged with the record's key and with the
    [componentId] of the message, whichever node [templateId] named. *)
Theorem created_cards_copy_the_template
    (host : string -> option node_ref) (msg : SyncMessage) (pg : list node)
    (records : list (gmap string jsval)) (maps : list FieldMapping)
    (tref : node_ref) (tpl : node)
    (t : container_type) (a : attrs) (cs : list node) (k : nat) (key : string) :
  data msg = Some records -> records <> [] ->
  mappings msg = Some maps -> maps <> [] ->
  host (targetSourceId msg) = Some tref -> deref pg tref = Some tpl ->
  tpl = Container t a cs ->
  misses (buildExistingMap pg) (keys_from (idField msg) 0 records) !! k = Some key ->
  exists card,
    page (sync_mapped_data host msg pg) !! (length pg + k) = Some card
    /\ notionId (attrs_of card) = key
    /\ sourceComponentId (attrs_of card) = componentId msg
    /\ name (attrs_of card) = name a
    /\ type_of card
       = ContainerType (match t with COMPONENT => INSTANCE | other => other end)
    /\ map skeleton (children_of card) = map skeleton cs.
Proof.
  intros Hd Hr Hm Hms Hh Ht Hcont Hk.
  destruct (sync_mapped_data_outcome host msg pg records maps tref tpl
              Hd Hr Hm Hms Hh Ht)
    as (_ & [(_ & _ & _ & _ & Hpage) | (_ & t' & a' & Hleaf)]); [| congruence].
  destruct (created_cards_on_page _ pg _ _ Hpage) as (_ & Hcards).
  destruct (Hcards k key Hk) as (card & Hcard & Hsk).
  exists card. split; [exact Hcard |].
  destruct (skeleton_geometry _ _ Hsk) as (_ & _ & _ & _ & Hn & Hid & Hsrc).
  destruct (placed_card_attrs (componentId msg) (getNextAvailableY pg)
              (width (attrs_of tpl)) (height (attrs_of tpl)) tpl k key)
    as (_ & _ & _ & _ & Pid & Psrc).
  split; [congruence |]. split; [congruence |].
  assert (Hshape : type_of card
                   = type_of (placed_card (componentId msg) (getNextAvailableY pg)
                                (width (attrs_of tpl)) (height (attrs_of tpl)) tpl k key)
                   /\ map skeleton (children_of card)
                      = map skeleton (children_of
                                        (placed_card (componentId msg)
                                           (getNextAvailableY pg)
                                           (width (attrs_of tpl))
                                           (height (attrs_of tpl)) tpl k key))).
  { rewrite <- !children_of_skeleton, Hsk. split; [| reflexivity].
    apply (f_equal type_of) in Hsk.
    assert (E : forall n, type_of (skeleton n) = type_of n) by (intros []; reflexivity).
    rewrite !E in Hsk. exact Hsk. }
  destruct Hshape as (Hty & Hch).
  rewrite Hty, Hch, Hn, Hcont. destruct t; repeat split.
Qed.

Lemma created_cards_copy_the_template_witness :
  exists card,
    page (sync_mapped_data sample_host (sample_message [record_a1; record_b])
            [node_above]) !! 2 = Some card
    /\ notionId (attrs_of card) = "b".
Proof.
  assert (Hrecords : [record_a1; record_b] <> []) by discriminate.
  assert (Hrules : sample_rules <> []) by discriminate.
  destruct (created_cards_copy_the_template sample_host
              (sample_message [record_a1; record_b]) [node_above]
              [record_a1; record_b] sample_rules (Elsewhere sample_card)
              sample_card FRAME (layer "Card") (children_of sample_card) 1 "b"
              eq_refl Hrecords eq_refl Hrules eq_refl eq_refl eq_refl eq_refl)
    as (card & Hcard & Hid & _).
  exists card. split; [exact Hcard | exact Hid].
Defined.

(* ===================================================================== *)
(** ** [sync-selected] *)
(* ===================================================================== *)

Lemma tag_at_same_skeleton pg pg' q :
  map skeleton pg = map skeleton pg' -> tag_at pg q = tag_at pg' q.
Proof.
  intros Hsk. unfold tag_at.
  destruct (page_at q pg) as [c |] eqn:Hc.
  - destruct (page_at_same_skeleton q pg pg' c Hsk Hc) as (c' & -> & Hcc).
    simpl. symmetry. apply (skeleton_geometry c c' Hcc).
  - rewrite (page_at_none_same_skeleton q pg pg' Hsk Hc). reflexivity.
Qed.

Lemma sync_selected_node_skeleton msg st q :
  map skeleton (selected_page (sync_selected_node msg st q))
  = map skeleton (selected_page st).
Proof.
  unfold sync_selected_node. destruct (List.find _ _); [| reflexivity]. simpl.
  apply page_alter_skeleton. intros m. apply updateInstance_skeleton.
Qed.




Lemma find_skips_blank_keys idf id (l : list (gmap string jsval)) :
  id <> "" ->
  List.find (fun item => String.eqb (selected_key item idf) id) l
  = List.find (fun item => String.eqb (selected_key item idf) id)
      (List.filter (has_identifier idf) l).
Proof.
  intros Hid. induction l as [| a l IH]; [reflexivity |]. simpl.
  unfold has_identifier at 1.
  destruct (String.eqb_spec (selected_key a idf) "") as [He | He]; simpl.
  - rewrite He. destruct (String.eqb_spec "" id) as [E | _]; [congruence |].
    exact IH.
  - rewrite IH. reflexivity.
Qed.

Lemma sync_selected_loop_blank msg pg : forall l st,
  (forall q, q ∈ l -> tag_at pg q <> "") ->
  map skeleton (selected_page st) = map skeleton pg ->
  fold_left (sync_selected_node msg) l st
  = fold_left (sync_selected_node
                 (with_notionData msg
                    (List.filter (has_identifier (selected_idField msg))
                                 (notionData msg)))) l st.
Proof.
  induction l as [| q l IH]; intros st Hl Hsk; [reflexivity |].
  simpl fold_left.
  assert (Hstep : sync_selected_node msg st q
                  = sync_selected_node
                      (with_notionData msg
                         (List.filter (has_identifier (selected_idField msg))
                                      (notionData msg))) st q).
  { unfold sync_selected_node, with_notionData. simpl.
    rewrite <- find_skips_blank_keys; [reflexivity |].
    rewrite (tag_at_same_skeleton _ _ q Hsk). apply Hl. left. }
  rewrite <- Hstep. apply IH.
  - intros q' Hq'. apply Hl. right. exact Hq'.
  - rewrite sync_selected_node_skeleton. exact Hsk.
Qed.

(** X13: [sync-selected] never applies a record whose identifier field is
    missing, [null], empty, [0] or [false]: dropping these records from
    the message changes neither the page nor the reply.  (The full sync
    gives such a record the key [row-i] and a card tagged with it;
    [sync-selected] reads the same record as having no key.) *)
Theorem sync_selected_skips_records_without_identifier
    (getNodeByIdAsync : string -> option node_ref) (selection : list path)
    (msg : SyncSelectedMessage) (pg : list node) :
  sync_selected getNodeByIdAsync selection msg pg
  = sync_selected getNodeByIdAsync selection
      (with_notionData msg
         (List.filter (has_identifier (selected_idField msg)) (notionData msg)))
      pg.
Proof.
  unfold sync_selected.
  destruct selection as [| q0 sel]; [reflexivity |].
  remember (q0 :: sel) as selection eqn:Hsel.
  destruct (List.filter _ selection) as [| n0 ns] eqn:Hfilter; [reflexivity |].
  change (selected_componentId (with_notionData msg _))
    with (selected_componentId msg).
  destruct (getNodeByIdAsync (selected_componentId msg) ≫= deref pg);
    [| reflexivity].
  rewrite <- (sync_selected_loop_blank msg pg (n0 :: ns) (mkSelected pg 0 []));
    [reflexivity | | reflexivity].
  intros q Hq. rewrite <- Hfilter in Hq.
  apply list_elem_of_In, filter_In in Hq. destruct Hq as (_ & Hne).
  intros E. rewrite E in Hne. discriminate.
Qed.

(* ===================================================================== *)
(** ** [read-instance-id] and [update-instance-id] *)
(* ===================================================================== *)

Lemma attrs_at_page_alter f q p pg :
  attrs_of <$> page_at p (page_alter (map_attrs f) q pg)
  = (fun a => if decide (p = q) then f a else a) <$> (attrs_of <$> page_at p pg).
Proof.
  destruct p as [| i p]; [destruct q; reflexivity |].
  destruct q as [| j q]; simpl.
  - destruct (pg !! i ≫= node_at p); reflexivity.
  - destruct (decide (i = j)) as [-> | Hij].
    + rewrite list_lookup_alter_eq.
      destruct (pg !! j) as [c |]; simpl; [| reflexivity].
      rewrite attrs_at_alter_at.
      destruct (attrs_of <$> node_at p c); simpl; [| reflexivity].
      destruct (decide (p = q)) as [-> | Hpq].
      * destruct (decide (j :: q = j :: q)); [reflexivity | congruence].
      * destruct (decide (j :: p = j :: q)); [congruence | reflexivity].
    + rewrite list_lookup_alter_ne by congruence.
      destruct (pg !! i ≫= node_at p); simpl; [| reflexivity].
      destruct (decide (i :: p = j :: q)); [congruence | reflexivity].
Qed.




Lemma tag_at_attrs pg p :
  tag_at pg p = from_option notionId "" (attrs_of <$> page_at p pg).
Proof. unfold tag_at. destruct (page_at p pg); reflexivity. Qed.

(** X15: [update-instance-id] never leaves a node without the identifier
    it had: a node that bears a tag before the call bears one after it,
    whatever the selection and the new identifier.  A new identifier made
    of white space only is refused like an empty one, and a refusal
    leaves the page as it was. *)
Theorem update_instance_id_never_clears_a_tag
    (selection : list path) (newId : option string) (pg : list node) :
  let res := update_instance_id selection newId pg in
  (forall p, tag_at pg p <> "" -> tag_at res.1 p <> "")
  /\ (forall q rest s, selection = q :: rest -> newId = Some s ->
        Str.all_chars Str.is_space s = true ->
        res = (pg, ToolError ErrInvalidId))
  /\ (forall e, res.2 = ToolError e -> res.1 = pg).
Proof.
  intros res. subst res. unfold update_instance_id.
  destruct selection as [| q rest]; [repeat split; simpl; congruence |].
  destruct newId as [s |]; [| repeat split; simpl; congruence].
  destruct (String.eqb_spec s "") as [-> | Hs]; simpl.
  { split; [intros p Hp; exact Hp |]. split; [reflexivity |]. reflexivity. }
  destruct (String.eqb_spec (Str.trim s) "") as [Ht | Ht]; simpl.
  { split; [intros p Hp; exact Hp |]. split; [reflexivity |]. reflexivity. }
  split.
  - intros p Hp. rewrite tag_at_attrs, attrs_at_page_alter.
    rewrite tag_at_attrs in Hp.
    destruct (attrs_of <$> page_at p pg) as [a |]; simpl in *; [| congruence].
    destruct (decide (p = q)); [exact Ht | exact Hp].
  - split; [| intros e He; discriminate].
    intros q' rest' s' _ Hs' Hsp. injection Hs' as <-.
    exfalso. apply Ht. unfold Str.trim.
    rewrite (trimStart_spaces s Hsp). reflexivity.
Qed.

(* ===================================================================== *)
(** ** [sync-selected] beside [sync-mapped-data] *)
(* ===================================================================== *)

Lemma has_identifier_key idf record :
  has_identifier idf record = true -> selected_key record idf <> "".
Proof.
  unfold has_identifier. intros H E. rewrite E in H. discriminate.
Qed.

Lemma recordId_selected_key record idf i :
  has_identifier idf record = true ->
  recordId record idf i = selected_key record idf.
Proof.
  unfold has_identifier, recordId, selected_key.
  destruct (record !! default "undefined" idf) as [v |];
    [destruct (truthy v) |]; simpl; intros H; try reflexivity; discriminate.
Qed.

Lemma keys_from_selected idf records : forall i,
  (forall r, r ∈ records -> has_identifier idf r = true) ->
  keys_from idf i records = map (fun r => selected_key r idf) records.
Proof.
  induction records as [| r rs IH]; intros i Hall; [reflexivity |]. simpl.
  rewrite (recordId_selected_key r idf i) by (apply Hall; left).
  rewrite IH; [reflexivity |]. intros r' Hr'. apply Hall. right. exact Hr'.
Qed.

Lemma keyed_selected idf pg records : forall i,
  (forall r, r ∈ records -> has_identifier idf r = true) ->
  map (fun rk : gmap string jsval * string =>
         (rk.1, hits (buildExistingMap pg) rk.2)) (keyed idf i records)
  = map (fun r => (r, tagged (selected_key r idf) pg)) records.
Proof.
  induction records as [| r rs IH]; intros i Hall; [reflexivity |]. simpl.
  rewrite (recordId_selected_key r idf i) by (apply Hall; left).
  rewrite hits_buildExistingMap by (apply has_identifier_key, Hall; left).
  rewrite IH; [reflexivity |]. intros r' Hr'. apply Hall. right. exact Hr'.
Qed.

Lemma find_unique_key idf (l : list (gmap string jsval)) r :
  NoDup (map (fun item => selected_key item idf) l) -> r ∈ l ->
  List.find (fun item => String.eqb (selected_key item idf) (selected_key r idf)) l
  = Some r.
Proof.
  induction l as [| a l IH]; intros Hnd Hr; [inversion Hr |].
  simpl in Hnd. apply NoDup_cons in Hnd. destruct Hnd as (Hna & Hnd). simpl.
  destruct (String.eqb_spec (selected_key a idf) (selected_key r idf)) as [E | E].
  - apply elem_of_cons in Hr. destruct Hr as [-> | Hr]; [reflexivity |].
    exfalso. apply Hna. rewrite E. apply list_elem_of_In, in_map_iff.
    exists r. split; [reflexivity | apply list_elem_of_In, Hr].
  - apply elem_of_cons in Hr. destruct Hr as [-> | Hr]; [congruence |].
    apply IH; assumption.
Qed.

Lemma sync_selected_block msg pg record : forall qs st,
  map skeleton (selected_page st) = map skeleton pg ->
  (forall q, q ∈ qs -> tag_at pg q = selected_key record (selected_idField msg)) ->
  List.find (fun item => String.eqb (selected_key item (selected_idField msg))
                                    (selected_key record (selected_idField msg)))
            (notionData msg) = Some record ->
  fold_left (sync_selected_node msg) qs st
  = mkSelected (page_updates (selected_mappings msg) record qs (selected_page st))
               (selected_count st + length qs)
               (selected_ids st ++ map (tag_at pg) qs).
Proof.
  induction qs as [| q qs IH]; intros st Hsk Htags Hfind.
  - destruct st as [p c ids]. simpl. rewrite app_nil_r. f_equal. lia.
  - simpl fold_left.
    assert (Hstep : sync_selected_node msg st q
                    = mkSelected (page_alter (updated (selected_mappings msg) record) q
                                             (selected_page st))
                                 (S (selected_count st))
                                 (selected_ids st ++ [tag_at pg q])).
    { unfold sync_selected_node.
      rewrite (tag_at_same_skeleton _ _ q Hsk), (Htags q) by left.
      rewrite Hfind. reflexivity. }
    rewrite Hstep, IH.
    + cbn [selected_page selected_count selected_ids]. unfold page_updates. simpl.
      rewrite <- app_assoc. f_equal. lia.
    + cbn [selected_page]. rewrite page_alter_skeleton; [exact Hsk |].
      intros m. apply updateInstance_skeleton.
    + intros q' Hq'. apply Htags. right. exact Hq'.
    + exact Hfind.
Qed.

Lemma sync_selected_blocks msg pg : forall (rs : list (gmap string jsval)) st,
  map skeleton (selected_page st) = map skeleton pg ->
  (forall r, r ∈ rs ->
     List.find (fun item => String.eqb (selected_key item (selected_idField msg))
                                       (selected_key r (selected_idField msg)))
               (notionData msg) = Some r) ->
  fold_left (sync_selected_node msg)
    (flat_map (fun r => tagged (selected_key r (selected_idField msg)) pg) rs) st
  = mkSelected
      (replay (selected_mappings msg)
         (map (fun r => (r, tagged (selected_key r (selected_idField msg)) pg)) rs)
         (selected_page st))
      (selected_count st
       + length (flat_map (fun r => tagged (selected_key r (selected_idField msg)) pg) rs))
      (selected_ids st
       ++ map (tag_at pg)
            (flat_map (fun r => tagged (selected_key r (selected_idField msg)) pg) rs)).
Proof.
  induction rs as [| r rs IH]; intros st Hsk Hfind.
  - destruct st as [p c ids]. simpl. rewrite app_nil_r. f_equal. lia.
  - simpl flat_map. rewrite fold_left_app.
    rewrite (sync_selected_block msg pg r
               (tagged (selected_key r (selected_idField msg)) pg) st).
    + rewrite IH.
      * cbn [selected_page selected_count selected_ids]. simpl map at 1.
        unfold replay at 2. simpl fold_left.
        rewrite length_app, map_app, <- app_assoc. f_equal. lia.
      * cbn [selected_page]. unfold page_updates. rewrite updates_skeleton.
        exact Hsk.
      * intros r' Hr'. apply Hfind. right. exact Hr'.
    + exact Hsk.
    + intros q Hq. destruct (tagged_valid _ pg q Hq) as (c & Hc & Hid).
      unfold tag_at. rewrite Hc. exact Hid.
    + apply Hfind. left.
Qed.

Lemma filter_all {A : Type} (f : A -> bool) (l : list A) :
  (forall a, a ∈ l -> f a = true) -> List.filter f l = l.
Proof.
  induction l as [| a l IH]; intros H; [reflexivity |]. simpl.
  rewrite (H a) by left. rewrite IH; [reflexivity |].
  intros b Hb. apply H. right. exact Hb.
Qed.

Lemma sum_hits_selected idf pg (records : list (gmap string jsval)) :
  (forall r, r ∈ records -> has_identifier idf r = true) ->
  sum_list (map (fun k => length (hits (buildExistingMap pg) k))
                (map (fun r => selected_key r idf) records))
  = length (flat_map (fun r => tagged (selected_key r idf) pg) records).
Proof.
  induction records as [| r rs IH]; intros Hall; [reflexivity |]. simpl.
  rewrite hits_buildExistingMap by (apply has_identifier_key, Hall; left).
  rewrite length_app, IH; [reflexivity |].
  intros r' Hr'. apply Hall. right. exact Hr'.
Qed.

(** X16: the two ways of refreshing cards agree.  When every record of a
    batch has an identifier, the identifiers are pairwise different and
    each one is borne by some node of the page, then selecting those
    nodes, record by record, and running [sync-selected] leaves the page
    exactly as [sync-mapped-data] leaves it for the same batch; both
    report the same number of updates, one per selected node, and the
    full sync creates nothing. *)
Theorem sync_selected_agrees_with_full_sync
    (host : string -> option node_ref) (msg : SyncMessage) (pg : list node)
    (records : list (gmap string jsval)) (maps : list FieldMapping)
    (tref : node_ref) (tpl : node) :
  data msg = Some records -> records <> [] ->
  mappings msg = Some maps -> maps <> [] ->
  host (targetSourceId msg) = Some tref -> deref pg tref = Some tpl ->
  is_Some (host (componentId msg) ≫= deref pg) ->
  (forall r, r ∈ records -> has_identifier (idField msg) r = true) ->
  NoDup (map (fun r => selected_key r (idField msg)) records) ->
  (forall r, r ∈ records -> tagged (selected_key r (idField msg)) pg <> []) ->
  let selection :=
    flat_map (fun r => tagged (selected_key r (idField msg)) pg) records in
  let full := sync_mapped_data host msg pg in
  sync_selected host selection
    (mkSyncSelected (componentId msg) maps (idField msg) records) pg
  = (page full,
     SyncSelectedDone (length selection) (map (tag_at pg) selection)
                      (length selection))
  /\ updatedCount full = length selection
  /\ createdCount full = 0.
Proof.
  intros Hd Hr Hm Hms Hh Ht Hc Hids Hnd Hcards selection full.
  set (idf := idField msg) in *.
  assert (Hkeys : keys_from idf 0 records = map (fun r => selected_key r idf) records)
    by (apply keys_from_selected, Hids).
  destruct (sync_loop_all_hits (componentId msg) maps idf tref (length records)
              (getNextAvailableY pg) (width (attrs_of tpl)) (height (attrs_of tpl))
              records 0 (start_state pg records))
    as (st & Hloop & Hpage & _ & Hcre & Hupd & _).
  { intros k Hk. rewrite Hkeys in Hk.
    apply list_elem_of_In, in_map_iff in Hk. destruct Hk as (r & <- & Hin).
    apply list_elem_of_In in Hin.
    unfold is_hit. simpl.
    rewrite hits_buildExistingMap by (apply has_identifier_key, Hids, Hin).
    specialize (Hcards r Hin).
    destruct (tagged (selected_key r idf) pg); [congruence | reflexivity]. }
  simpl in Hpage, Hcre, Hupd.
  rewrite (keyed_selected idf pg records 0 Hids) in Hpage.
  rewrite Hkeys, (sum_hits_selected idf pg records Hids) in Hupd.
  assert (Hfull : full = post (MsgDone (createdCount st) (updatedCount st)) st).
  { subst full.
    rewrite (sync_mapped_data_runs host msg pg records maps tref tpl)
      by assumption.
    unfold run_loop. fold idf. rewrite Hloop. reflexivity. }
  rewrite Hfull. simpl page. simpl updatedCount. simpl createdCount.
  split; [| split; [exact Hupd | exact Hcre]].
  assert (Hsel : forall q, q ∈ selection -> tag_at pg q <> "").
  { intros q Hq. apply list_elem_of_In, in_flat_map in Hq.
    destruct Hq as (r & Hin & Hq). apply list_elem_of_In in Hin, Hq.
    destruct (tagged_valid _ pg q Hq) as (c & Hcq & Hid).
    unfold tag_at. rewrite Hcq. simpl. rewrite Hid.
    apply has_identifier_key, Hids, Hin. }
  assert (Hne : selection <> []).
  { destruct records as [| r rs]; [congruence |]. subst selection. simpl.
    specialize (Hcards r ltac:(left)).
    destruct (tagged (selected_key r idf) pg); [congruence | discriminate]. }
  unfold sync_selected.
  rewrite (filter_all _ selection)
    by (intros q Hq; specialize (Hsel q Hq);
        destruct (String.eqb_spec (tag_at pg q) ""); [congruence | reflexivity]).
  destruct selection as [| q0 sel] eqn:Esel; [congruence |].
  cbn [selected_componentId].
  destruct Hc as (ctpl & ->).
  rewrite <- Esel.
  pose proof (sync_selected_blocks
                (mkSyncSelected (componentId msg) maps idf records) pg records
                (mkSelected pg 0 []) eq_refl) as Hblocks.
  cbn [selected_idField selected_mappings notionData selected_page
       selected_count selected_ids] in Hblocks.
  fold selection in Hblocks. rewrite Esel in Hblocks |- *.
  rewrite Hblocks.
  - cbn [selected_page selected_count selected_ids]. rewrite Hpage. reflexivity.
  - intros r Hin. apply find_unique_key; assumption.
Qed.

Lemma sync_selected_agrees_with_full_sync_witness :
  (sync_selected sample_host [[0]; [1]]
     (mkSyncSelected "tpl" sample_rules (Some "id") [record_abc]) page_abc).1
  = page (sync_mapped_data sample_host (sample_message [record_abc]) page_abc).
Proof.
  assert (Hrecords : [record_abc] <> []) by discriminate.
  assert (Hrules : sample_rules <> []) by discriminate.
  assert (Htpl : is_Some (sample_host "tpl" ≫= deref page_abc))
    by (eexists; reflexivity).
  assert (Hids : forall r, r ∈ [record_abc] -> has_identifier (Some "id") r = true).
  { intros r Hin. apply list_elem_of_singleton in Hin. subst r. reflexivity. }
  assert (Hnd : NoDup (map (fun r => selected_key r (Some "id")) [record_abc])).
  { apply NoDup_cons_2; [intros Hin; inversion Hin | apply NoDup_nil_2]. }
  assert (Hcards : forall r, r ∈ [record_abc] ->
                     tagged (selected_key r (Some "id")) page_abc <> []).
  { intros r Hin. apply list_elem_of_singleton in Hin. subst r. discriminate. }
  exact (f_equal fst
           (proj1 (sync_selected_agrees_with_full_sync sample_host
                     (sample_message [record_abc]) page_abc [record_abc]
                     sample_rules (Elsewhere sample_card) sample_card
                     eq_refl Hrecords eq_refl Hrules eq_refl eq_refl Htpl
                     Hids Hnd Hcards))).
Defined.

(* ===================================================================== *)
(** ** [get-component-layers], [restore-component], [load-from-selection] *)
(* ===================================================================== *)

Lemma node_at_snoc p : forall m i,
  node_at (p ++ [i]) m = node_at p m ≫= (fun n => children_of n !! i).
Proof.
  induction p as [| j p IH]; intros m i; simpl.
  - destruct m as [t a | t a cs]; simpl; [reflexivity |].
    destruct (cs !! i); reflexivity.
  - destruct m as [t a | t a cs]; simpl; [reflexivity |].
    destruct (cs !! j) as [c |]; simpl; [apply IH | reflexivity].
Qed.

Lemma page_at_snoc q i pg n :
  page_at q pg = Some n -> page_at (q ++ [i]) pg = children_of n !! i.
Proof.
  destruct q as [| j p]; simpl; [discriminate |].
  destruct (pg !! j) as [c |]; simpl; [| discriminate].
  intros H. rewrite node_at_snoc, H. reflexivity.
Qed.

Lemma resolve_some doc q m mn :
  resolve doc q = Some (m, mn) -> q = m /\ page_at m (scene doc) = Some mn.
Proof.
  unfold resolve. destruct (page_at q (scene doc)) as [n |] eqn:Hq; simpl;
    [| discriminate].
  intros H. injection H as <- <-. split; [reflexivity | exact Hq].
Qed.

Lemma getMainComponentAsync_some doc q m mn :
  getMainComponentAsync doc q = Some (m, mn) ->
  mainComponent doc q = Some m /\ page_at m (scene doc) = Some mn.
Proof.
  unfold getMainComponentAsync.
  destruct (mainComponent doc q) as [m' |]; simpl; [| discriminate].
  intros H. apply resolve_some in H. destruct H as (-> & H).
  split; [reflexivity | exact H].
Qed.

Lemma parent_of_child doc p t a cs k :
  page_at p (scene doc) = Some (Container t a cs) ->
  parent_of doc (p ++ [k]) = Some (ParentNode t, node_id doc p).
Proof.
  intros Hp. unfold parent_of. rewrite removelast_last.
  destruct p as [| j p]; [discriminate |]. rewrite Hp. reflexivity.
Qed.

Lemma parent_is_set doc c pid :
  c <> [] ->
  parent_of doc c = Some (ParentNode COMPONENT_SET, pid) ->
  exists p k a cs,
    c = p ++ [k] /\ pid = node_id doc p
    /\ page_at p (scene doc) = Some (Container COMPONENT_SET a cs).
Proof.
  intros Hc. unfold parent_of.
  destruct (removelast c) as [| j p] eqn:Hp; [discriminate |].
  destruct (page_at (j :: p) (scene doc)) as [[t a | t a cs] |] eqn:Hat;
    try discriminate.
  intros H. injection H as -> <-.
  exists (j :: p), (List.last c 0), a, cs.
  split; [| split; [reflexivity | exact Hat]].
  rewrite <- Hp. apply app_removelast_last, Hc.
Qed.

Lemma mappingId_component doc c cn :
  type_of cn = ContainerType COMPONENT ->
  mappingId_of doc (c, cn)
  = match parent_of doc c with
    | Some (ParentNode COMPONENT_SET, setId) => setId
    | _ => node_id doc c
    end.
Proof.
  intros Hty. unfold mappingId_of, getMappingId, view_of. simpl.
  rewrite Hty. reflexivity.
Qed.

Lemma mappingId_plain doc c cn :
  type_of cn = ContainerType FRAME \/ type_of cn = ContainerType GROUP ->
  mappingId_of doc (c, cn) = node_id doc c.
Proof.
  intros [Hty | Hty]; unfold mappingId_of, getMappingId, view_of; simpl;
    rewrite Hty; reflexivity.
Qed.

Lemma snoc_not_self {A : Type} (p : list A) k : p <> p ++ [k].
Proof.
  intros H. apply (f_equal length) in H. rewrite length_app in H. simpl in H. lia.
Qed.

(** What [restore-component] answers under the mapping identifier of a
    template: the template itself, or, for a variant, the set and its
    first variant. *)
Lemma restore_of_template doc c cn :
  (forall q n, page_at q (scene doc) = Some n ->
               nodeById doc (node_id doc q) = Some q) ->
  page_at c (scene doc) = Some cn ->
  type_of cn = ContainerType COMPONENT \/ type_of cn = ContainerType FRAME
  \/ type_of cn = ContainerType GROUP ->
  (mappingId_of doc (c, cn) = node_id doc c
   /\ restore_component doc (mappingId_of doc (c, cn))
      = ComponentData (name (attrs_of cn)) (mappingId_of doc (c, cn)) None
                      (collectLayers cn "") false)
  \/ (exists p k a first others,
        c = p ++ [k]
        /\ mappingId_of doc (c, cn) = node_id doc p
        /\ mappingId_of doc (c, cn) <> node_id doc c
        /\ nodeById doc (mappingId_of doc (c, cn)) = Some p
        /\ page_at p (scene doc) = Some (Container COMPONENT_SET a (first :: others))
        /\ restore_component doc (mappingId_of doc (c, cn))
           = ComponentData (name a) (mappingId_of doc (c, cn)) None
                           (collectLayers first "") false).
Proof.
  intros Hids Hc Hty.
  assert (Hself : mappingId_of doc (c, cn) = node_id doc c ->
                  restore_component doc (mappingId_of doc (c, cn))
                  = ComponentData (name (attrs_of cn)) (mappingId_of doc (c, cn))
                                  None (collectLayers cn "") false).
  { intros E. rewrite E. unfold restore_component, figma_getNodeByIdAsync.
    rewrite (Hids c cn Hc). simpl. unfold resolve. rewrite Hc. simpl.
    destruct Hty as [-> | [-> | ->]]; reflexivity. }
  assert (Hnonempty : c <> []) by (intros ->; discriminate).
  destruct Hty as [Hty | Hty]; [| left; split; [apply mappingId_plain, Hty |
                                      apply Hself, mappingId_plain, Hty]].
  pose proof (mappingId_component doc c cn Hty) as Hid.
  destruct (parent_of doc c) as [[[| t] pid] |] eqn:Hp;
    try (left; split; [exact Hid | apply Hself, Hid]).
  destruct t; try (left; split; [exact Hid | apply Hself, Hid]).
  right.
  destruct (parent_is_set doc c pid Hnonempty Hp) as (p & k & a & cs & -> & -> & Hset).
  rewrite (page_at_snoc p k _ _ Hset) in Hc. simpl in Hc.
  destruct cs as [| first others]; [discriminate |].
  exists p, k, a, first, others. rewrite Hid.
  split; [reflexivity |]. split; [reflexivity |].
  split.
  { intros E. pose proof (Hids p _ Hset) as H1.
    assert (H2 : page_at (p ++ [k]) (scene doc) = Some cn)
      by (rewrite (page_at_snoc p k _ _ Hset); exact Hc).
    pose proof (Hids _ _ H2) as H3. rewrite <- E, H1 in H3.
    injection H3 as H3. exact (snoc_not_self p k H3). }
  split; [exact (Hids p _ Hset) |]. split; [exact Hset |].
  unfold restore_component, figma_getNodeByIdAsync.
  rewrite (Hids p _ Hset). simpl. unfold resolve. rewrite Hset. reflexivity.
Qed.

(** X17: what [get-component-layers] hands out, [restore-component] takes
    back.  In a document whose identifiers the host resolves, whose main
    components are components and whose component sets hold components,
    the [componentId] answered for a selection is always restored.  When
    it is the template's own identifier, the same name and the same
    layers come back; for a selected component set the same layers come
    back; otherwise the template is a variant, and what comes back is the
    name of its set and the layers of the set's first variant. *)
Theorem restore_component_after_get_component_layers
    (doc : document) (selected : path) (rest : list path) (n : node)
    (cid tid cname : string) (layers : list layer_info) :
  (forall q m, page_at q (scene doc) = Some m ->
               nodeById doc (node_id doc q) = Some q) ->
  (forall q m mn, getMainComponentAsync doc q = Some (m, mn) ->
                  type_of mn = ContainerType COMPONENT) ->
  (forall p a cs c, page_at p (scene doc) = Some (Container COMPONENT_SET a cs) ->
                    c ∈ cs -> type_of c = ContainerType COMPONENT) ->
  page_at selected (scene doc) = Some n ->
  get_component_layers doc (selected :: rest) = ComponentLayers cid tid cname layers ->
  exists nm layers',
    restore_component doc cid = ComponentData nm cid None layers' false
    /\ (cid = tid -> nm = cname /\ layers' = layers)
    /\ (type_of n = ContainerType COMPONENT_SET -> layers' = layers)
    /\ (cid <> tid ->
        exists p a first others,
          nodeById doc cid = Some p
          /\ page_at p (scene doc) = Some (Container COMPONENT_SET a (first :: others))
          /\ nm = name a /\ layers' = collectLayers first "").
Proof.
  intros Hids Hmain Hsets Hn Hget.
  assert (Hcomp : exists c cn,
             page_at c (scene doc) = Some cn
             /\ (type_of cn = ContainerType COMPONENT
                 \/ type_of cn = ContainerType FRAME
                 \/ type_of cn = ContainerType GROUP)
             /\ cid = mappingId_of doc (c, cn) /\ tid = node_id doc c
             /\ cname = name (attrs_of cn) /\ layers = collectLayers cn ""
             /\ (type_of n = ContainerType COMPONENT_SET -> c = selected ++ [0])).
  { unfold get_component_layers in Hget. rewrite Hn in Hget.
    destruct (type_of n) as [lt | []] eqn:Hty; try discriminate.
    - (* FRAME *)
      injection Hget as <- <- <- <-. exists selected, n.
      repeat split; auto. discriminate.
    - (* GROUP *)
      injection Hget as <- <- <- <-. exists selected, n.
      repeat split; auto. discriminate.
    - (* COMPONENT *)
      injection Hget as <- <- <- <-. exists selected, n.
      repeat split; auto. discriminate.
    - (* COMPONENT_SET *)
      destruct n as [t a | t a cs]; [discriminate |]. simpl in Hty.
      injection Hty as ->. simpl in Hget.
      destruct cs as [| first others]; [discriminate |].
      injection Hget as <- <- <- <-. exists (selected ++ [0]), first.
      split; [rewrite (page_at_snoc selected 0 _ _ Hn); reflexivity |].
      split; [left; apply (Hsets selected a (first :: others) first Hn); left |].
      repeat split; auto.
    - (* INSTANCE *)
      destruct (getMainComponentAsync doc selected) as [[m mn] |] eqn:Hm;
        [| discriminate].
      injection Hget as <- <- <- <-. exists m, mn.
      destruct (getMainComponentAsync_some doc selected m mn Hm) as (_ & Hat).
      split; [exact Hat |]. split; [left; apply (Hmain selected m mn Hm) |].
      repeat split; auto. discriminate. }
  destruct Hcomp as (c & cn & Hc & Hty & -> & -> & -> & -> & Hfirst).
  destruct (restore_of_template doc c cn Hids Hc Hty)
    as [(Hid & Hrestore) | (p & k & a & first & others & Hpk & Hid & Hne & Hby
                            & Hset & Hrestore)].
  - exists (name (attrs_of cn)), (collectLayers cn "").
    split; [exact Hrestore |]. split; [auto |]. split; [auto |].
    intros Hdiff. congruence.
  - exists (name a), (collectLayers first "").
    split; [exact Hrestore |]. split; [intros E; congruence |].
    split.
    + intros Hset'. specialize (Hfirst Hset'). rewrite Hfirst in Hpk.
      apply app_inj_tail in Hpk. destruct Hpk as (<- & <-).
      rewrite Hfirst, (page_at_snoc selected 0 _ _ Hset) in Hc. simpl in Hc.
      injection Hc as ->. reflexivity.
    + intros _. exists p, a, first, others. auto.
Qed.

Ltac sample_node H :=
  apply all_nodes_complete in H;
  match type of H with
  | _ ∈ ?l => let l' := eval vm_compute in l in change l with l' in H
  end;
  repeat (apply elem_of_cons in H; destruct H as [H | H]);
  [.. | inversion H].

Lemma sample_document_identifiers q m :
  page_at q (scene sample_document) = Some m ->
  nodeById sample_document (node_id sample_document q) = Some q.
Proof.
  intros H. sample_node H; injection H as -> ->; reflexivity.
Qed.

Lemma sample_document_mains q m mn :
  getMainComponentAsync sample_document q = Some (m, mn) ->
  type_of mn = ContainerType COMPONENT.
Proof.
  unfold getMainComponentAsync. simpl.
  destruct (bool_decide (q = [1])); simpl; [| discriminate].
  intros H. injection H as <- <-. reflexivity.
Qed.

Lemma sample_document_sets p a cs c :
  page_at p (scene sample_document) = Some (Container COMPONENT_SET a cs) ->
  c ∈ cs -> type_of c = ContainerType COMPONENT.
Proof.
  intros H Hc. sample_node H; try discriminate.
  injection H as -> -> ->.
  repeat (apply elem_of_cons in Hc; destruct Hc as [-> | Hc]; [reflexivity |]).
  inversion Hc.
Qed.

Lemma restore_component_after_get_component_layers_witness :
  exists nm layers',
    restore_component sample_document "1:1"
    = ComponentData nm "1:1" None layers' false
    /\ nm = "Card"
    /\ layers' = collectLayers (sample_variant "Style=A" "#title") "".
Proof.
  destruct (restore_component_after_get_component_layers sample_document
              [0; 1] [] (sample_variant "Style=B" "#subtitle")
              "1:1" "1:4" "Style=B"
              (collectLayers (sample_variant "Style=B" "#subtitle") "")
              sample_document_identifiers sample_document_mains
              sample_document_sets eq_refl eq_refl)
    as (nm & layers' & Hrestore & _ & _ & Hset).
  exists nm, layers'. split; [exact Hrestore |].
  destruct Hset as (p & a & first & others & Hp & Hat & -> & ->);
    [discriminate |].
  vm_compute in Hp. injection Hp as <-.
  vm_compute in Hat. injection Hat as <- <- <-.
  split; reflexivity.
Defined.

(** X18: one key for a component set.  For a variant of a component set,
    [get-component-layers] answers with the identifier of the set as
    [componentId], whether the variant itself or an instance of it is
    selected, together with the variant's own identifier, name and
    layers; for the first variant the selected set gives the same answer;
    and [load-from-selection] on an instance gives the same four values. *)
Theorem variants_share_the_set_identifier
    (doc : document) (p : path) (a : attrs) (cs : list node) (k : nat)
    (v : node) :
  page_at p (scene doc) = Some (Container COMPONENT_SET a cs) ->
  cs !! k = Some v ->
  type_of v = ContainerType COMPONENT ->
  let reply := ComponentLayers (node_id doc p) (node_id doc (p ++ [k]))
                               (name (attrs_of v)) (collectLayers v "") in
  (forall rest, get_component_layers doc ((p ++ [k]) :: rest) = reply)
  /\ (k = 0 -> forall rest, get_component_layers doc (p :: rest) = reply)
  /\ (forall i inode rest,
        page_at i (scene doc) = Some inode ->
        type_of inode = ContainerType INSTANCE ->
        mainComponent doc i = Some (p ++ [k]) ->
        get_component_layers doc (i :: rest) = reply
        /\ (node_id doc p <> "" ->
            load_from_selection doc (i :: rest)
            = ComponentData (name (attrs_of v)) (node_id doc p)
                            (Some (node_id doc (p ++ [k])))
                            (collectLayers v "") true)).
Proof.
  intros Hp Hk Hty reply.
  assert (Hv : page_at (p ++ [k]) (scene doc) = Some v)
    by (rewrite (page_at_snoc p k _ _ Hp); exact Hk).
  assert (Hid : mappingId_of doc (p ++ [k], v) = node_id doc p).
  { rewrite (mappingId_component doc _ v Hty), (parent_of_child doc p _ a cs k Hp).
    reflexivity. }
  split; [| split].
  - intros rest. unfold get_component_layers. rewrite Hv, Hty.
    cbn [fst snd]. rewrite Hid. reflexivity.
  - intros -> rest. unfold get_component_layers. rewrite Hp. simpl.
    destruct cs as [| first others]; [discriminate |].
    simpl in Hk. injection Hk as ->. cbn [fst snd]. rewrite Hid. reflexivity.
  - intros i inode rest Hi Hinst Hmain.
    assert (Hm : getMainComponentAsync doc i = Some (p ++ [k], v)).
    { unfold getMainComponentAsync, resolve. rewrite Hmain. simpl.
      rewrite Hv. reflexivity. }
    split.
    + unfold get_component_layers. rewrite Hi, Hinst, Hm.
      cbn [fst snd]. rewrite Hid. reflexivity.
    + intros Hne. unfold load_from_selection. rewrite Hi, Hinst, Hm.
      cbn [from_option fst snd]. rewrite Hid.
      destruct (String.eqb_spec (node_id doc p) ""); [congruence | reflexivity].
Qed.

Lemma variants_share_the_set_identifier_witness :
  get_component_layers sample_document [[0; 1]]
  = get_component_layers sample_document [[1]].
Proof.
  destruct (variants_share_the_set_identifier sample_document [0]
              (layer "Card")
              [sample_variant "Style=A" "#title";
               sample_variant "Style=B" "#subtitle"]
              1 (sample_variant "Style=B" "#subtitle")
              eq_refl eq_refl eq_refl)
    as (Hvariant & _ & Hinstance).
  etransitivity; [exact (Hvariant []) |].
  symmetry.
  exact (proj1 (Hinstance [1] (Container INSTANCE (layer "Style=B")
                                 [Leaf TEXT (layer "#subtitle")]) []
                  eq_refl eq_refl eq_refl)).
Defined.

(* ===================================================================== *)
(** ** From a created card back to its template *)
(* ===================================================================== *)

Lemma type_of_skeleton n : type_of (skeleton n) = type_of n.
Proof. destruct n; reflexivity. Qed.

Lemma collectLayers_skeleton n : forall pfx,
  collectLayers (skeleton n) pfx = collectLayers n pfx.
Proof.
  induction n as [t a | t a cs IH] using node_ind'; intros pfx; [reflexivity |].
  simpl. f_equal.
  induction IH as [| c cs Hc _ IHcs]; [reflexivity |].
  simpl. rewrite Hc, IHcs. reflexivity.
Qed.

Lemma collectLayers_same_skeleton n n' pfx :
  skeleton n = skeleton n' -> collectLayers n pfx = collectLayers n' pfx.
Proof.
  intros H. rewrite <- (collectLayers_skeleton n), H. apply collectLayers_skeleton.
Qed.

Lemma collectLayers_map_attrs f n pfx :
  (forall a, name (f a) = name a) ->
  collectLayers (map_attrs f n) pfx = collectLayers n pfx.
Proof.
  intros Hf. destruct n as [t a | t a cs]; simpl; rewrite Hf; reflexivity.
Qed.

(** X19: a card made by the full sync from a frame or a group leads
    [load-from-selection] back to the configuration it was made with.
    With such a card selected, the reply carries the [componentId] of the
    message that created the card whenever that identifier still resolves
    to a node that is not a component, together with that node's name,
    identifier and layers; and when the identifier is empty or resolves
    to nothing, the card itself is offered as the template, under its own
    identifier, with the name and exactly the layers of the template it
    was cloned from. *)
Theorem created_card_leads_back_to_template
    (host : string -> option node_ref) (msg : SyncMessage) (pg : list node)
    (records : list (gmap string jsval)) (maps : list FieldMapping)
    (tref : node_ref) (t : container_type) (a : attrs) (cs : list node)
    (k : nat) (key : string) (doc : document) (rest : list path) :
  data msg = Some records -> records <> [] ->
  mappings msg = Some maps -> maps <> [] ->
  host (targetSourceId msg) = Some tref ->
  deref pg tref = Some (Container t a cs) ->
  t = FRAME \/ t = GROUP ->
  misses (buildExistingMap pg) (keys_from (idField msg) 0 records) !! k = Some key ->
  scene doc = page (sync_mapped_data host msg pg) ->
  (forall r rn,
      componentId msg <> "" ->
      figma_getNodeByIdAsync doc (componentId msg) = Some (r, rn) ->
      type_of rn <> ContainerType COMPONENT ->
      load_from_selection doc ([length pg + k] :: rest)
      = ComponentData (name (attrs_of rn)) (componentId msg)
                      (Some (node_id doc r)) (collectLayers rn "") true)
  /\ (componentId msg = "" \/ figma_getNodeByIdAsync doc (componentId msg) = None ->
      node_id doc [length pg + k] <> "" ->
      load_from_selection doc ([length pg + k] :: rest)
      = ComponentData (name a) (node_id doc [length pg + k])
                      (Some (node_id doc [length pg + k]))
                      (collectLayers (Container t a cs) "") true).
Proof.
  intros Hd Hr Hm Hms Hh Ht Hkind Hk Hscene.
  destruct (sync_mapped_data_outcome host msg pg records maps tref
              (Container t a cs) Hd Hr Hm Hms Hh Ht)
    as (_ & [(_ & _ & _ & _ & Hpage) | (_ & t' & a' & Hleaf)]); [| discriminate].
  destruct (created_cards_on_page _ pg _ _ Hpage) as (_ & Hcards).
  destruct (Hcards k key Hk) as (card & Hcard & Hsk).
  set (placed := placed_card (componentId msg) (getNextAvailableY pg)
                   (width (attrs_of (Container t a cs)))
                   (height (attrs_of (Container t a cs)))
                   (Container t a cs) k key) in Hsk.
  assert (Hplaced : type_of placed = ContainerType t
                    /\ name (attrs_of placed) = name a
                    /\ sourceComponentId (attrs_of placed) = componentId msg
                    /\ collectLayers placed "" = collectLayers (Container t a cs) "").
  { subst placed. unfold placed_card, instance_of, clone.
    destruct Hkind as [-> | ->]; simpl; repeat split; reflexivity. }
  destruct Hplaced as (Pty & Pname & Psrc & Players).
  assert (Hty : type_of card = ContainerType t).
  { rewrite <- Pty, <- (type_of_skeleton card), Hsk. apply type_of_skeleton. }
  destruct (skeleton_geometry _ _ Hsk) as (_ & _ & _ & _ & Hname & _ & Hsrc).
  rewrite Pname in Hname. rewrite Psrc in Hsrc.
  assert (Hlayers : collectLayers card "" = collectLayers (Container t a cs) "").
  { rewrite <- Players. apply collectLayers_same_skeleton, Hsk. }
  assert (Hat : page_at [length pg + k] (scene doc) = Some card).
  { rewrite Hscene. simpl. rewrite Hcard. reflexivity. }
  assert (Hload : load_from_selection doc ([length pg + k] :: rest)
                  = match (if String.eqb (componentId msg) "" then None
                           else figma_getNodeByIdAsync doc (componentId msg)) with
                    | Some r =>
                        if String.eqb
                             match type_of r.2 with
                             | ContainerType COMPONENT => mappingId_of doc r
                             | _ => componentId msg
                             end ""
                        then TemplateError ErrNoTemplate
                        else ComponentData (name (attrs_of r.2))
                               match type_of r.2 with
                               | ContainerType COMPONENT => mappingId_of doc r
                               | _ => componentId msg
                               end
                               (Some (node_id doc r.1)) (collectLayers r.2 "") true
                    | None =>
                        if String.eqb (node_id doc [length pg + k]) ""
                        then TemplateError ErrNoTemplate
                        else ComponentData (name (attrs_of card))
                               (node_id doc [length pg + k])
                               (Some (node_id doc [length pg + k]))
                               (collectLayers card "") true
                    end).
  { unfold load_from_selection. rewrite Hat, Hty, Hsrc.
    destruct Hkind as [-> | ->];
      destruct (if String.eqb (componentId msg) "" then None
                else figma_getNodeByIdAsync doc (componentId msg));
      reflexivity. }
  split.
  - intros r rn Hne Hfound Hnot. rewrite Hload.
    destruct (String.eqb_spec (componentId msg) "") as [E | _]; [congruence |].
    rewrite Hfound. cbn [fst snd].
    assert (Hid : match type_of rn with
                  | ContainerType COMPONENT => mappingId_of doc (r, rn)
                  | _ => componentId msg
                  end = componentId msg).
    { destruct (type_of rn) as [lt | []]; try reflexivity. congruence. }
    rewrite Hid.
    destruct (String.eqb_spec (componentId msg) ""); [congruence | reflexivity].
  - intros Hgone Hne. rewrite Hload.
    assert (Hnone : (if String.eqb (componentId msg) "" then None
                     else figma_getNodeByIdAsync doc (componentId msg)) = None).
    { destruct Hgone as [-> | ->]; [reflexivity |].
      destruct (String.eqb (componentId msg) ""); reflexivity. }
    rewrite Hnone, Hname, Hlayers.
    destruct (String.eqb_spec (node_id doc [length pg + k]) "");
      [congruence | reflexivity].
Qed.

Lemma created_card_leads_back_to_template_witness :
  load_from_selection sample_document_after [[0]]
  = ComponentData "Card" "9:1" (Some "9:1") (collectLayers sample_card "") true.
Proof.
  assert (Hrecords : [record_b] <> []) by discriminate.
  assert (Hrules : sample_rules <> []) by discriminate.
  assert (Hid : node_id sample_document_after [0] <> "") by discriminate.
  exact (proj2 (created_card_leads_back_to_template sample_host
                  (sample_message [record_b]) [] [record_b] sample_rules
                  (Elsewhere sample_card) FRAME (layer "Card")
                  (children_of sample_card) 0 "b" sample_document_after []
                  eq_refl Hrecords eq_refl Hrules eq_refl eq_refl
                  (or_introl eq_refl) eq_refl eq_refl)
               (or_intror eq_refl) Hid).
Defined.
